(** * openfimg: surface and buffer management of the EGL layer

    A shallow embedding of the window-surface part of the EGL
    implementation (the translation unit holding [FGLWindowSurface],
    [FGLPbufferSurface] and their helpers): rectangles and the four-slot
    [Region] produced by [Region::subtract], the manual copy of
    [copyBlt], the swap chain ([connect], [swapBuffers], [disconnect])
    run against an explicit native-window provider, and the pbuffer
    constructor.

    Conventions.
    - [int32_t]/[EGLint] values are integers in [Z]; arithmetic on them is
      wrapped with [int32], [size_t] and [FGLuint] arithmetic with
      [size_t]/[uint32] (the target, an S3C6410, is ILP32).
    - Pointers are addresses in [Z] with [NULL = 0]; a pointer to a native
      buffer is an [option android_native_buffer_t].
    - Calls that leave the translation unit (native window, gralloc
      module, allocator, copybit) are answered by a [Platform] record
      whose functions see the history of calls made so far; every call is
      appended to that history, newest first. *)

From Stdlib Require Import Strings.Byte.
From stdpp Require Import base option list numbers.

Local Open Scope Z_scope.

(* ================================================================== *)
(** ** Machine integers *)

Definition int32 (z : Z) : Z := (z + 2 ^ 31) mod 2 ^ 32 - 2 ^ 31.
Definition uint32 (z : Z) : Z := z mod 2 ^ 32.
Definition size_t (z : Z) : Z := z mod 2 ^ 32.

Definition in_int32 (z : Z) : Prop := - 2 ^ 31 <= z < 2 ^ 31.

(** [template<typename T> static inline T max(T a, T b)] and [min]. *)
Definition max (a b : Z) : Z := if a >? b then a else b.
Definition min (a b : Z) : Z := if a <? b then a else b.

(* ================================================================== *)
(** ** [FGLWindowSurface::Rect] *)

Record Rect : Type := mkRect {
  left : Z;
  top : Z;
  right : Z;
  bottom : Z
}.

#[global] Instance Rect_eq_dec : EqDecision Rect.
Proof. solve_decision. Defined.

(** [Rect(int32_t w, int32_t h)] *)
Definition Rect_wh (w h : Z) : Rect := mkRect 0 0 w h.

(** [Rect& andSelf(const Rect& r)] *)
Definition andSelf (this r : Rect) : Rect :=
  {| left := max (left this) (left r);
     top := max (top this) (top r);
     right := min (right this) (right r);
     bottom := min (bottom this) (bottom r) |}.

(** [bool isEmpty() const] *)
Definition Rect_isEmpty (this : Rect) : bool :=
  (left this >=? right this) || (top this >=? bottom this).

(* ================================================================== *)
(** ** [FGLWindowSurface::Region] *)

(** [Rect storage[4]; ssize_t count;].  A slot that was never assigned
    holds an indeterminate value, modelled by [None]. *)
Record Region : Type := mkRegion {
  storage : list (option Rect);
  count : Z
}.

#[global] Instance Region_eq_dec : EqDecision Region.
Proof. solve_decision. Defined.

Definition Region_capacity : nat := 4.

(** [inline Region() : count(0) { }] *)
Definition Region_new : Region :=
  {| storage := replicate Region_capacity None; count := 0 |}.

(** The write cursor of [subtract]: the array under construction and the
    index [storage - reg.storage] the local pointer has reached. *)
Definition cursor : Type := list (option Rect) * nat.

(** The four field stores through [storage] followed by [storage++].  A
    store through a pointer at or past [reg.storage + 4] is outside the
    object: the result is [None]. *)
Definition store_rect (c : cursor) (r : Rect) : option cursor :=
  let '(arr, k) := c in
  if decide (k < length arr)%nat then Some (<[k := Some r]> arr, S k) else None.

(** [static Region subtract(const Rect& lhs, const Rect& rhs)] *)
Definition subtract (lhs rhs : Rect) : option Region :=
  let reg := Region_new in
  if negb (Rect_isEmpty lhs) then
    c0 ← Some (storage reg, 0%nat);
    c1 ← (if top lhs <? top rhs
          then store_rect c0 (mkRect (left lhs) (top lhs) (right lhs) (top rhs))
          else Some c0);
    let top_ := max (top lhs) (top rhs) in
    let bot := min (bottom lhs) (bottom rhs) in
    c3 ← (if top_ <? bot then
            c2 ← (if left lhs <? left rhs
                  then store_rect c1 (mkRect (left lhs) top_ (left rhs) bot)
                  else Some c1);
            (if right lhs >? right rhs
             then store_rect c2 (mkRect (right rhs) top_ (right lhs) bot)
             else Some c2)
          else Some c1);
    c4 ← (if bottom lhs >? bottom rhs
          then store_rect c3 (mkRect (left lhs) (bottom rhs) (right lhs) (bottom lhs))
          else Some c3);
    Some {| storage := fst c4; count := Z.of_nat (snd c4) |}
  else Some reg.

(** [bool isEmpty() const { return count<=0; }] *)
Definition Region_isEmpty (this : Region) : bool := count this <=? 0.

(** The slots between [begin()] and [end()], in iteration order. *)
Definition Region_slots (this : Region) : list (option Rect) :=
  take (Z.to_nat (count this)) (storage this).

(** The rectangles a [const_iterator] walk from [begin()] to [end()]
    reads; [None] if the walk leaves the array or reads a slot that was
    never written. *)
Definition Region_rects (this : Region) : option (list Rect) :=
  if decide (Z.to_nat (count this) <= length (storage this))%nat
  then mapM id (Region_slots this)
  else None.

(** [region_iterator]: the cursor pair [b], [e] as the list still to be
    produced; [iterate] hands out the head and advances. *)
Definition region_iterator (region : Region) : option (list Rect) :=
  Region_rects region.

Definition iterate (me : list Rect) : Z * option Rect * list Rect :=
  match me with
  | r :: rest => (1, Some r, rest)
  | [] => (0, None, [])
  end.

(** The rectangles of [subtract lhs rhs]; [[]] stands in for a
    construction that leaves the array, which never happens. *)
Definition subtract_rects (lhs rhs : Rect) : list Rect :=
  default [] (r ← subtract lhs rhs; Region_rects r).

(* ---------------------------------------------------------------- *)
(** *** Point semantics *)

(** The pixel [(x, y)] lies in [r]: edges are half-open, as [isEmpty]
    and the width [right - left] have it. *)
Definition inside (x y : Z) (r : Rect) : Prop :=
  left r <= x < right r /\ top r <= y < bottom r.

Definition covered (x y : Z) (rs : list Rect) : Prop :=
  Exists (inside x y) rs.

Definition overlaps (r s : Rect) : Prop :=
  exists x y, inside x y r /\ inside x y s.

(** The rectangles [subtract] stores, in the order of its stores and
    with the coordinates it gives them: above the band of rows both
    rectangles share a rectangle that ends at [rhs.top], in the band one
    that ends at [rhs.left] and one that begins at [rhs.right], below it
    one that begins at [rhs.bottom]; nothing for an empty [lhs].  The far
    edge of each is the edge of [rhs], whether or not it lies within
    [lhs]. *)
Definition strips (lhs rhs : Rect) : list Rect :=
  if Rect_isEmpty lhs then []
  else
    let band_top := Z.max (top lhs) (top rhs) in
    let band_bottom := Z.min (bottom lhs) (bottom rhs) in
    (if bool_decide (top lhs < top rhs)
     then [mkRect (left lhs) (top lhs) (right lhs) (top rhs)] else []) ++
    (if bool_decide (band_top < band_bottom) then
       (if bool_decide (left lhs < left rhs)
        then [mkRect (left lhs) band_top (left rhs) band_bottom] else []) ++
       (if bool_decide (right lhs > right rhs)
        then [mkRect (right rhs) band_top (right lhs) band_bottom] else [])
     else []) ++
    (if bool_decide (bottom lhs > bottom rhs)
     then [mkRect (left lhs) (bottom rhs) (right lhs) (bottom lhs)] else []).

(** The decomposition as the design describes it: the strip of [lhs]
    above the top edge of [rhs], then, in the band of rows both share,
    the strip of [lhs] to the left of [rhs] and the strip of [lhs] to its
    right, then the strip of [lhs] below the bottom edge of [rhs], each
    under its guard; nothing for an empty [lhs].  A strip of [lhs] is the
    part of [lhs] on that side of the edge. *)
Definition lhs_strips (lhs rhs : Rect) : list Rect :=
  if Rect_isEmpty lhs then []
  else
    let band_top := Z.max (top lhs) (top rhs) in
    let band_bottom := Z.min (bottom lhs) (bottom rhs) in
    (if bool_decide (top lhs < top rhs)
     then [mkRect (left lhs) (top lhs) (right lhs) (Z.min (bottom lhs) (top rhs))]
     else []) ++
    (if bool_decide (band_top < band_bottom) then
       (if bool_decide (left lhs < left rhs)
        then [mkRect (left lhs) band_top (Z.min (right lhs) (left rhs)) band_bottom]
        else []) ++
       (if bool_decide (right lhs > right rhs)
        then [mkRect (Z.max (left lhs) (right rhs)) band_top (right lhs) band_bottom]
        else [])
     else []) ++
    (if bool_decide (bottom lhs > bottom rhs)
     then [mkRect (left lhs) (Z.max (top lhs) (bottom rhs)) (right lhs) (bottom lhs)]
     else []).

(** The closed rectangles meet: no gap separates [b] from [a] on either
    axis. *)
Definition touches (a b : Rect) : Prop :=
  top b <= bottom a /\ top a <= bottom b /\
  left b <= right a /\ left a <= right b.

(** [b] begins exactly where [a] ends, along a whole side of [a]: below
    it, above it, or beside it while spanning all of its rows. *)
Definition adjoins (a b : Rect) : Prop :=
  (top b = bottom a /\ bottom a <= bottom b) \/
  (bottom b = top a /\ top b <= top a) \/
  (top b <= top a /\ bottom a <= bottom b /\
   ((left b = right a /\ right a <= right b) \/
    (right b = left a /\ left b <= left a))).

(* ================================================================== *)
(** ** Planes and native buffers *)

Inductive EGLBoolean : Type := EGL_FALSE | EGL_TRUE.

Inductive EGLError : Type := EGL_SUCCESS | EGL_BAD_ACCESS | EGL_BAD_ALLOC.

#[global] Instance EGLBoolean_eq_dec : EqDecision EGLBoolean.
Proof. solve_decision. Defined.
#[global] Instance EGLError_eq_dec : EqDecision EGLError.
Proof. solve_decision. Defined.

Definition FGL_NO_ERROR : Z := 0.
(** [BAD_VALUE] of the Android error codes, [-EINVAL]. *)
Definition BAD_VALUE : Z := -22.
Definition NULL : Z := 0.
Definition MAGIC : Z := 0x31415265.

Module Plane.
(** [struct FGLPlane] *)
Record t : Type := mk {
  version : Z;
  width : Z;
  height : Z;
  stride : Z;
  data : Z;
  format : Z
}.
#[global] Instance eq_dec : EqDecision t.
Proof. solve_decision. Defined.
End Plane.

(** [buffer_handle_t], by what [sw_gralloc_handle_t::validate] answers:
    a negative result for a gralloc handle, otherwise a software handle
    with its [base]. *)
Inductive buffer_handle_t : Type :=
  | gralloc_handle (h : Z)
  | sw_gralloc_handle (base : Z).

#[global] Instance buffer_handle_eq_dec : EqDecision buffer_handle_t.
Proof. solve_decision. Defined.

Module Buf.
(** [android_native_buffer_t], with the address of the object as its
    identity. *)
Record t : Type := mk {
  addr : Z;
  width : Z;
  height : Z;
  stride : Z;
  format : Z;
  handle : buffer_handle_t
}.
#[global] Instance eq_dec : EqDecision t.
Proof. solve_decision. Defined.
End Buf.

(* ================================================================== *)
(** ** The platform and the history of calls *)

Inductive Event : Type :=
  | EvSetUsage (usage : Z)
  | EvDequeueBuffer (status : Z) (out : option Buf.t)
  | EvLockBuffer (b : option Buf.t)
  | EvQueueBuffer (b : option Buf.t)
  | EvIncRef (b : Buf.t)
  | EvDecRef (b : Buf.t)
  | EvLock (b : Buf.t) (usage : Z) (err : Z) (vaddr : Z)
  | EvUnlock (b : Buf.t) (err : Z)
  | EvAlloc (size : Z) (p : Z)
  | EvFree (p : Z)
  | EvSetError (e : EGLError)
  | EvCopyBlt (dst : Buf.t) (dst_vaddr : Z) (src : Buf.t) (src_vaddr : Z)
      (clip : Region).

(** Calls made so far, newest first. *)
Definition History : Type := list Event.

(** What lies outside the translation unit.  Each answer may depend on
    everything that happened before.
    - [dequeueBuffer_answer h old] is the status of
      [nativeWindow->dequeueBuffer] and the pointer it leaves in [*buffer]
      (which held [old]);
    - [module_lock h b usage old] is the error code of [module->lock] and
      the address it leaves in [*vaddr] (which held [old]);
    - [fimgAllocMemory_answer h size] is the block [fimgAllocMemory]
      returns, [NULL] on failure.  The body this repository has for it is
      marked unimplemented and returns [NULL] for every size; that
      allocator is [placeholder_alloc], one platform among the others;
    - [getBpp format] is the number of bytes per pixel of a format; the
      body in the repository is marked unimplemented as well and returns
      0, see [placeholder_getBpp];
    - the remaining fields are constants of headers that are not part of
      the translation unit. *)
Record Platform : Type := mkPlatform {
  dequeueBuffer_answer : History -> option Buf.t -> Z * option Buf.t;
  module_lock : History -> Buf.t -> Z -> Z -> Z * Z;
  module_unlock : History -> Buf.t -> Z;
  fimgAllocMemory_answer : History -> Z -> Z;
  getBpp : Z -> Z;
  GRALLOC_USAGE_SW_READ_RARELY : Z;
  GRALLOC_USAGE_SW_READ_OFTEN : Z;
  GRALLOC_USAGE_SW_WRITE_NEVER : Z;
  GRALLOC_USAGE_SW_WRITE_OFTEN : Z;
  GRALLOC_USAGE_HW_RENDER : Z;
  FGL_PIXEL_FORMAT_A_8 : Z;
  FGL_PIXEL_FORMAT_RGB_565 : Z;
  FGL_PIXEL_FORMAT_RGBA_8888 : Z;
  FGL_PIXEL_FORMAT_RGBX_8888 : Z;
  sizeof_FGLPlane : Z
}.

(** [void *fimgAllocMemory(size_t size) { return NULL; }] and
    [FGLint getBpp(int format) { return 0; }], the bodies in the
    repository. *)
Definition placeholder_alloc : History -> Z -> Z := fun _ _ => NULL.
Definition placeholder_getBpp : Z -> Z := fun _ => 0.

(* ---------------------------------------------------------------- *)
(** *** A state monad over the object and the history *)

Inductive Outcome (A : Type) : Type :=
  | Returns (a : A)
  | Crashes.
Arguments Returns {A} a.
Arguments Crashes {A}.

(** A method of an object of type [S]: it reads and updates the object,
    extends the history, and either returns or dereferences [NULL]. *)
Definition M (S A : Type) : Type := S -> History -> Outcome A * S * History.

Definition ret {S A} (a : A) : M S A := fun s h => (Returns a, s, h).

Definition bind {S A B} (m : M S A) (k : A -> M S B) : M S B :=
  fun s h =>
    match m s h with
    | (Returns a, s', h') => k a s' h'
    | (Crashes, s', h') => (Crashes, s', h')
    end.

#[global] Instance M_ret {S} : MRet (M S) := @ret S.
#[global] Instance M_bind {S} : MBind (M S) := fun A B k m => bind m k.

Definition gets {S A} (f : S -> A) : M S A := fun s h => (Returns (f s), s, h).
Definition modify {S} (f : S -> S) : M S unit := fun s h => (Returns tt, f s, h).
Definition emit {S} (e : Event) : M S unit := fun s h => (Returns tt, s, e :: h).
Definition history {S} : M S History := fun s h => (Returns h, s, h).
Definition crash {S A} : M S A := fun s h => (Crashes, s, h).

(** Dereferencing a pointer to a native buffer. *)
Definition deref {S} (p : option Buf.t) : M S Buf.t :=
  match p with
  | Some b => ret b
  | None => crash
  end.

(** A block of statements that may execute [return v;]: [Some v] when it
    did, [None] when control falls through to the rest of the body. *)
Definition orelse {S A} (block : M S (option A)) (rest : M S A) : M S A :=
  r ← block; match r with Some v => ret v | None => rest end.

Section PlatformCalls.

Context (pf : Platform) {S : Type}.

(** [static void setError(EGLint error)]: the thread's error slot is
    written; the history keeps the write. *)
Definition setError (e : EGLError) : M S unit := emit (EvSetError e).

(** The error slot as [eglGetError] would read it (without clearing). *)
Fixpoint last_error (h : History) : EGLError :=
  match h with
  | [] => EGL_SUCCESS
  | EvSetError e :: _ => e
  | _ :: h' => last_error h'
  end.

(** [void *fimgAllocMemory(size_t size)], answered by the platform. *)
Definition fimgAllocMemory (size : Z) : M S Z :=
  h ← history;
  let p := fimgAllocMemory_answer pf h size in
  emit (EvAlloc size p);; mret p.

(** [void fimgFreeMemory(void *mem)] *)
Definition fimgFreeMemory (p : Z) : M S unit := emit (EvFree p).

End PlatformCalls.

(* ================================================================== *)
(** ** [struct FGLWindowSurface : public FGLSurface] *)

Record FGLWindowSurface : Type := mkWindowSurface {
  magic : Z;
  dpy : Z;
  config : Z;
  ctx : Z;
  depth : Plane.t;
  nativeWindow : Z;
  buffer : option Buf.t;
  previousBuffer : option Buf.t;
  module : Z;
  blitengine : Z;
  width : Z;
  height : Z;
  bits : Z;
  dirtyRegion : Rect;
  oldDirtyRegion : Rect
}.

#[global] Instance FGLWindowSurface_eq_dec : EqDecision FGLWindowSurface.
Proof. solve_decision. Defined.

Definition set_depth (v : Plane.t) (s : FGLWindowSurface) : FGLWindowSurface :=
  mkWindowSurface (magic s) (dpy s) (config s) (ctx s) v (nativeWindow s)
    (buffer s) (previousBuffer s) (module s) (blitengine s) (width s)
    (height s) (bits s) (dirtyRegion s) (oldDirtyRegion s).

Definition set_buffer (v : option Buf.t) (s : FGLWindowSurface) : FGLWindowSurface :=
  mkWindowSurface (magic s) (dpy s) (config s) (ctx s) (depth s) (nativeWindow s)
    v (previousBuffer s) (module s) (blitengine s) (width s)
    (height s) (bits s) (dirtyRegion s) (oldDirtyRegion s).

Definition set_previousBuffer (v : option Buf.t) (s : FGLWindowSurface) : FGLWindowSurface :=
  mkWindowSurface (magic s) (dpy s) (config s) (ctx s) (depth s) (nativeWindow s)
    (buffer s) v (module s) (blitengine s) (width s)
    (height s) (bits s) (dirtyRegion s) (oldDirtyRegion s).

Definition set_width (v : Z) (s : FGLWindowSurface) : FGLWindowSurface :=
  mkWindowSurface (magic s) (dpy s) (config s) (ctx s) (depth s) (nativeWindow s)
    (buffer s) (previousBuffer s) (module s) (blitengine s) v
    (height s) (bits s) (dirtyRegion s) (oldDirtyRegion s).

Definition set_height (v : Z) (s : FGLWindowSurface) : FGLWindowSurface :=
  mkWindowSurface (magic s) (dpy s) (config s) (ctx s) (depth s) (nativeWindow s)
    (buffer s) (previousBuffer s) (module s) (blitengine s) (width s)
    v (bits s) (dirtyRegion s) (oldDirtyRegion s).

Definition set_bits (v : Z) (s : FGLWindowSurface) : FGLWindowSurface :=
  mkWindowSurface (magic s) (dpy s) (config s) (ctx s) (depth s) (nativeWindow s)
    (buffer s) (previousBuffer s) (module s) (blitengine s) (width s)
    (height s) v (dirtyRegion s) (oldDirtyRegion s).

Definition set_dirtyRegion (v : Rect) (s : FGLWindowSurface) : FGLWindowSurface :=
  mkWindowSurface (magic s) (dpy s) (config s) (ctx s) (depth s) (nativeWindow s)
    (buffer s) (previousBuffer s) (module s) (blitengine s) (width s)
    (height s) (bits s) v (oldDirtyRegion s).

Definition set_oldDirtyRegion (v : Rect) (s : FGLWindowSurface) : FGLWindowSurface :=
  mkWindowSurface (magic s) (dpy s) (config s) (ctx s) (depth s) (nativeWindow s)
    (buffer s) (previousBuffer s) (module s) (blitengine s) (width s)
    (height s) (bits s) (dirtyRegion s) v.

(** Stores into single fields of [depth]. *)
Definition set_plane_width (v : Z) (p : Plane.t) : Plane.t :=
  Plane.mk (Plane.version p) v (Plane.height p) (Plane.stride p) (Plane.data p) (Plane.format p).
Definition set_plane_height (v : Z) (p : Plane.t) : Plane.t :=
  Plane.mk (Plane.version p) (Plane.width p) v (Plane.stride p) (Plane.data p) (Plane.format p).
Definition set_plane_stride (v : Z) (p : Plane.t) : Plane.t :=
  Plane.mk (Plane.version p) (Plane.width p) (Plane.height p) v (Plane.data p) (Plane.format p).
Definition set_plane_data (v : Z) (p : Plane.t) : Plane.t :=
  Plane.mk (Plane.version p) (Plane.width p) (Plane.height p) (Plane.stride p) v (Plane.format p).

Section WindowSurface.

Context (pf : Platform).

Local Abbreviation Meth := (M FGLWindowSurface).

(** [FGLWindowSurface::FGLWindowSurface], on top of [FGLSurface::FGLSurface].
    [raw] is the storage the object is constructed in: members without an
    initialiser ([dirtyRegion], [oldDirtyRegion], the sizes of [depth])
    keep what it held.  [gralloc] and [copybit] are what [hw_get_module]
    and [copybit_open] yield, [w] and [h] the answers of the two window
    queries.  The reference taken on the window itself is not a buffer
    reference and is not recorded. *)
Definition FGLWindowSurface_new (raw : FGLWindowSurface)
    (dpy_ config_ depthFormat window gralloc copybit w h : Z) : FGLWindowSurface :=
  {| magic := MAGIC; dpy := dpy_; config := config_; ctx := 0;
     depth := Plane.mk (sizeof_FGLPlane pf) (Plane.width (depth raw))
                (Plane.height (depth raw)) (Plane.stride (depth raw)) 0 depthFormat;
     nativeWindow := window; buffer := None; previousBuffer := None;
     module := gralloc; blitengine := copybit; width := w; height := h;
     bits := NULL; dirtyRegion := dirtyRegion raw;
     oldDirtyRegion := oldDirtyRegion raw |}.

(** [virtual bool initCheck() const { return true; }] *)
Definition initCheck (this : FGLWindowSurface) : bool := true.

Definition getWidth (this : FGLWindowSurface) : Z := width this.
Definition getHeight (this : FGLWindowSurface) : Z := height this.
Definition getRenderBuffer (this : FGLWindowSurface) : option Buf.t := buffer this.

(** [nativeWindow->dequeueBuffer(nativeWindow, &buffer)] *)
Definition dequeueBuffer : Meth Z :=
  h ← history;
  old ← gets buffer;
  let '(status, out) := dequeueBuffer_answer pf h old in
  modify (set_buffer out);;
  emit (EvDequeueBuffer status out);;
  mret status.

Definition incRef (b : Buf.t) : Meth unit := emit (EvIncRef b).
Definition decRef (b : Buf.t) : Meth unit := emit (EvDecRef b).

(** [FGLint lock(android_native_buffer_t* buf, int usage, void** vaddr)];
    [old] is what [*vaddr] held, the result pairs the error code with
    what it holds afterwards. *)
Definition lock_answer (h : History) (buf : Buf.t) (usage old : Z) : Z * Z :=
  match Buf.handle buf with
  | gralloc_handle _ => module_lock pf h buf usage old
  | sw_gralloc_handle base => (FGL_NO_ERROR, base)
  end.

Definition lock (buf : Buf.t) (usage old : Z) : Meth (Z * Z) :=
  h ← history;
  let r := lock_answer h buf usage old in
  emit (EvLock buf usage r.1 r.2);; mret r.

Definition unlock_answer (h : History) (b : Buf.t) : Z :=
  match Buf.handle b with
  | gralloc_handle _ => module_unlock pf h b
  | sw_gralloc_handle _ => FGL_NO_ERROR
  end.

(** [FGLint unlock(android_native_buffer_t* buf)] *)
Definition unlock (buf : option Buf.t) : Meth Z :=
  match buf with
  | None => mret BAD_VALUE
  | Some b =>
      h ← history;
      let err := unlock_answer h b in
      emit (EvUnlock b err);; mret err
  end.

(** The call [copyBlt(dst, dst_vaddr, src, src_vaddr, clip)] as seen from
    the swap chain: it touches pixel memory only, which the surface
    object does not contain; the copy itself is [copyBlt] below. *)
Definition call_copyBlt (dst : Buf.t) (dst_vaddr : Z) (src : Buf.t)
    (src_vaddr : Z) (clip : Region) : Meth unit :=
  emit (EvCopyBlt dst dst_vaddr src src_vaddr clip).

(** [EGLBoolean FGLWindowSurface::connect()] *)
Definition connect : Meth EGLBoolean :=
  emit (EvSetUsage (Z.lor (Z.lor (GRALLOC_USAGE_SW_READ_RARELY pf)
                                 (GRALLOC_USAGE_SW_WRITE_NEVER pf))
                          (GRALLOC_USAGE_HW_RENDER pf)));;
  status ← dequeueBuffer;
  if negb (status =? FGL_NO_ERROR) then
    setError EGL_BAD_ALLOC;; mret EGL_FALSE
  else
    b ← gets buffer; b ← deref b;
    modify (set_width (Buf.width b));;
    modify (set_height (Buf.height b));;
    orelse
      (d ← gets depth;
       if negb (Plane.format d =? 0) then
         w ← gets width; modify (fun s => set_depth (set_plane_width (uint32 w) (depth s)) s);;
         h ← gets height; modify (fun s => set_depth (set_plane_height (uint32 h) (depth s)) s);;
         modify (fun s => set_depth (set_plane_stride (Plane.width (depth s)) (depth s)) s);;
         d ← gets depth;
         p ← fimgAllocMemory pf (size_t (uint32 (Plane.stride d * Plane.height d * 4)));
         modify (fun s => set_depth (set_plane_data p (depth s)) s);;
         if p =? 0 then setError EGL_BAD_ALLOC;; mret (Some EGL_FALSE)
         else mret None
       else mret None)
      (incRef b;;
       emit (EvLockBuffer (Some b));;
       old ← gets bits;
       r ← lock b (Z.lor (GRALLOC_USAGE_SW_READ_OFTEN pf)
                         (GRALLOC_USAGE_SW_WRITE_OFTEN pf)) old;
       modify (set_bits r.2);;
       if negb (r.1 =? FGL_NO_ERROR) then
         setError EGL_BAD_ACCESS;; mret EGL_FALSE
       else mret EGL_TRUE).

(** [void FGLWindowSurface::disconnect()] *)
Definition disconnect : Meth unit :=
  b ← gets buffer; v ← gets bits;
  (if bool_decide (is_Some b) && negb (v =? NULL) then
     modify (set_bits NULL);; unlock b;; mret tt
   else mret tt);;
  emit (EvQueueBuffer b);;
  (match b with
   | Some b' => decRef b';; modify (set_buffer None)
   | None => mret tt
   end);;
  p ← gets previousBuffer;
  match p with
  | Some p' => decRef p';; modify (set_previousBuffer None)
  | None => mret tt
  end.

(** The block of [swapBuffers] guarded by [if (!dirtyRegion.isEmpty())].
    [prevBits] has no initialiser; [lock] is handed [NULL] for it. *)
Definition copy_back (b : Buf.t) : Meth unit :=
  dr ← gets dirtyRegion;
  if negb (Rect_isEmpty dr) then
    modify (fun s => set_dirtyRegion
                       (andSelf (dirtyRegion s) (Rect_wh (Buf.width b) (Buf.height b))) s);;
    prev ← gets previousBuffer;
    (match prev with
     | Some p =>
         old ← gets oldDirtyRegion; dr ← gets dirtyRegion;
         match subtract old dr with
         | None => crash
         | Some copyBack =>
             if negb (Region_isEmpty copyBack) then
               r ← lock p (GRALLOC_USAGE_SW_READ_OFTEN pf) NULL;
               if r.1 =? FGL_NO_ERROR then
                 v ← gets bits;
                 call_copyBlt b v p r.2 copyBack;;
                 unlock (Some p);; mret tt
               else mret tt
             else mret tt
         end
     | None => mret tt
     end);;
    modify (fun s => set_oldDirtyRegion (dirtyRegion s) s)
  else mret tt.

(** The block of [swapBuffers] under "reallocate the depth-buffer if
    needed", for the freshly dequeued buffer [nb]. *)
Definition reallocate_depth (nb : Buf.t) : Meth (option EGLBoolean) :=
  w ← gets width; h ← gets height;
  if negb (w =? Buf.width nb) || negb (h =? Buf.height nb) then
    modify (set_width (Buf.width nb));;
    modify (set_height (Buf.height nb));;
    d ← gets depth;
    if negb (Plane.data d =? 0) then
      fimgFreeMemory (Plane.data d);;
      w ← gets width; modify (fun s => set_depth (set_plane_width (uint32 w) (depth s)) s);;
      h ← gets height; modify (fun s => set_depth (set_plane_height (uint32 h) (depth s)) s);;
      modify (fun s => set_depth (set_plane_stride (uint32 (Buf.stride nb)) (depth s)) s);;
      d ← gets depth;
      p ← fimgAllocMemory pf (size_t (uint32 (Plane.stride d * Plane.height d * 4)));
      modify (fun s => set_depth (set_plane_data p (depth s)) s);;
      if p =? 0 then setError EGL_BAD_ALLOC;; mret (Some EGL_FALSE)
      else mret None
    else mret None
  else mret None.

(** The rest of [swapBuffers]: the buffer [b] is handed over and a new
    one is taken. *)
Definition flip (b : Buf.t) : Meth EGLBoolean :=
  prev ← gets previousBuffer;
  (match prev with
   | Some p => decRef p;; modify (set_previousBuffer None)
   | None => mret tt
   end);;
  unlock (Some b);;
  modify (set_previousBuffer (Some b));;
  emit (EvQueueBuffer (Some b));;
  modify (set_buffer None);;
  dequeueBuffer;;
  nb ← gets buffer;
  emit (EvLockBuffer nb);;
  nb ← deref nb;
  orelse (reallocate_depth nb)
    (incRef nb;;
     old ← gets bits;
     r ← lock nb (Z.lor (GRALLOC_USAGE_SW_READ_OFTEN pf)
                        (GRALLOC_USAGE_SW_WRITE_OFTEN pf)) old;
     modify (set_bits r.2);;
     if negb (r.1 =? FGL_NO_ERROR) then
       setError EGL_BAD_ACCESS;; mret EGL_FALSE
     else mret EGL_TRUE).

(** [EGLBoolean FGLWindowSurface::swapBuffers()] *)
Definition swapBuffers : Meth EGLBoolean :=
  cur ← gets buffer;
  match cur with
  | None => setError EGL_BAD_ACCESS;; mret EGL_FALSE
  | Some b => copy_back b;; flip b
  end.

(** [EGLBoolean FGLWindowSurface::setSwapRectangle(l, t, w, h)] *)
Definition setSwapRectangle (l t w h : Z) : Meth EGLBoolean :=
  modify (set_dirtyRegion (mkRect l t (int32 (l + w)) (int32 (t + h))));;
  mret EGL_TRUE.

End WindowSurface.

(* ---------------------------------------------------------------- *)
(** *** Reading a history *)

Definition tick (b b' : Buf.t) : Z := if decide (b' = b) then 1 else 0.

(** Calls of [incRef] and of [decRef] on [b]. *)
Fixpoint acquired (b : Buf.t) (h : History) : Z :=
  match h with
  | [] => 0
  | EvIncRef b' :: h' => acquired b h' + tick b b'
  | _ :: h' => acquired b h'
  end.

Fixpoint released (b : Buf.t) (h : History) : Z :=
  match h with
  | [] => 0
  | EvDecRef b' :: h' => released b h' + tick b b'
  | _ :: h' => released b h'
  end.

(** References on [b] taken and not yet given back. *)
Definition outstanding (b : Buf.t) (h : History) : Z :=
  acquired b h - released b h.

(** How many times [b] is pinned: successful [lock]s minus [unlock]s. *)
Fixpoint pinned (b : Buf.t) (h : History) : Z :=
  match h with
  | [] => 0
  | EvLock b' _ err _ :: h' =>
      pinned b h' + (if err =? FGL_NO_ERROR then tick b b' else 0)
  | EvUnlock b' _ :: h' => pinned b h' - tick b b'
  | _ :: h' => pinned b h'
  end.

(** Every [decRef] gives back a reference that was held. *)
Fixpoint release_ok (h : History) : Prop :=
  match h with
  | [] => True
  | EvDecRef b :: h' => 1 <= outstanding b h' /\ release_ok h'
  | _ :: h' => release_ok h'
  end.

(** Every buffer handed to [queueBuffer] was unpinned at that moment. *)
Fixpoint queue_ok (h : History) : Prop :=
  match h with
  | [] => True
  | EvQueueBuffer (Some b) :: h' => pinned b h' = 0 /\ queue_ok h'
  | _ :: h' => queue_ok h'
  end.

(** The calls of [copyBlt], newest first. *)
Fixpoint copyBlts (h : History) : list (Buf.t * Z * Buf.t * Z * Region) :=
  match h with
  | [] => []
  | EvCopyBlt dst dv src sv clip :: h' => (dst, dv, src, sv, clip) :: copyBlts h'
  | _ :: h' => copyBlts h'
  end.

(** The calls of the allocator, newest first. *)
Fixpoint heap_calls (h : History) : History :=
  match h with
  | [] => []
  | EvAlloc size p :: h' => EvAlloc size p :: heap_calls h'
  | EvFree p :: h' => EvFree p :: heap_calls h'
  | _ :: h' => heap_calls h'
  end.

(** How many of the two buffer pointers of the surface point to [b]. *)
Definition points_to (p : option Buf.t) (b : Buf.t) : Z :=
  match p with
  | Some b' => tick b b'
  | None => 0
  end.

Definition held (s : FGLWindowSurface) (b : Buf.t) : Z :=
  points_to (buffer s) b + points_to (previousBuffer s) b.

(** A surface between a successful [connect] and [disconnect], as the
    history [h] shows it: the references outstanding are those of
    [buffer] and [previousBuffer], the current buffer is the one pinned,
    and it is mapped. *)
Definition Connected (s : FGLWindowSurface) (h : History) : Prop :=
  (forall b, outstanding b h = held s b) /\
  (forall b, pinned b h = points_to (buffer s) b) /\
  release_ok h /\ queue_ok h /\
  is_Some (buffer s) /\ bits s <> NULL.

(** A surface holding no buffer, before [connect] or after [disconnect]. *)
Definition Disconnected (s : FGLWindowSurface) (h : History) : Prop :=
  (forall b, outstanding b h = 0) /\
  (forall b, pinned b h = 0) /\
  release_ok h /\ queue_ok h /\
  buffer s = None /\ previousBuffer s = None.

(** [h1] extends [h] by calls that leave references, pins, the heap and
    the error slot as they were. *)
Definition quiet (h1 h : History) : Prop :=
  (forall b, acquired b h1 = acquired b h) /\
  (forall b, released b h1 = released b h) /\
  (forall b, pinned b h1 = pinned b h) /\
  (release_ok h -> release_ok h1) /\
  (queue_ok h -> queue_ok h1) /\
  heap_calls h1 = heap_calls h /\
  last_error h1 = last_error h.

(** A platform whose successful pins yield an address: [module->lock]
    leaves a non-null address when it reports no error, and software
    handles of dequeued buffers are mapped. *)
Definition pins_are_mapped (pf : Platform) : Prop :=
  (forall h b usage old,
      (module_lock pf h b usage old).1 = FGL_NO_ERROR ->
      (module_lock pf h b usage old).2 <> NULL) /\
  (forall h old b base,
      (dequeueBuffer_answer pf h old).2 = Some b ->
      Buf.handle b = sw_gralloc_handle base -> base <> NULL).

(** A platform on which nothing fails: the window always has a buffer to
    hand out, [module->lock] and the allocator always succeed. *)
Definition cooperative (pf : Platform) : Prop :=
  (forall h old, exists b, dequeueBuffer_answer pf h old = (FGL_NO_ERROR, Some b)) /\
  (forall h b usage old, (module_lock pf h b usage old).1 = FGL_NO_ERROR) /\
  (forall h size, fimgAllocMemory_answer pf h size <> NULL).

Section Sessions.

Context (pf : Platform).

(** [n] calls of [swapBuffers] in a row, each returning [EGL_TRUE]. *)
Fixpoint present (n : nat) (s : FGLWindowSurface) (h : History)
    : option (FGLWindowSurface * History) :=
  match n with
  | O => Some (s, h)
  | S k =>
      match swapBuffers pf s h with
      | (Returns EGL_TRUE, s', h') => present k s' h'
      | _ => None
      end
  end.

(** [connect()] returning [EGL_TRUE], then [n] successful
    [swapBuffers()], on a fresh history. *)
Definition connected (n : nat) (s : FGLWindowSurface)
    : option (FGLWindowSurface * History) :=
  match connect pf s [] with
  | (Returns EGL_TRUE, s', h') => present n s' h'
  | _ => None
  end.

(** The whole life of a surface: [connected n], then [disconnect()]. *)
Definition session (n : nat) (s : FGLWindowSurface)
    : option (FGLWindowSurface * History) :=
  match connected n s with
  | Some (s', h') =>
      match disconnect pf s' h' with
      | (Returns _, s'', h'') => Some (s'', h'')
      | _ => None
      end
  | None => None
  end.

End Sessions.

(* ---------------------------------------------------------------- *)
(** *** Concrete platforms, to run the model on *)

(** A software-rendered frame of [w] x [h] pixels, the [i]-th of the
    window. *)
Definition frame (i w h : Z) : Buf.t :=
  Buf.mk (0x1000 * (i + 1)) w h w 1 (sw_gralloc_handle (0x100000 * (i + 1))).

(** A platform with the header values of the Android tree of the time,
    a window that hands out what [dq] says and an allocator [alloc]. *)
Definition android (dq : History -> Z * option Buf.t) (alloc : History -> Z -> Z)
    : Platform :=
  {| dequeueBuffer_answer := fun h _ => dq h;
     module_lock := fun _ _ _ _ => (0, 0x200000);
     module_unlock := fun _ _ => 0;
     fimgAllocMemory_answer := alloc;
     getBpp := fun _ => 4;
     GRALLOC_USAGE_SW_READ_RARELY := 0x2;
     GRALLOC_USAGE_SW_READ_OFTEN := 0x3;
     GRALLOC_USAGE_SW_WRITE_NEVER := 0x0;
     GRALLOC_USAGE_SW_WRITE_OFTEN := 0x30;
     GRALLOC_USAGE_HW_RENDER := 0x200;
     FGL_PIXEL_FORMAT_A_8 := 8;
     FGL_PIXEL_FORMAT_RGB_565 := 4;
     FGL_PIXEL_FORMAT_RGBA_8888 := 1;
     FGL_PIXEL_FORMAT_RGBX_8888 := 2;
     sizeof_FGLPlane := 24 |}.

(** A window with two 100 x 100 frames handed out in turn, and an
    allocator that always finds memory. *)
Definition double_buffered : Platform :=
  android (fun h => (0, Some (frame (if Nat.even (length h) then 0 else 1) 100 100)))
          (fun h _ => 0x5000 + Z.of_nat (length h)).

(** A window that has been resized to 200 x 100, with the allocator this
    repository ships. *)
Definition resized : Platform :=
  android (fun h => (0, Some (frame 1 200 100))) placeholder_alloc.

(** The platform [resized] with the [getBpp] this repository ships. *)
Definition shipped : Platform :=
  {| dequeueBuffer_answer := dequeueBuffer_answer resized;
     module_lock := module_lock resized;
     module_unlock := module_unlock resized;
     fimgAllocMemory_answer := placeholder_alloc;
     getBpp := placeholder_getBpp;
     GRALLOC_USAGE_SW_READ_RARELY := GRALLOC_USAGE_SW_READ_RARELY resized;
     GRALLOC_USAGE_SW_READ_OFTEN := GRALLOC_USAGE_SW_READ_OFTEN resized;
     GRALLOC_USAGE_SW_WRITE_NEVER := GRALLOC_USAGE_SW_WRITE_NEVER resized;
     GRALLOC_USAGE_SW_WRITE_OFTEN := GRALLOC_USAGE_SW_WRITE_OFTEN resized;
     GRALLOC_USAGE_HW_RENDER := GRALLOC_USAGE_HW_RENDER resized;
     FGL_PIXEL_FORMAT_A_8 := FGL_PIXEL_FORMAT_A_8 resized;
     FGL_PIXEL_FORMAT_RGB_565 := FGL_PIXEL_FORMAT_RGB_565 resized;
     FGL_PIXEL_FORMAT_RGBA_8888 := FGL_PIXEL_FORMAT_RGBA_8888 resized;
     FGL_PIXEL_FORMAT_RGBX_8888 := FGL_PIXEL_FORMAT_RGBX_8888 resized;
     sizeof_FGLPlane := sizeof_FGLPlane resized |}.

(** A buffer of a gralloc module, which [lock] maps through
    [module->lock]. *)
Definition gralloc_frame : Buf.t := Buf.mk 0x1000 100 100 100 1 (gralloc_handle 7).

(** A platform with the allocator and [getBpp] of this repository, a
    window that hands out [gralloc_frame], and a gralloc module that
    refuses the first [lock] it is asked for and grants the later
    ones. *)
Definition lock_refused_once : Platform :=
  {| dequeueBuffer_answer := fun _ _ => (0, Some gralloc_frame);
     module_lock := fun h _ _ old =>
       if existsb (fun e => if e is EvLock _ _ _ _ then true else false) h
       then (0, 0x200000) else (-22, old);
     module_unlock := fun _ _ => 0;
     fimgAllocMemory_answer := placeholder_alloc;
     getBpp := placeholder_getBpp;
     GRALLOC_USAGE_SW_READ_RARELY := 0x2;
     GRALLOC_USAGE_SW_READ_OFTEN := 0x3;
     GRALLOC_USAGE_SW_WRITE_NEVER := 0x0;
     GRALLOC_USAGE_SW_WRITE_OFTEN := 0x30;
     GRALLOC_USAGE_HW_RENDER := 0x200;
     FGL_PIXEL_FORMAT_A_8 := 8;
     FGL_PIXEL_FORMAT_RGB_565 := 4;
     FGL_PIXEL_FORMAT_RGBA_8888 := 1;
     FGL_PIXEL_FORMAT_RGBX_8888 := 2;
     sizeof_FGLPlane := 24 |}.

(** A surface in the middle of its life: [frame 0] is current and mapped,
    [frame 1] was presented before, the last frame redrew everything and
    the left half is announced for this one. *)
Definition mid_frame : FGLWindowSurface :=
  {| magic := MAGIC; dpy := 1; config := 0; ctx := 0;
     depth := Plane.mk 24 100 100 100 0x5000 1;
     nativeWindow := 0x800; buffer := Some (frame 0 100 100);
     previousBuffer := Some (frame 1 100 100); module := 0x900;
     blitengine := 0; width := 100; height := 100; bits := 0x100000;
     dirtyRegion := mkRect 0 0 50 100;
     oldDirtyRegion := mkRect 0 0 100 100 |}.

(** A surface as the constructor leaves it, built in zeroed storage for a
    100 x 100 window without depth buffer. *)
Definition fresh : FGLWindowSurface :=
  FGLWindowSurface_new double_buffered
    (mkWindowSurface 0 0 0 0 (Plane.mk 0 0 0 0 0 0) 0 None None 0 0 0 0 0
       (mkRect 0 0 0 0) (mkRect 0 0 0 0))
    1 0 0 0x800 0x900 0 100 100.

(* ================================================================== *)
(** ** [struct FGLPbufferSurface : public FGLSurface] *)

Module Pbuffer.

Record t : Type := mk {
  magic : Z;
  dpy : Z;
  config : Z;
  ctx : Z;
  depth : Plane.t;
  pbuffer : Plane.t
}.

Definition set_depth (v : Plane.t) (s : t) : t :=
  mk (magic s) (dpy s) (config s) (ctx s) v (pbuffer s).
Definition set_pbuffer (v : Plane.t) (s : t) : t :=
  mk (magic s) (dpy s) (config s) (ctx s) (depth s) v.

Definition set_version (v : Z) (p : Plane.t) : Plane.t :=
  Plane.mk v (Plane.width p) (Plane.height p) (Plane.stride p) (Plane.data p) (Plane.format p).
Definition set_format (v : Z) (p : Plane.t) : Plane.t :=
  Plane.mk (Plane.version p) (Plane.width p) (Plane.height p) (Plane.stride p) (Plane.data p) v.

Section Methods.

Context (pf : Platform).

(** [FGLSurface::FGLSurface(dpy, config, depthFormat)] run on the storage
    [raw]. *)
Definition FGLSurface_new (dpy_ config_ depthFormat : Z) : M t unit :=
  modify (fun raw =>
    {| magic := MAGIC; dpy := dpy_; config := config_; ctx := 0;
       depth := Plane.mk (sizeof_FGLPlane pf) (Plane.width (depth raw))
                  (Plane.height (depth raw)) (Plane.stride (depth raw)) 0 depthFormat;
       pbuffer := pbuffer raw |}).

(** [FGLPbufferSurface::FGLPbufferSurface(dpy, config, depthFormat, w, h, f)] *)
Definition FGLPbufferSurface_new (dpy_ config_ depthFormat w h f : Z) : M t unit :=
  FGLSurface_new dpy_ config_ depthFormat;;
  let size := size_t (int32 (w * h)) in
  size ← (if f =? FGL_PIXEL_FORMAT_A_8 pf then mret (size_t (size * 1))
          else if f =? FGL_PIXEL_FORMAT_RGB_565 pf then mret (size_t (size * 2))
          else if f =? FGL_PIXEL_FORMAT_RGBA_8888 pf then mret (size_t (size * 4))
          else if f =? FGL_PIXEL_FORMAT_RGBX_8888 pf then mret (size_t (size * 4))
          else
            (* LOGE("incompatible pixel format for pbuffer (format=%d)", f); *)
            modify (fun s => set_pbuffer (set_plane_data 0 (pbuffer s)) s);;
            mret size);
  modify (fun s => set_pbuffer (set_version (sizeof_FGLPlane pf) (pbuffer s)) s);;
  modify (fun s => set_pbuffer (set_plane_width (uint32 w) (pbuffer s)) s);;
  modify (fun s => set_pbuffer (set_plane_height (uint32 h) (pbuffer s)) s);;
  modify (fun s => set_pbuffer (set_plane_stride (uint32 w) (pbuffer s)) s);;
  p ← fimgAllocMemory pf size;
  modify (fun s => set_pbuffer (set_plane_data p (pbuffer s)) s);;
  modify (fun s => set_pbuffer (set_format f (pbuffer s)) s);;
  if negb (depthFormat =? 0) then
    modify (fun s => set_depth (set_plane_width (Plane.width (pbuffer s)) (depth s)) s);;
    modify (fun s => set_depth (set_plane_height (Plane.height (pbuffer s)) (depth s)) s);;
    modify (fun s => set_depth (set_plane_stride (Plane.width (depth s)) (depth s)) s);;
    d ← gets depth;
    p ← fimgAllocMemory pf (size_t (uint32 (Plane.stride d * Plane.height d * 4)));
    modify (fun s => set_depth (set_plane_data p (depth s)) s);;
    if p =? 0 then setError EGL_BAD_ALLOC else mret tt
  else mret tt.

(** [virtual bool initCheck() const { return pbuffer.data != 0; }] *)
Definition initCheck (this : t) : bool := negb (Plane.data (pbuffer this) =? 0).

(** The formats the constructor has a case for. *)
Definition recognized (f : Z) : bool :=
  (f =? FGL_PIXEL_FORMAT_A_8 pf) || (f =? FGL_PIXEL_FORMAT_RGB_565 pf) ||
  (f =? FGL_PIXEL_FORMAT_RGBA_8888 pf) || (f =? FGL_PIXEL_FORMAT_RGBX_8888 pf).

End Methods.

End Pbuffer.

(* ================================================================== *)
(** ** [FGLWindowSurface::copyBlt] on pixel memory *)

(** The bytes of one mapping, by offset from its first byte
    ([src_vaddr] or [dst_vaddr]). *)
Definition Memory : Type := Z -> byte.

(** The destination mapping while [copyBlt] runs, with the [memcpy]
    calls made, newest first, as (destination offset, source offset,
    length). *)
Record Copy : Type := mkCopy {
  pixels : Memory;
  accesses : list (Z * Z * Z)
}.

(** [memcpy(d, s, size)], from the source mapping into the destination. *)
Definition memcpy (src : Memory) (c : Copy) (d s size : Z) : Copy :=
  {| pixels := fun a => if (d <=? a) && (a <? d + size)
                        then src (s + (a - d)) else pixels c a;
     accesses := (d, s, size) :: accesses c |}.

(** [do { memcpy(d, s, size); d += dbpr; s += sbpr; } while (--h > 0);]
    [None] when [fuel] iterations were not enough. *)
Fixpoint copy_rows (fuel : nat) (src : Memory) (c : Copy)
    (d s size dbpr sbpr h : Z) : option Copy :=
  match fuel with
  | O => None
  | S fuel' =>
      let c' := memcpy src c d s size in
      let h' := h - 1 in
      if h' >? 0 then copy_rows fuel' src c' (d + dbpr) (s + sbpr) size dbpr sbpr h'
      else Some c'
  end.

Section CopyBlt.

Context (pf : Platform).

(** The body of the [while (cur != end)] loop for the rectangle [r]. *)
Definition copy_rect (dst src : Buf.t) (mem : Memory)
    (c : Copy) (r : Rect) : option Copy :=
  let bpp := size_t (getBpp pf (Buf.format src)) in
  let dbpr := size_t (Buf.stride dst * bpp) in
  let sbpr := size_t (Buf.stride src * bpp) in
  let w := int32 (right r - left r) in
  let h := int32 (bottom r - top r) in
  if (w <=? 0) || (h <=? 0) then Some c
  else
    let size := size_t (w * bpp) in
    let s := size_t (int32 (left r + int32 (Buf.stride src * top r)) * bpp) in
    let d := size_t (int32 (left r + int32 (Buf.stride dst * top r)) * bpp) in
    let '(size, h) := if (dbpr =? sbpr) && (size =? sbpr)
                      then (size_t (size * h), 1) else (size, h) in
    copy_rows (Z.to_nat h) mem c d s size dbpr sbpr h.

(** The manual copy: the block under [if (!copybit || err)]. *)
Definition manual_copy (dst src : Buf.t) (mem : Memory) (c : Copy)
    (clip : Region) : option Copy :=
  rs ← Region_rects clip;
  foldl (fun oc r => c' ← oc; copy_rect dst src mem c' r) (Some c) rs.

(** [void copyBlt(dst, dst_vaddr, src, src_vaddr, clip)].  [copybit] is the
    blit engine ([None] for a null [blitengine]): given the two images and
    the rectangles it is fed through [region_iterator], it answers with
    an error code and the destination pixels it leaves. *)
Definition copyBlt
    (copybit : option (Buf.t -> Buf.t -> list Rect -> Memory -> Memory -> Z * Memory))
    (dst : Buf.t) (dst_mem : Memory) (src : Buf.t) (src_mem : Memory)
    (clip : Region) : option Copy :=
  let c := {| pixels := dst_mem; accesses := [] |} in
  match copybit with
  | Some blit =>
      rs ← region_iterator clip;
      let '(err, dst_mem') := blit dst src rs dst_mem src_mem in
      let c' := {| pixels := dst_mem'; accesses := [] |} in
      if negb (err =? FGL_NO_ERROR) then manual_copy dst src src_mem c' clip
      else Some c'
  | None => manual_copy dst src src_mem c clip
  end.

End CopyBlt.

(** Offsets touched by the recorded [memcpy] calls. *)
Definition written (c : Copy) (a : Z) : Prop :=
  exists d s n, In (d, s, n) (accesses c) /\ d <= a < d + n.

Definition read_from (c : Copy) (a : Z) : Prop :=
  exists d s n, In (d, s, n) (accesses c) /\ s <= a < s + n.

(** [a] is the offset of one of the [bpp] bytes of a pixel of [r] in an
    image whose rows are [stride] pixels apart. *)
Definition rect_byte (stride bpp : Z) (r : Rect) (a : Z) : Prop :=
  exists x y k,
    left r <= x < right r /\ top r <= y < bottom r /\ 0 <= k < bpp /\
    a = (x + stride * y) * bpp + k.

(** [r] lies inside the image of [b], whose bytes at [bpp] bytes per pixel
    can be addressed by [size_t] and whose pixels by [int]. *)
Definition fits (bpp : Z) (b : Buf.t) (r : Rect) : Prop :=
  0 <= left r <= right r /\ right r <= Buf.stride b /\
  0 <= top r <= bottom r /\ bottom r <= Buf.height b /\
  0 <= bpp /\ Buf.stride b * Buf.height b * bpp < 2 ^ 32 /\
  Buf.stride b * Buf.height b < 2 ^ 31.

(** One row copied: the destination bytes from offset [d], [width_bytes]
    of them, take the source bytes from offset [s]. *)
Definition copy_row (src_mem dst_mem : Memory) (d s width_bytes : Z) : Memory :=
  fun a => if decide (d <= a < d + width_bytes) then src_mem (s + (a - d))
           else dst_mem a.

(** The row [y] of the pixels from [l] to [r] copied between two images
    whose rows are [dstride] and [sstride] pixels apart, at [bpp] bytes
    per pixel. *)
Definition copy_pixel_row (src_mem : Memory) (dstride sstride bpp l r : Z)
    (dst_mem : Memory) (y : Z) : Memory :=
  copy_row src_mem dst_mem ((l + dstride * y) * bpp) ((l + sstride * y) * bpp)
    ((r - l) * bpp).

(** The rectangle copied row by row, as the design has the fallback: for
    every row of [r], from the top, the bytes of its pixels go from the
    source image to the destination image. *)
Definition row_by_row (bpp : Z) (dst src : Buf.t) (src_mem dst_mem : Memory)
    (r : Rect) : Memory :=
  foldl (copy_pixel_row src_mem (Buf.stride dst) (Buf.stride src) bpp (left r) (right r))
        dst_mem (seqZ (top r) (bottom r - top r)).

(** [a] is the offset of a byte of the pixels from [l] to [r] of the row
    [y], in an image whose rows are [stride] pixels apart. *)
Definition in_pixel_row (stride bpp l r y a : Z) : Prop :=
  (l + stride * y) * bpp <= a < (l + stride * y) * bpp + (r - l) * bpp.

(** An all-zero mapping, and a copy that has not started on it. *)
Definition zeroed : Memory := fun _ => x00%byte.
Definition blank : Copy := {| pixels := zeroed; accesses := [] |}.

(** A mapping whose bytes differ from those of [zeroed] and from their
    neighbours. *)
Definition striped : Memory :=
  fun a => if Z.even a then "001"%byte else "002"%byte.

(* ================================================================== *)
(** ** The rest of the window surface *)

Definition set_magic (v : Z) (s : FGLWindowSurface) : FGLWindowSurface :=
  mkWindowSurface v (dpy s) (config s) (ctx s) (depth s) (nativeWindow s)
    (buffer s) (previousBuffer s) (module s) (blitengine s) (width s)
    (height s) (bits s) (dirtyRegion s) (oldDirtyRegion s).

(** A call of [fglSetColorBuffer], [fglSetDepthBuffer] or
    [fglSetReadBuffer] with the plane it is handed. *)
Inductive BufferBinding : Type :=
  | SetColorBuffer (p : Plane.t)
  | SetDepthBuffer (p : Plane.t)
  | SetReadBuffer (p : Plane.t).

Section WindowSurfaceRest.

Context (pf : Platform).

(** [FGLWindowSurface::~FGLWindowSurface()] followed by
    [FGLSurface::~FGLSurface()].  As in the constructor, the reference on
    the window and the blit engine are not buffers and are not
    recorded. *)
Definition FGLWindowSurface_delete : M FGLWindowSurface unit :=
  b ← gets buffer;
  (match b with
   | Some b' => decRef b'
   | None => mret tt
   end);;
  p ← gets previousBuffer;
  (match p with
   | Some p' => decRef p'
   | None => mret tt
   end);;
  modify (set_magic 0);;
  d ← gets depth;
  fimgFreeMemory (Plane.data d).

(** [bool FGLSurface::isValid() const] *)
Definition isValid (this : FGLWindowSurface) : bool := magic this =? MAGIC.

(** The local [FGLPlane buffer] both bind methods fill in from
    [this->buffer] and [bits]. *)
Definition color_plane (this : FGLWindowSurface) (b : Buf.t) : Plane.t :=
  Plane.mk (sizeof_FGLPlane pf) (uint32 (Buf.width b)) (uint32 (Buf.height b))
    (uint32 (Buf.stride b)) (bits this) (Buf.format b).

(** [EGLBoolean FGLWindowSurface::bindDrawSurface(FGLContext* gl)]: the
    result and the calls made on [gl], in order; [Crashes] when
    [this->buffer] is null. *)
Definition bindDrawSurface (this : FGLWindowSurface)
    : Outcome (EGLBoolean * list BufferBinding) :=
  match buffer this with
  | None => Crashes
  | Some b =>
      Returns (EGL_TRUE,
               [SetColorBuffer (color_plane this b); SetDepthBuffer (depth this)])
  end.

(** [EGLBoolean FGLWindowSurface::bindReadSurface(FGLContext* gl)] *)
Definition bindReadSurface (this : FGLWindowSurface)
    : Outcome (EGLBoolean * list BufferBinding) :=
  match buffer this with
  | None => Crashes
  | Some b => Returns (EGL_TRUE, [SetReadBuffer (color_plane this b)])
  end.

(** [setSwapRectangle(l, t, w, h)] followed by [swapBuffers()]. *)
Definition update (l t w h : Z) : M FGLWindowSurface EGLBoolean :=
  setSwapRectangle l t w h;; swapBuffers pf.

(** The whole life of a surface, destruction included. *)
Definition life (n : nat) (s : FGLWindowSurface)
    : option (FGLWindowSurface * History) :=
  match session pf n s with
  | Some (s', h') =>
      match FGLWindowSurface_delete s' h' with
      | (Returns _, s'', h'') => Some (s'', h'')
      | _ => None
      end
  | None => None
  end.

End WindowSurfaceRest.

(** The buffers handed to [queueBuffer], newest first. *)
Fixpoint queued (h : History) : list (option Buf.t) :=
  match h with
  | [] => []
  | EvQueueBuffer b :: h' => b :: queued h'
  | _ :: h' => queued h'
  end.

(** The block the allocator has handed out and not taken back, [NULL]
    when there is none; [None] once a block is requested while another is
    still out, or something other than the block that is out is freed. *)
Fixpoint live_block (h : History) : option Z :=
  match h with
  | [] => Some NULL
  | EvAlloc _ p :: h' =>
      live ← live_block h';
      if live =? NULL then Some p else None
  | EvFree p :: h' =>
      live ← live_block h';
      if p =? live then Some NULL else None
  | _ :: h' => live_block h'
  end.

(** [mid_frame] with nothing announced for this frame. *)
Definition idle_frame : FGLWindowSurface :=
  set_dirtyRegion (mkRect 0 0 0 0) mid_frame.

(** A freshly constructed surface that wants a depth buffer. *)
Definition fresh_with_depth : FGLWindowSurface :=
  FGLWindowSurface_new double_buffered
    (mkWindowSurface 0 0 0 0 (Plane.mk 0 0 0 0 0 0) 0 None None 0 0 0 0 0
       (mkRect 0 0 0 0) (mkRect 0 0 0 0))
    1 0 1 0x800 0x900 0 100 100.

(** The recorded size is that of the current buffer, and a depth plane is
    there exactly when one was asked for, with that size. *)
Definition sized (format0 : Z) (s : FGLWindowSurface) : Prop :=
  exists b, buffer s = Some b /\
    width s = Buf.width b /\ height s = Buf.height b /\
    Plane.format (depth s) = format0 /\
    (Plane.data (depth s) <> NULL <-> format0 <> 0) /\
    (Plane.data (depth s) <> NULL ->
     Plane.width (depth s) = uint32 (width s) /\
     Plane.height (depth s) = uint32 (height s)).

(* ================================================================== *)
(** ** Configurations *)

Module Config.

(** The names and values of [EGL/egl.h] that the tables use. *)
Record Header : Type := mkHeader {
  EGL_DONT_CARE : Z;
  EGL_NONE : Z;
  EGL_BUFFER_SIZE : Z;
  EGL_ALPHA_SIZE : Z;
  EGL_BLUE_SIZE : Z;
  EGL_GREEN_SIZE : Z;
  EGL_RED_SIZE : Z;
  EGL_DEPTH_SIZE : Z;
  EGL_STENCIL_SIZE : Z;
  EGL_CONFIG_CAVEAT : Z;
  EGL_CONFIG_ID : Z;
  EGL_LEVEL : Z;
  EGL_MAX_PBUFFER_HEIGHT : Z;
  EGL_MAX_PBUFFER_PIXELS : Z;
  EGL_MAX_PBUFFER_WIDTH : Z;
  EGL_NATIVE_RENDERABLE : Z;
  EGL_NATIVE_VISUAL_ID : Z;
  EGL_NATIVE_VISUAL_TYPE : Z;
  EGL_SAMPLES : Z;
  EGL_SAMPLE_BUFFERS : Z;
  EGL_SURFACE_TYPE : Z;
  EGL_TRANSPARENT_TYPE : Z;
  EGL_TRANSPARENT_BLUE_VALUE : Z;
  EGL_TRANSPARENT_GREEN_VALUE : Z;
  EGL_TRANSPARENT_RED_VALUE : Z;
  EGL_BIND_TO_TEXTURE_RGB : Z;
  EGL_BIND_TO_TEXTURE_RGBA : Z;
  EGL_MIN_SWAP_INTERVAL : Z;
  EGL_MAX_SWAP_INTERVAL : Z;
  EGL_LUMINANCE_SIZE : Z;
  EGL_ALPHA_MASK_SIZE : Z;
  EGL_COLOR_BUFFER_TYPE : Z;
  EGL_RENDERABLE_TYPE : Z;
  EGL_CONFORMANT : Z;
  EGL_RGB_BUFFER : Z;
  EGL_OPENGL_ES_BIT : Z;
  EGL_WINDOW_BIT : Z;
  EGL_PBUFFER_BIT : Z;
  EGL_PIXMAP_BIT : Z
}.

(** The values the Khronos header gives them. *)
Definition khronos : Header :=
  {| EGL_DONT_CARE := -1;
     EGL_NONE := 0x3038;
     EGL_BUFFER_SIZE := 0x3020;
     EGL_ALPHA_SIZE := 0x3021;
     EGL_BLUE_SIZE := 0x3022;
     EGL_GREEN_SIZE := 0x3023;
     EGL_RED_SIZE := 0x3024;
     EGL_DEPTH_SIZE := 0x3025;
     EGL_STENCIL_SIZE := 0x3026;
     EGL_CONFIG_CAVEAT := 0x3027;
     EGL_CONFIG_ID := 0x3028;
     EGL_LEVEL := 0x3029;
     EGL_MAX_PBUFFER_HEIGHT := 0x302A;
     EGL_MAX_PBUFFER_PIXELS := 0x302B;
     EGL_MAX_PBUFFER_WIDTH := 0x302C;
     EGL_NATIVE_RENDERABLE := 0x302D;
     EGL_NATIVE_VISUAL_ID := 0x302E;
     EGL_NATIVE_VISUAL_TYPE := 0x302F;
     EGL_SAMPLES := 0x3031;
     EGL_SAMPLE_BUFFERS := 0x3032;
     EGL_SURFACE_TYPE := 0x3033;
     EGL_TRANSPARENT_TYPE := 0x3034;
     EGL_TRANSPARENT_BLUE_VALUE := 0x3035;
     EGL_TRANSPARENT_GREEN_VALUE := 0x3036;
     EGL_TRANSPARENT_RED_VALUE := 0x3037;
     EGL_BIND_TO_TEXTURE_RGB := 0x3039;
     EGL_BIND_TO_TEXTURE_RGBA := 0x303A;
     EGL_MIN_SWAP_INTERVAL := 0x303B;
     EGL_MAX_SWAP_INTERVAL := 0x303C;
     EGL_LUMINANCE_SIZE := 0x303D;
     EGL_ALPHA_MASK_SIZE := 0x303E;
     EGL_COLOR_BUFFER_TYPE := 0x303F;
     EGL_RENDERABLE_TYPE := 0x3040;
     EGL_CONFORMANT := 0x3042;
     EGL_RGB_BUFFER := 0x308E;
     EGL_OPENGL_ES_BIT := 0x0001;
     EGL_WINDOW_BIT := 0x0004;
     EGL_PBUFFER_BIT := 0x0001;
     EGL_PIXMAP_BIT := 0x0002 |}.

(** The errors these functions hand to [setError]. *)
Inductive Error : Type :=
  | EGL_BAD_DISPLAY
  | EGL_BAD_PARAMETER
  | EGL_BAD_CONFIG
  | EGL_BAD_ATTRIBUTE.

#[global] Instance Error_eq_dec : EqDecision Error.
Proof. solve_decision. Defined.

(** [EGL_FALSE] and [EGL_TRUE] where they stand for an [EGLint]. *)
Definition EGLint_of (b : EGLBoolean) : Z :=
  match b with EGL_FALSE => 0 | EGL_TRUE => 1 end.

(** What a run over arrays comes to: a result, a read outside the array,
    or no result within the steps granted. *)
Inductive Run (A : Type) : Type :=
  | Done (a : A)
  | Fault
  | Unfinished.
Arguments Done {A} a.
Arguments Fault {A}.
Arguments Unfinished {A}.

Definition Run_bind {A B} (m : Run A) (k : A -> Run B) : Run B :=
  match m with
  | Done a => k a
  | Fault => Fault
  | Unfinished => Unfinished
  end.

#[global] Instance Run_ret : MRet Run := @Done.
#[global] Instance Run_mbind : MBind Run := fun A B k m => Run_bind m k.

(** [array[i]] *)
Definition at_index {T} (array : list T) (i : Z) : Run T :=
  if i <? 0 then Fault
  else match array !! Z.to_nat i with
       | Some e => Done e
       | None => Fault
       end.

(** [NELEM(array)] *)
Definition NELEM {T} (array : list T) : Z := Z.of_nat (length array).

Module FGLConfigPair.
Record t : Type := mk {
  key : Z;
  value : Z
}.
End FGLConfigPair.

Module FGLConfigMatcher.
Record t : Type := mk {
  key : Z;
  match_ : Z -> Z -> bool
}.
End FGLConfigMatcher.

(** The loop of [binarySearch], at most [fuel] times round. *)
Fixpoint binarySearch_loop {T} (key_of : T -> Z) (fuel : nat)
    (sortedArray : list T) (first last key : Z) : Run Z :=
  match fuel with
  | O => Unfinished
  | S fuel' =>
      if first <=? last then
        let mid := Z.quot (int32 (first + last)) 2 in
        e ← at_index sortedArray mid;
        if key >? key_of e then
          binarySearch_loop key_of fuel' sortedArray (int32 (mid + 1)) last key
        else if key <? key_of e then
          binarySearch_loop key_of fuel' sortedArray first (int32 (mid - 1)) key
        else Done mid
      else Done (-1)
  end.

(** [template<typename T> static int binarySearch(T const sortedArray[],
    int first, int last, EGLint key)]; a turn of the loop for every
    index between [first] and [last], and one more to leave it. *)
Definition binarySearch {T} (key_of : T -> Z) (sortedArray : list T)
    (first last key : Z) : Run Z :=
  binarySearch_loop key_of (S (Z.to_nat (last - first + 1))) sortedArray first last key.

Section Tables.

Context (hd : Header).

(** [FGLConfigMatcher::atLeast], [exact] and [mask] *)
Definition atLeast (reqValue confValue : Z) : bool :=
  (reqValue =? EGL_DONT_CARE hd) || (confValue >=? reqValue).
Definition exact (reqValue confValue : Z) : bool :=
  (reqValue =? EGL_DONT_CARE hd) || (confValue =? reqValue).
Definition mask (reqValue confValue : Z) : bool :=
  Z.land confValue reqValue =? reqValue.

Definition FGL_MAX_VIEWPORT_DIMS : Z := 2048.
Definition FGL_MAX_VIEWPORT_PIXELS : Z := FGL_MAX_VIEWPORT_DIMS * FGL_MAX_VIEWPORT_DIMS.

Definition baseConfigAttributes : list FGLConfigPair.t :=
  [ FGLConfigPair.mk (EGL_CONFIG_CAVEAT hd) 0;
    FGLConfigPair.mk (EGL_LEVEL hd) 0;
    FGLConfigPair.mk (EGL_MAX_PBUFFER_HEIGHT hd) FGL_MAX_VIEWPORT_DIMS;
    FGLConfigPair.mk (EGL_MAX_PBUFFER_PIXELS hd) FGL_MAX_VIEWPORT_PIXELS;
    FGLConfigPair.mk (EGL_MAX_PBUFFER_WIDTH hd) FGL_MAX_VIEWPORT_DIMS;
    FGLConfigPair.mk (EGL_NATIVE_RENDERABLE hd) (EGLint_of EGL_FALSE);
    FGLConfigPair.mk (EGL_NATIVE_VISUAL_ID hd) 0;
    FGLConfigPair.mk (EGL_NATIVE_VISUAL_TYPE hd) 0;
    FGLConfigPair.mk (EGL_SAMPLES hd) 0;
    FGLConfigPair.mk (EGL_SAMPLE_BUFFERS hd) 0;
    FGLConfigPair.mk (EGL_TRANSPARENT_TYPE hd) (EGL_NONE hd);
    FGLConfigPair.mk (EGL_TRANSPARENT_BLUE_VALUE hd) 0;
    FGLConfigPair.mk (EGL_TRANSPARENT_GREEN_VALUE hd) 0;
    FGLConfigPair.mk (EGL_TRANSPARENT_RED_VALUE hd) 0;
    FGLConfigPair.mk (EGL_BIND_TO_TEXTURE_RGBA hd) (EGLint_of EGL_FALSE);
    FGLConfigPair.mk (EGL_BIND_TO_TEXTURE_RGB hd) (EGLint_of EGL_FALSE);
    FGLConfigPair.mk (EGL_MIN_SWAP_INTERVAL hd) 1;
    FGLConfigPair.mk (EGL_MAX_SWAP_INTERVAL hd) 1;
    FGLConfigPair.mk (EGL_LUMINANCE_SIZE hd) 0;
    FGLConfigPair.mk (EGL_ALPHA_MASK_SIZE hd) 0;
    FGLConfigPair.mk (EGL_COLOR_BUFFER_TYPE hd) (EGL_RGB_BUFFER hd);
    FGLConfigPair.mk (EGL_RENDERABLE_TYPE hd) (EGL_OPENGL_ES_BIT hd);
    FGLConfigPair.mk (EGL_CONFORMANT hd) 0 ].

(** The nine lines every [configAttributes<n>] has, with the five sizes,
    the depth, the id and the stencil size that differ. *)
Definition configAttributes (buffer_size alpha blue green red depth_size id stencil : Z)
    : list FGLConfigPair.t :=
  [ FGLConfigPair.mk (EGL_BUFFER_SIZE hd) buffer_size;
    FGLConfigPair.mk (EGL_ALPHA_SIZE hd) alpha;
    FGLConfigPair.mk (EGL_BLUE_SIZE hd) blue;
    FGLConfigPair.mk (EGL_GREEN_SIZE hd) green;
    FGLConfigPair.mk (EGL_RED_SIZE hd) red;
    FGLConfigPair.mk (EGL_DEPTH_SIZE hd) depth_size;
    FGLConfigPair.mk (EGL_CONFIG_ID hd) id;
    FGLConfigPair.mk (EGL_STENCIL_SIZE hd) stencil;
    FGLConfigPair.mk (EGL_SURFACE_TYPE hd)
      (Z.lor (Z.lor (EGL_WINDOW_BIT hd) (EGL_PBUFFER_BIT hd)) (EGL_PIXMAP_BIT hd)) ].

Definition configAttributes0 := configAttributes 16 0 5 6 5 0 0 0.
Definition configAttributes1 := configAttributes 16 0 5 6 5 24 1 8.
Definition configAttributes2 := configAttributes 32 0 8 8 8 0 6 0.
Definition configAttributes3 := configAttributes 32 0 8 8 8 24 7 8.
Definition configAttributes4 := configAttributes 32 8 8 8 8 0 2 0.
Definition configAttributes5 := configAttributes 32 8 8 8 8 24 3 8.
Definition configAttributes6 := configAttributes 8 8 0 0 0 0 4 0.
Definition configAttributes7 := configAttributes 8 8 0 0 0 24 5 8.

(** [gConfigs]; the [size] of an entry is the length of its array. *)
Definition gConfigs : list (list FGLConfigPair.t) :=
  [ configAttributes0; configAttributes1; configAttributes2; configAttributes3;
    configAttributes4; configAttributes5; configAttributes6; configAttributes7 ].

Definition gConfigManagement : list FGLConfigMatcher.t :=
  [ FGLConfigMatcher.mk (EGL_BUFFER_SIZE hd) atLeast;
    FGLConfigMatcher.mk (EGL_ALPHA_SIZE hd) atLeast;
    FGLConfigMatcher.mk (EGL_BLUE_SIZE hd) atLeast;
    FGLConfigMatcher.mk (EGL_GREEN_SIZE hd) atLeast;
    FGLConfigMatcher.mk (EGL_RED_SIZE hd) atLeast;
    FGLConfigMatcher.mk (EGL_DEPTH_SIZE hd) atLeast;
    FGLConfigMatcher.mk (EGL_STENCIL_SIZE hd) atLeast;
    FGLConfigMatcher.mk (EGL_CONFIG_CAVEAT hd) exact;
    FGLConfigMatcher.mk (EGL_CONFIG_ID hd) exact;
    FGLConfigMatcher.mk (EGL_LEVEL hd) exact;
    FGLConfigMatcher.mk (EGL_MAX_PBUFFER_HEIGHT hd) exact;
    FGLConfigMatcher.mk (EGL_MAX_PBUFFER_PIXELS hd) exact;
    FGLConfigMatcher.mk (EGL_MAX_PBUFFER_WIDTH hd) exact;
    FGLConfigMatcher.mk (EGL_NATIVE_RENDERABLE hd) exact;
    FGLConfigMatcher.mk (EGL_NATIVE_VISUAL_ID hd) exact;
    FGLConfigMatcher.mk (EGL_NATIVE_VISUAL_TYPE hd) exact;
    FGLConfigMatcher.mk (EGL_SAMPLES hd) exact;
    FGLConfigMatcher.mk (EGL_SAMPLE_BUFFERS hd) exact;
    FGLConfigMatcher.mk (EGL_SURFACE_TYPE hd) mask;
    FGLConfigMatcher.mk (EGL_TRANSPARENT_TYPE hd) exact;
    FGLConfigMatcher.mk (EGL_TRANSPARENT_BLUE_VALUE hd) exact;
    FGLConfigMatcher.mk (EGL_TRANSPARENT_GREEN_VALUE hd) exact;
    FGLConfigMatcher.mk (EGL_TRANSPARENT_RED_VALUE hd) exact;
    FGLConfigMatcher.mk (EGL_BIND_TO_TEXTURE_RGBA hd) exact;
    FGLConfigMatcher.mk (EGL_BIND_TO_TEXTURE_RGB hd) exact;
    FGLConfigMatcher.mk (EGL_MIN_SWAP_INTERVAL hd) exact;
    FGLConfigMatcher.mk (EGL_MAX_SWAP_INTERVAL hd) exact;
    FGLConfigMatcher.mk (EGL_LUMINANCE_SIZE hd) atLeast;
    FGLConfigMatcher.mk (EGL_ALPHA_MASK_SIZE hd) atLeast;
    FGLConfigMatcher.mk (EGL_COLOR_BUFFER_TYPE hd) exact;
    FGLConfigMatcher.mk (EGL_RENDERABLE_TYPE hd) mask;
    FGLConfigMatcher.mk (EGL_CONFORMANT hd) mask ].

(** [static inline EGLBoolean isDisplayValid(EGLDisplay dpy)] *)
Definition isDisplayValid (dpy : Z) : EGLBoolean :=
  if dpy =? 1 then EGL_TRUE else EGL_FALSE.

(** [static int isAttributeMatching(int i, EGLint attr, EGLint val)] *)
Definition isAttributeMatching (i attr val : Z) : Run Z :=
  config ← at_index gConfigs i;
  index ← binarySearch FGLConfigPair.key config 0 (NELEM config - 1) attr;
  found ← (if index <? 0 then
             index ← binarySearch FGLConfigPair.key baseConfigAttributes
                       0 (NELEM baseConfigAttributes - 1) attr;
             mret (baseConfigAttributes, index)
           else mret (config, index));
  let '(configFound, index) := found in
  if index >=? 0 then
    cfgMgtIndex ← binarySearch FGLConfigMatcher.key gConfigManagement
                    0 (NELEM gConfigManagement - 1) attr;
    if cfgMgtIndex >=? 0 then
      m ← at_index gConfigManagement cfgMgtIndex;
      e ← at_index configFound index;
      if FGLConfigMatcher.match_ m val (FGLConfigPair.value e) then mret 1
      else mret 0
    else mret 0
  else mret 0.

(** What a call leaves behind: its result, the error it set if any, the
    handles it stored through [configs], in the order of the stores, and
    the number it stored through [num_config], or the value through
    [value]. *)
Record Answer : Type := mkAnswer {
  result : EGLBoolean;
  error : option Error;
  configs_out : list Z;
  number_out : option Z
}.

(** [for (int i=0 ; possibleMatch && i<numConfigs ; i++)] of
    [eglChooseConfig], over the indices still to come. *)
Fixpoint prune (indices : list Z) (attr val possibleMatch : Z) : Run Z :=
  match indices with
  | [] => Done possibleMatch
  | i :: rest =>
      if possibleMatch =? 0 then Done possibleMatch
      else if Z.land possibleMatch (Z.shiftl 1 i) =? 0 then
        prune rest attr val possibleMatch
      else
        r ← isAttributeMatching i attr val;
        if r =? 0 then
          prune rest attr val
            (Z.land possibleMatch (uint32 (Z.lnot (Z.shiftl 1 i))))
        else prune rest attr val possibleMatch
  end.

(** [while(possibleMatch && *attrib_list != EGL_NONE)], [attrib_list]
    being what lies at the pointer: the number of attributes read and the
    configurations left. *)
Fixpoint scan (numConfigs : Z) (attrib_list : list Z)
    (numAttributes possibleMatch : Z) : Run (Z * Z) :=
  if possibleMatch =? 0 then Done (numAttributes, possibleMatch)
  else
    match attrib_list with
    | [] => Fault
    | attr :: after_attr =>
        if attr =? EGL_NONE hd then Done (numAttributes, possibleMatch)
        else
          match after_attr with
          | [] => Fault
          | val :: rest =>
              possibleMatch ← prune (seqZ 0 numConfigs) attr val possibleMatch;
              scan numConfigs rest (int32 (numAttributes + 1)) possibleMatch
          end
    end.

(** [for (int i=0 ; config_size && i<numConfigs ; i++)]: the handles
    stored. *)
Fixpoint store_configs (indices : list Z) (possibleMatch config_size : Z) : list Z :=
  match indices with
  | [] => []
  | i :: rest =>
      if config_size =? 0 then []
      else if Z.land possibleMatch (Z.shiftl 1 i) =? 0 then
        store_configs rest possibleMatch config_size
      else i :: store_configs rest possibleMatch (int32 (config_size - 1))
  end.

(** [for (int i=0 ; i<numConfigs ; i++)] of the branch without
    [configs]: the value [n] ends with, from [n]. *)
Fixpoint count_configs (indices : list Z) (possibleMatch n : Z) : Z :=
  match indices with
  | [] => n
  | i :: rest =>
      if Z.land possibleMatch (Z.shiftl 1 i) =? 0 then
        count_configs rest possibleMatch n
      else count_configs rest possibleMatch (int32 (n + 1))
  end.

(** [eglChooseConfig(dpy, attrib_list, configs, config_size, num_config)].
    [attrib_list] is [None] for a null pointer and the integers at the
    pointer otherwise; [configs] and [num_config] say whether these
    pointers are non-null, and the array at [configs] is taken to have
    room for what is stored.  [defaultConfigAttributes] has no element,
    so that the loop over it has no turn. *)
Definition eglChooseConfig (dpy : Z) (attrib_list : option (list Z))
    (configs : bool) (config_size : Z) (num_config : bool) : Run Answer :=
  if decide (isDisplayValid dpy = EGL_FALSE) then
    Done (mkAnswer EGL_FALSE (Some EGL_BAD_DISPLAY) [] None)
  else if negb num_config then
    Done (mkAnswer EGL_FALSE (Some EGL_BAD_PARAMETER) [] None)
  else
    let numAttributes := 0 in
    let numConfigs := NELEM gConfigs in
    let possibleMatch := uint32 (Z.shiftl 1 numConfigs - 1) in
    scanned ← match attrib_list with
              | Some l => scan numConfigs l numAttributes possibleMatch
              | None => Done (numAttributes, possibleMatch)
              end;
    let possibleMatch := scanned.2 in
    if possibleMatch =? 0 then Done (mkAnswer EGL_TRUE None [] (Some 0))
    else if configs then
      let stored := store_configs (seqZ 0 numConfigs) possibleMatch config_size in
      Done (mkAnswer EGL_TRUE None stored (Some (NELEM stored)))
    else
      Done (mkAnswer EGL_TRUE None []
              (Some (count_configs (seqZ 0 numConfigs) possibleMatch 0))).

(** The integers at [attrib_list] for the attributes [pairs]: name and
    value in turn, [EGL_NONE], and whatever lies behind it. *)
Definition attribs (pairs : list (Z * Z)) (behind : list Z) : list Z :=
  concat (map (fun p => [p.1; p.2]) pairs) ++ EGL_NONE hd :: behind.

(** [isAttributeMatching(i, attr, val)] returns, and not 0. *)
Definition passes (i attr val : Z) : bool :=
  match isAttributeMatching i attr val with
  | Done r => negb (r =? 0)
  | _ => false
  end.

(** Configuration [i] passes for every attribute of [pairs]. *)
Definition accepts (i : Z) (pairs : list (Z * Z)) : bool :=
  forallb (fun p => passes i p.1 p.2) pairs.

(** The indices of [gConfigs] that pass, in ascending order. *)
Definition chosen (pairs : list (Z * Z)) : list Z :=
  List.filter (fun i => accepts i pairs) (seqZ 0 (NELEM gConfigs)).

(** What a call of [getConfigAttrib] leaves behind: its result, the
    error it set if any, and what it stored through [value]. *)
Record Attrib : Type := mkAttrib {
  attrib_result : EGLBoolean;
  attrib_error : option Error;
  value_out : option Z
}.

(** [static EGLBoolean getConfigAttrib(dpy, config, attribute, value)] *)
Definition getConfigAttrib (dpy config attribute : Z) : Run Attrib :=
  let numConfigs := size_t (NELEM gConfigs) in
  let index := int32 config in
  if uint32 index >=? numConfigs then
    Done (mkAttrib EGL_FALSE (Some EGL_BAD_CONFIG) None)
  else
    array ← at_index gConfigs index;
    attrIndex ← binarySearch FGLConfigPair.key array 0 (NELEM array - 1) attribute;
    if attrIndex >=? 0 then
      e ← at_index array attrIndex;
      Done (mkAttrib EGL_TRUE None (Some (FGLConfigPair.value e)))
    else
      attrIndex ← binarySearch FGLConfigPair.key baseConfigAttributes
                    0 (NELEM baseConfigAttributes - 1) attribute;
      if attrIndex >=? 0 then
        e ← at_index baseConfigAttributes attrIndex;
        Done (mkAttrib EGL_TRUE None (Some (FGLConfigPair.value e)))
      else
        Done (mkAttrib EGL_FALSE (Some EGL_BAD_ATTRIBUTE) None).

(** [eglGetConfigAttrib(dpy, config, attribute, value)] *)
Definition eglGetConfigAttrib (dpy config attribute : Z) : Run Attrib :=
  if decide (isDisplayValid dpy = EGL_FALSE) then
    Done (mkAttrib EGL_FALSE (Some EGL_BAD_DISPLAY) None)
  else getConfigAttrib dpy config attribute.

End Tables.

(** [possibleMatch] has no bit outside the eight configurations. *)
Definition narrow (possibleMatch : Z) : Prop :=
  0 <= possibleMatch /\ forall n, 8 <= n -> Z.testbit possibleMatch n = false.

End Config.

(* ================================================================== *)
(** ** The end of a pbuffer *)

Definition Pbuffer_set_magic (v : Z) (s : Pbuffer.t) : Pbuffer.t :=
  Pbuffer.mk v (Pbuffer.dpy s) (Pbuffer.config s) (Pbuffer.ctx s)
    (Pbuffer.depth s) (Pbuffer.pbuffer s).

(** [FGLPbufferSurface::~FGLPbufferSurface()] followed by
    [FGLSurface::~FGLSurface()]. *)
Definition FGLPbufferSurface_delete : M Pbuffer.t unit :=
  p ← gets Pbuffer.pbuffer;
  fimgFreeMemory (Plane.data p);;
  modify (Pbuffer_set_magic 0);;
  d ← gets Pbuffer.depth;
  fimgFreeMemory (Plane.data d).

(** A platform whose allocator finds memory once and no more. *)
Definition one_block : Platform :=
  android (fun h => (0, Some (frame 0 100 100)))
          (fun h _ => if decide (heap_calls h = []) then 0x5000 else NULL).

(* ================================================================== *)
(** ** The error slot and the display *)

Module ErrorSlot.

(** The values of [EGL/egl.h] these functions use. *)
Record Header : Type := mkHeader {
  EGL_SUCCESS : Z;
  EGL_DEFAULT_DISPLAY : Z;
  EGL_NO_DISPLAY : Z
}.

Definition khronos : Header :=
  {| EGL_SUCCESS := 0x3000; EGL_DEFAULT_DISPLAY := 0; EGL_NO_DISPLAY := 0 |}.

(** The two static keys, and thread-specific data as one thread sees it:
    the keys [pthread_key_create] has handed out, newest first, and the
    value this thread has for a key. *)
Record State : Type := mkState {
  eglContextKey : Z;
  eglErrorKey : Z;
  keys : list Z;
  specific : Z -> Z
}.

(** The state the program starts in. *)
Definition initial : State :=
  {| eglContextKey := -1; eglErrorKey := -1; keys := []; specific := fun _ => NULL |}.

Definition set_eglErrorKey (v : Z) (s : State) : State :=
  mkState (eglContextKey s) v (keys s) (specific s).

Section Calls.

(** [hd] is the header; [create ks] is what [pthread_key_create] does
    when the keys [ks] are out: the key it stores, or [None] when it
    fails and stores nothing. *)
Context (hd : Header) (create : list Z -> option Z).

(** [pthread_key_create(&eglErrorKey, NULL)]; its result is not looked
    at.  A new key has the value [NULL] in every thread. *)
Definition pthread_key_create_eglErrorKey (s : State) : State :=
  match create (keys s) with
  | Some k =>
      mkState (eglContextKey s) k (k :: keys s)
        (fun k' => if decide (k' = k) then NULL else specific s k')
  | None => s
  end.

(** [pthread_getspecific(key)].  POSIX leaves the call undefined for a
    key that [pthread_key_create] did not hand out. *)
Definition pthread_getspecific (key : Z) (s : State) : Outcome Z :=
  if decide (key ∈ keys s) then Returns (specific s key) else Crashes.

(** [pthread_setspecific(key, value)], undefined likewise. *)
Definition pthread_setspecific (key value : Z) (s : State) : Outcome State :=
  if decide (key ∈ keys s) then
    Returns (mkState (eglContextKey s) (eglErrorKey s) (keys s)
               (fun k' => if decide (k' = key) then value else specific s k'))
  else Crashes.

(** [EGLAPI EGLint EGLAPIENTRY eglGetError(void)] *)
Definition eglGetError (s : State) : Outcome (Z * State) :=
  if eglErrorKey s =? -1 then Returns (EGL_SUCCESS hd, s)
  else
    match pthread_getspecific (eglErrorKey s) s with
    | Returns error =>
        match pthread_setspecific (eglErrorKey s) (EGL_SUCCESS hd) s with
        | Returns s' => Returns (error, s')
        | Crashes => Crashes
        end
    | Crashes => Crashes
    end.

(** [static void setError(EGLint error)]; for one thread the test
    repeated under the mutex reads what the first one read. *)
Definition setError (error : Z) (s : State) : Outcome State :=
  let s := if eglErrorKey s =? -1 then pthread_key_create_eglErrorKey s else s in
  pthread_setspecific (eglErrorKey s) error s.

(** [EGLAPI EGLDisplay EGLAPIENTRY eglGetDisplay(EGLNativeDisplayType
    display_id)]: under the test of [eglContextKey], repeated under the
    mutex, it is [eglErrorKey] that is created. *)
Definition eglGetDisplay (display_id : Z) (s : State) : Z * State :=
  let s := if eglContextKey s =? -1 then pthread_key_create_eglErrorKey s else s in
  if negb (display_id =? EGL_DEFAULT_DISPLAY hd) then (EGL_NO_DISPLAY hd, s)
  else (1, s).

End Calls.

(** [eglErrorKey] is unset or a key that was handed out. *)
Definition well_formed (s : State) : Prop :=
  eglErrorKey s = (-1) \/ eglErrorKey s ∈ keys s.

(** [pthread_key_create] as POSIX has it when it succeeds: the key is not
    one that is out, and none is the -1 the code keeps for "unset". *)
Definition fresh_keys (create : list Z -> option Z) : Prop :=
  forall ks k, create ks = Some k -> (k ∉ ks) /\ k <> (-1).

(** A [pthread_key_create] that hands out a key above those that are
    out. *)
Definition next_key (ks : list Z) : option Z := Some (1 + foldr Z.max 0 ks).

End ErrorSlot.

(* ================================================================== *)
(** ** [FGLPixmapSurface] *)

Module Pixmap.

(** [egl_native_pixmap_t], by the fields the surface reads. *)
Record egl_native_pixmap_t : Type := mkNative {
  width : Z;
  height : Z;
  stride : Z;
  data : Z;
  format : Z
}.

Record t : Type := mk {
  magic : Z;
  dpy : Z;
  config : Z;
  ctx : Z;
  depth : Plane.t;
  nativePixmap : egl_native_pixmap_t
}.

Definition set_depth (v : Plane.t) (s : t) : t :=
  mk (magic s) (dpy s) (config s) (ctx s) v (nativePixmap s).

Section Methods.

Context (pf : Platform).

(** [FGLPixmapSurface::FGLPixmapSurface(dpy, config, depthFormat,
    pixmap)] run on the storage [raw], after
    [FGLSurface::FGLSurface(dpy, config, depthFormat)]; [pixmap] is
    [None] for a null pointer. *)
Definition FGLPixmapSurface_new (dpy_ config_ depthFormat : Z)
    (pixmap : option egl_native_pixmap_t) : M t unit :=
  match pixmap with
  | None => crash
  | Some px =>
      modify (fun raw =>
        {| magic := MAGIC; dpy := dpy_; config := config_; ctx := 0;
           depth := Plane.mk (sizeof_FGLPlane pf) (Plane.width (depth raw))
                      (Plane.height (depth raw)) (Plane.stride (depth raw)) 0 depthFormat;
           nativePixmap := px |});;
      if negb (depthFormat =? 0) then
        modify (fun s => set_depth (set_plane_width (uint32 (width px)) (depth s)) s);;
        modify (fun s => set_depth (set_plane_height (uint32 (height px)) (depth s)) s);;
        modify (fun s => set_depth (set_plane_stride (Plane.width (depth s)) (depth s)) s);;
        d ← gets depth;
        p ← fimgAllocMemory pf (size_t (uint32 (Plane.stride d * Plane.height d * 4)));
        modify (fun s => set_depth (set_plane_data p (depth s)) s);;
        if p =? 0 then setError EGL_BAD_ALLOC else mret tt
      else mret tt
  end.

(** [virtual bool initCheck() const { return !depth.format || depth.data!=0; }] *)
Definition initCheck (this : t) : bool :=
  (Plane.format (depth this) =? 0) || negb (Plane.data (depth this) =? 0).

(** [getWidth()] and [getHeight()] *)
Definition getWidth (this : t) : Z := width (nativePixmap this).
Definition getHeight (this : t) : Z := height (nativePixmap this).

(** The local [FGLPlane buffer] of both bind methods. *)
Definition color_plane (this : t) : Plane.t :=
  Plane.mk (sizeof_FGLPlane pf) (uint32 (width (nativePixmap this)))
    (uint32 (height (nativePixmap this))) (uint32 (stride (nativePixmap this)))
    (data (nativePixmap this)) (format (nativePixmap this)).

(** [EGLBoolean FGLPixmapSurface::bindDrawSurface(FGLContext* gl)]: the
    result and the calls made on [gl]. *)
Definition bindDrawSurface (this : t) : EGLBoolean * list BufferBinding :=
  (EGL_TRUE, [SetColorBuffer (color_plane this); SetDepthBuffer (depth this)]).

(** [EGLBoolean FGLPixmapSurface::bindReadSurface(FGLContext* gl)] *)
Definition bindReadSurface (this : t) : EGLBoolean * list BufferBinding :=
  (EGL_TRUE, [SetReadBuffer (color_plane this)]).

End Methods.

End Pixmap.

(* ================================================================== *)
(** * Properties *)

(* ---------------------------------------------------------------- *)
(** ** Region subtraction *)

Lemma max_Zmax a b : max a b = Z.max a b.
Proof. unfold max. rewrite Z.gtb_ltb. destruct (Z.ltb_spec b a); lia. Qed.

Lemma min_Zmin a b : min a b = Z.min a b.
Proof. unfold min. destruct (Z.ltb_spec a b); lia. Qed.

Ltac guards :=
  unfold Rect_isEmpty in *;
  rewrite ?max_Zmax, ?min_Zmin, ?Z.gtb_ltb, ?Z.geb_leb in *;
  repeat match goal with
         | |- context [Z.max ?a ?b] =>
             let H := fresh in destruct (Z.max_spec a b) as [[? H]|[? H]]; rewrite !H
         | |- context [Z.min ?a ?b] =>
             let H := fresh in destruct (Z.min_spec a b) as [[? H]|[? H]]; rewrite !H
         end;
  repeat match goal with
         | |- context [?a <? ?b] => destruct (Z.ltb_spec a b)
         | |- context [?a <=? ?b] => destruct (Z.leb_spec a b)
         | |- context [bool_decide ?P] => destruct (bool_decide_reflect P)
         end.

Lemma subtract_strips lhs rhs :
  exists reg, subtract lhs rhs = Some reg /\
    Region_rects reg = Some (strips lhs rhs) /\
    count reg = Z.of_nat (length (strips lhs rhs)) /\
    length (storage reg) = Region_capacity.
Proof.
  destruct lhs as [l t r b], rhs as [l' t' r' b'].
  unfold subtract, strips. cbn [left top right bottom].
  guards; cbn [left top right bottom negb orb] in *; try lia;
    (eexists; split; [reflexivity|]; split_and!; reflexivity).
Qed.

Lemma subtract_rects_strips lhs rhs : subtract_rects lhs rhs = strips lhs rhs.
Proof.
  unfold subtract_rects.
  destruct (subtract_strips lhs rhs) as (reg & Hs & Hr & _).
  rewrite Hs. cbn. by rewrite Hr.
Qed.

Lemma inside_andSelf x y a b :
  inside x y (andSelf a b) <-> inside x y a /\ inside x y b.
Proof.
  unfold inside, andSelf. cbn [left top right bottom].
  rewrite !max_Zmax, !min_Zmin. lia.
Qed.

Lemma Rect_isEmpty_true r : Rect_isEmpty r = true <-> forall x y, ~ inside x y r.
Proof.
  unfold Rect_isEmpty, inside. rewrite !Z.geb_leb. split.
  - intros H x y. destruct (Z.leb_spec (right r) (left r)),
      (Z.leb_spec (bottom r) (top r)); cbn in H; try discriminate; lia.
  - intros H. destruct (Z.leb_spec (right r) (left r)),
      (Z.leb_spec (bottom r) (top r)); cbn; try reflexivity.
    exfalso. apply (H (left r) (top r)). lia.
Qed.

Ltac strips_cases :=
  rewrite ?subtract_rects_strips; unfold strips, covered, inside, touches, adjoins in *;
  guards; cbn [left top right bottom negb orb app] in *;
  rewrite ?Exists_cons, ?Exists_nil; cbn [left top right bottom] in *.

(** Every pixel of [a] is in a strip or in the intersection. *)
Lemma subtract_covers a b x y :
  inside x y a -> covered x y (subtract_rects a b) \/ inside x y (andSelf a b).
Proof.
  rewrite inside_andSelf. destruct a as [l t r bo], b as [l' t' r' b'].
  strips_cases; lia.
Qed.

(** No strip reaches into [b]. *)
Lemma subtract_avoids a b x y :
  covered x y (subtract_rects a b) -> ~ inside x y b.
Proof.
  destruct a as [l t r bo], b as [l' t' r' b'].
  strips_cases; lia.
Qed.

(** When no gap separates the two rectangles, the strips stay in [a]. *)
Lemma subtract_within a b x y :
  touches a b -> covered x y (subtract_rects a b) -> inside x y a.
Proof.
  destruct a as [l t r bo], b as [l' t' r' b'].
  strips_cases; lia.
Qed.

(** Hence, when no gap separates them, strips and intersection together
    are exactly [a]. *)
Lemma subtract_exact a b x y :
  touches a b ->
  covered x y (subtract_rects a b) \/ inside x y (andSelf a b) <-> inside x y a.
Proof.
  intros Ht. split.
  - intros [H|H]; [by apply (subtract_within a b)|].
    by apply inside_andSelf in H as [? _].
  - apply subtract_covers.
Qed.

Lemma subtract_empty_lhs a b : Rect_isEmpty a = true -> subtract_rects a b = [].
Proof. intros H. rewrite subtract_rects_strips. unfold strips. by rewrite H. Qed.

Lemma subtract_adjoining a b :
  Rect_isEmpty a = false -> adjoins a b -> subtract_rects a b = [a].
Proof.
  destruct a as [l t r bo], b as [l' t' r' b'].
  intros He Ha. rewrite subtract_rects_strips. unfold strips. rewrite He.
  revert He Ha.
  strips_cases; intros; try discriminate; try lia; repeat f_equal; lia.
Qed.

(** C6.  For every pair of rectangles, [subtract] stores at most four
    rectangles: every store lands inside the four-element [storage]
    array (the construction never yields [None]), the array keeps its
    four slots, [count] ends between 0 and 4, and every slot an iteration
    from [begin()] to [end()] reads has been written. *)
Theorem subtract_in_bounds lhs rhs :
  exists reg, subtract lhs rhs = Some reg /\
    length (storage reg) = 4%nat /\ 0 <= count reg <= 4 /\
    is_Some (Region_rects reg).
Proof.
  destruct lhs as [l t r b], rhs as [l' t' r' b'].
  unfold subtract. cbn [left top right bottom].
  guards; cbn [negb];
    (eexists; split; [reflexivity|]; split_and!;
     [reflexivity | cbn; lia | cbn; lia | eexists; reflexivity]).
Qed.

(** The rectangles of [subtract lhs rhs], read from [begin()] to
    [end()], are the list [strips lhs rhs]: the stores are made in this
    order and under these guards, with the coordinates [strips] gives
    them.  The region is empty exactly when there is no rectangle, and
    for an empty [lhs] it is the region [Region()] builds. *)
Lemma subtract_order lhs rhs :
  exists reg, subtract lhs rhs = Some reg /\
    Region_rects reg = Some (strips lhs rhs) /\
    Region_isEmpty reg = (if strips lhs rhs is [] then true else false) /\
    (Rect_isEmpty lhs = false \/ reg = Region_new).
Proof.
  destruct (subtract_strips lhs rhs) as (reg & Hs & Hr & Hc & _).
  exists reg. split_and!; [done | done | |].
  - unfold Region_isEmpty. rewrite Hc. by destruct (strips lhs rhs).
  - destruct (Rect_isEmpty lhs) eqn:He; [right | by left].
    unfold subtract in Hs. rewrite He in Hs. cbn in Hs. congruence.
Qed.

Ltac lhs_cases :=
  unfold lhs_strips, strips, covered, inside, touches in *;
  guards; cbn [left top right bottom negb orb app] in *;
  rewrite ?Exists_cons, ?Exists_nil; cbn [left top right bottom] in *.

(** The strips of the design are the pixels of [lhs] that are not in
    [rhs], for every pair of rectangles. *)
Lemma lhs_strips_difference a b x y :
  covered x y (lhs_strips a b) <-> inside x y a /\ ~ inside x y b.
Proof.
  destruct a as [l t r bo], b as [l' t' r' b'].
  lhs_cases; lia.
Qed.

(** When no gap separates [rhs] from [lhs], the rectangles [subtract]
    stores are the strips of the design, in the same order and under the
    same guards. *)
Lemma subtract_lhs_strips a b :
  touches a b -> subtract_rects a b = lhs_strips a b.
Proof.
  rewrite subtract_rects_strips.
  destruct a as [l t r bo], b as [l' t' r' b'].
  lhs_cases; intros; cbn [left top right bottom] in *; try lia; repeat f_equal; lia.
Qed.

(** C1.  [subtract (0,0,10,10) (0,20,10,30)], where [rhs] lies below
    [lhs] with a gap: the only guard that holds is [lhs.top < rhs.top],
    and the strip of [lhs] above the top edge of [rhs] is all of [lhs],
    [(0,0,10,10)].  The code stores [(0,0,10,20)] instead, a rectangle
    that contains the pixel [(0,15)], which is not in [lhs]: the bottom
    edge is [rhs.top], not clamped to [lhs.bottom]. *)
Theorem subtract_strip_outside_lhs :
  let lhs := mkRect 0 0 10 10 in
  let rhs := mkRect 0 20 10 30 in
  (r ← subtract lhs rhs; Region_rects r) = Some [mkRect 0 0 10 20] /\
  lhs_strips lhs rhs = [mkRect 0 0 10 10] /\
  inside 0 15 (mkRect 0 0 10 20) /\ ~ inside 0 15 lhs.
Proof.
  cbn zeta. split_and!; try reflexivity; unfold inside; cbn; lia.
Qed.

(** C2.  Subtracting a rectangle that lies below [a] with a gap:
    [subtract (0,0,10,10) (0,20,10,30)] is the single rectangle
    [(0,0,10,20)], which covers the pixel [(0,15)], a pixel that is
    neither in [a] nor in the intersection of [a] and [b].  The union of
    the result and the intersection is therefore not the set of pixels
    of [a]. *)
Theorem subtract_exceeds_lhs :
  let a := mkRect 0 0 10 10 in
  let b := mkRect 0 20 10 30 in
  (r ← subtract a b; Region_rects r) = Some [mkRect 0 0 10 20] /\
  covered 0 15 (subtract_rects a b) /\
  ~ inside 0 15 a /\ ~ inside 0 15 (andSelf a b).
Proof.
  cbn zeta. split_and!.
  - reflexivity.
  - apply Exists_cons_hd. unfold inside. cbn. lia.
  - unfold inside. cbn. lia.
  - unfold inside. cbn. lia.
Qed.

(** C5, as stated, fails: [(0,0,10,10)] and [(10,2,20,8)] do not
    intersect, yet the region has three strips and is not the single
    rectangle [(0,0,10,10)]. *)
Lemma subtract_disjoint_not_single :
  ~ (forall a b, Rect_isEmpty (andSelf a b) = true ->
       subtract_rects a b = if Rect_isEmpty a then [] else [a]).
Proof.
  intros H. specialize (H (mkRect 0 0 10 10) (mkRect 10 2 20 8) eq_refl).
  discriminate H.
Qed.

(** C5, amended.  For rectangles [a] and [b] that do not intersect: the
    region is empty when [a] is empty; when no gap separates [b] from
    [a], the strips of [subtract a b] cover exactly the pixels of [a];
    and when [a] is not empty and [b] begins exactly where [a] ends along
    a whole side, the region is the single rectangle [a]. *)
Theorem subtract_disjoint_pieces a b :
  Rect_isEmpty (andSelf a b) = true ->
  (Rect_isEmpty a = true -> subtract_rects a b = []) /\
  (touches a b ->
   forall x y, covered x y (subtract_rects a b) <-> inside x y a) /\
  (Rect_isEmpty a = false -> adjoins a b -> subtract_rects a b = [a]).
Proof.
  intros Hd. split_and!.
  - apply subtract_empty_lhs.
  - intros Ht x y. split.
    + by apply subtract_within.
    + intros Hin. destruct (subtract_covers a b x y Hin) as [|Hi]; [done|].
      apply Rect_isEmpty_true in Hi; [done|done].
  - apply subtract_adjoining.
Qed.

Lemma subtract_disjoint_pieces_witness :
  let a := mkRect 0 0 10 10 in
  let b := mkRect 10 0 20 10 in
  subtract_rects a b = [a] /\
  (forall x y, covered x y (subtract_rects a b) <-> inside x y a).
Proof.
  intros a b.
  destruct (subtract_disjoint_pieces a b eq_refl) as (_ & Hc & Hs).
  split.
  - apply Hs; [reflexivity|]. right. right. cbn. lia.
  - apply Hc. unfold touches. cbn. lia.
Defined.

(* ---------------------------------------------------------------- *)
(** ** Running the methods of a window surface *)

(** Unfolds the monad down to functions on the object and the history. *)
Ltac run :=
  repeat (progress (unfold mbind, mret, M_bind, M_ret, bind, ret, gets, modify, emit,
                    history, crash, deref, orelse, setError, incRef, decRef,
                    fimgAllocMemory, fimgFreeMemory, call_copyBlt, dequeueBuffer;
                    cbn beta iota zeta)).

Lemma lock_run pf b u old s h :
  lock pf b u old s h =
  (Returns (lock_answer pf h b u old), s,
   EvLock b u (lock_answer pf h b u old).1 (lock_answer pf h b u old).2 :: h).
Proof. reflexivity. Qed.

Lemma unlock_run pf b s h :
  unlock pf (Some b) s h =
  (Returns (unlock_answer pf h b), s, EvUnlock b (unlock_answer pf h b) :: h).
Proof. reflexivity. Qed.

Lemma quiet_refl h : quiet h h.
Proof. by repeat split. Qed.

Lemma tick_self b : tick b b = 1.
Proof. unfold tick. by rewrite decide_True. Qed.

Lemma copy_back_effect pf b s h :
  let clipped := andSelf (dirtyRegion s) (Rect_wh (Buf.width b) (Buf.height b)) in
  exists h1 copyBack,
    copy_back pf b s h =
      (Returns tt,
       (if Rect_isEmpty (dirtyRegion s) then s
        else set_oldDirtyRegion clipped (set_dirtyRegion clipped s)), h1) /\
    quiet h1 h /\
    subtract (oldDirtyRegion s) clipped = Some copyBack /\
    copyBlts h1 =
      (if Rect_isEmpty (dirtyRegion s) then []
       else match previousBuffer s with
            | Some p =>
                if Region_isEmpty copyBack then []
                else
                  let r := lock_answer pf h p (GRALLOC_USAGE_SW_READ_OFTEN pf) NULL in
                  if r.1 =? FGL_NO_ERROR then [(b, bits s, p, r.2, copyBack)] else []
            | None => []
            end) ++ copyBlts h.
Proof.
  intros clipped.
  destruct (subtract_strips (oldDirtyRegion s) clipped) as (cb & Hcb & _).
  unfold copy_back. run.
  destruct (Rect_isEmpty (dirtyRegion s)) eqn:He; cbn [negb].
  { exists h, cb. split_and!; [reflexivity | apply quiet_refl | done | reflexivity]. }
  destruct s as [mg dp cf cx de nw bu pb mo bl wi he bi dr od].
  cbn [previousBuffer set_dirtyRegion oldDirtyRegion dirtyRegion bits] in *.
  fold clipped. destruct pb as [p|]; cbn [previousBuffer set_dirtyRegion oldDirtyRegion dirtyRegion bits].
  - rewrite Hcb. destruct (Region_isEmpty cb) eqn:Hr; cbn [negb].
    { exists h, cb. split_and!; [reflexivity | apply quiet_refl | done | by rewrite Hr]. }
    rewrite lock_run. cbn [fst snd].
    destruct ((lock_answer pf h p (GRALLOC_USAGE_SW_READ_OFTEN pf) NULL).1 =? FGL_NO_ERROR) eqn:Hl.
    + rewrite unlock_run. eexists _, cb. split_and!; [reflexivity| |done|by rewrite Hr].
      unfold quiet. cbn. rewrite Hl. split_and!; auto; intros; lia.
    + eexists _, cb. split_and!; [reflexivity| |done|by rewrite Hr].
      unfold quiet. cbn. rewrite Hl. split_and!; auto; intros; lia.
  - exists h, cb. split_and!; [reflexivity | apply quiet_refl | done | reflexivity].
Qed.

(** Reduces field reads of updated records. *)
Ltac fields :=
  cbn [magic dpy config ctx depth nativeWindow buffer previousBuffer module
       blitengine width height bits dirtyRegion oldDirtyRegion
       set_depth set_buffer set_previousBuffer set_width set_height set_bits
       set_dirtyRegion set_oldDirtyRegion
       set_plane_width set_plane_height set_plane_stride set_plane_data
       Plane.version Plane.width Plane.height Plane.stride Plane.data Plane.format
       fst snd negb] in *.

(** One step of a run: reduce, or split on the next thing the run
    depends on (an answer of the platform, a test, a pointer). *)
Ltac step :=
  first
    [ progress run
    | progress fields
    | rewrite unlock_run
    | rewrite lock_run
    | match goal with
      | |- context [dequeueBuffer_answer ?pf ?h ?o] =>
          destruct (dequeueBuffer_answer pf h o) as [? ?] eqn:?
      end
    | match goal with
      | |- context [if ?x then _ else _] => destruct x eqn:?
      end
    | match goal with
      | |- context [match ?x with Some _ => _ | None => _ end] => destruct x eqn:?
      end ].

Lemma flip_keeps_regions pf b s h out s' h' :
  flip pf b s h = (out, s', h') ->
  dirtyRegion s' = dirtyRegion s /\ oldDirtyRegion s' = oldDirtyRegion s /\
  copyBlts h' = copyBlts h.
Proof.
  destruct s as [mg dp cf cx de nw bu pb mo bl wi he bi dr od].
  unfold flip, reallocate_depth. repeat step.
  all: intros [= <- <- <-]; fields; cbn [copyBlts]; done.
Qed.

(* ---------------------------------------------------------------- *)
(** ** References and pins over the life of a surface *)

Lemma lock_answer_mapped pf h0 old nb h u o :
  pins_are_mapped pf ->
  (dequeueBuffer_answer pf h0 old).2 = Some nb ->
  (lock_answer pf h nb u o).1 = FGL_NO_ERROR ->
  (lock_answer pf h nb u o).2 <> NULL.
Proof.
  intros [Hm Hs] Hd. unfold lock_answer.
  destruct (Buf.handle nb) eqn:Hh; [apply Hm|].
  intros _. cbn. eapply Hs; eauto.
Qed.

(** Settles a goal about the counters of a history extended by known
    calls. *)
Ltac count :=
  unfold outstanding, held, points_to in *;
  cbn [acquired released pinned] in *; fields;
  repeat match goal with
         | H : (_ =? _) = true |- _ => rewrite H in *
         | H : (_ =? _) = false |- _ => rewrite H in *
         end;
  intros;
  repeat match goal with
         | H : forall b : Buf.t, _ = _ |- context [acquired ?b0 _] =>
             lazymatch type of H with
             | context [acquired] =>
                 let T := type of (H b0) in
                 lazymatch goal with
                 | _ : T |- _ => fail
                 | _ => pose proof (H b0)
                 end
             end
         | H : forall b : Buf.t, _ = _ |- context [pinned ?b0 _] =>
             lazymatch type of H with
             | context [pinned] =>
                 let T := type of (H b0) in
                 lazymatch goal with
                 | _ : T |- _ => fail
                 | _ => pose proof (H b0)
                 end
             end
         end;
  unfold tick in *; repeat case_decide; subst; try congruence; try lia.

Lemma quiet_connected s h s1 h1 :
  quiet h1 h -> Connected s h ->
  buffer s1 = buffer s -> previousBuffer s1 = previousBuffer s ->
  bits s1 = bits s -> Connected s1 h1.
Proof.
  intros (Ha & Hr & Hp & Hro & Hqo & _) (Ho & Hpi & Hrel & Hq & Hb & Hbits) E1 E2 E3.
  unfold Connected, held, outstanding in *. rewrite E1, E2, E3.
  split_and!; auto.
  - intros b. rewrite Ha, Hr. apply Ho.
  - intros b. rewrite Hp. apply Hpi.
Qed.

Lemma flip_connected pf b s h s' h' :
  pins_are_mapped pf -> buffer s = Some b -> Connected s h ->
  flip pf b s h = (Returns EGL_TRUE, s', h') -> Connected s' h'.
Proof.
  intros Hpf Hb (Ho & Hpi & Hrel & Hq & _ & _).
  destruct s as [mg dp cf cx de nw bu pb mo bl wi he bi dr od].
  cbn [buffer] in Hb. subst bu.
  unfold flip, reallocate_depth. repeat step.
  all: intros [= <- <-]; unfold Connected; fields; cbn [release_ok queue_ok].
  all: try match goal with
       | H : dequeueBuffer_answer _ ?h0 ?old = (_, Some ?nb) |- _ =>
           assert ((dequeueBuffer_answer pf h0 old).2 = Some nb) by (by rewrite H)
       end.
  all: split_and!; eauto; try (by count).
  all: try (eapply lock_answer_mapped; eauto; apply Z.eqb_eq;
            match goal with H : negb _ = false |- _ => by apply negb_false_iff in H end).
  all: try match goal with H : negb (_ =? _) = false |- _ => apply negb_false_iff in H end.
  all: try (by count).
Qed.

Lemma swapBuffers_unfold pf s h b :
  buffer s = Some b ->
  swapBuffers pf s h =
  match copy_back pf b s h with
  | (Returns _, s1, h1) => flip pf b s1 h1
  | (Crashes, s1, h1) => (Crashes, s1, h1)
  end.
Proof.
  intros Hb. unfold swapBuffers. run. rewrite Hb.
  destruct (copy_back pf b s h) as [[[]]]; reflexivity.
Qed.

Lemma if_same {A B} (c : bool) (f : A -> B) x y :
  f (if c then x else y) = if c then f x else f y.
Proof. by destruct c. Qed.

Lemma swapBuffers_connected pf s h s' h' :
  pins_are_mapped pf -> Connected s h ->
  swapBuffers pf s h = (Returns EGL_TRUE, s', h') -> Connected s' h'.
Proof.
  intros Hpf Hc. pose proof Hc as (_ & _ & _ & _ & [b Hb] & _).
  rewrite (swapBuffers_unfold _ _ _ b Hb).
  destruct (copy_back_effect pf b s h) as (h1 & cb & -> & Hq & _ & _).
  apply flip_connected; [done| |].
  - by destruct (Rect_isEmpty (dirtyRegion s)).
  - eapply quiet_connected; eauto; by destruct (Rect_isEmpty (dirtyRegion s)).
Qed.

Lemma connect_connected pf s h s' h' :
  pins_are_mapped pf -> Disconnected s h ->
  connect pf s h = (Returns EGL_TRUE, s', h') -> Connected s' h'.
Proof.
  intros Hpf (Ho & Hpi & Hrel & Hq & Hb & Hp).
  destruct s as [mg dp cf cx de nw bu pb mo bl wi he bi dr od].
  cbn [buffer previousBuffer] in Hb, Hp. subst bu pb.
  unfold connect. repeat step.
  all: intros [= <- <-]; unfold Connected; fields; cbn [release_ok queue_ok].
  all: try match goal with
       | H : dequeueBuffer_answer _ ?h0 ?old = (_, Some ?nb) |- _ =>
           assert ((dequeueBuffer_answer pf h0 old).2 = Some nb) by (by rewrite H)
       end.
  all: split_and!; eauto; try (by count).
  all: try (eapply lock_answer_mapped; eauto; apply Z.eqb_eq;
            match goal with H : negb _ = false |- _ => by apply negb_false_iff in H end).
  all: try match goal with H : negb (_ =? _) = false |- _ => apply negb_false_iff in H end.
  all: try (by count).
Qed.

Lemma disconnect_disconnected pf s h :
  Connected s h ->
  exists s' h', disconnect pf s h = (Returns tt, s', h') /\ Disconnected s' h'.
Proof.
  intros (Ho & Hpi & Hrel & Hq & [b Hb] & Hbits).
  destruct s as [mg dp cf cx de nw bu pb mo bl wi he bi dr od].
  cbn [buffer bits] in Hb, Hbits. subst bu.
  assert ((bi =? NULL) = false) as Hz by (by apply Z.eqb_neq).
  unfold disconnect. run. fields. rewrite Hz. cbn [bool_decide andb negb].
  rewrite bool_decide_eq_true_2 by eauto. cbn [andb].
  repeat step.
  all: eexists _, _; (split; [reflexivity|]).
  all: unfold Disconnected; fields; cbn [release_ok queue_ok].
  all: split_and!; eauto; try (by count).
Qed.

Lemma present_connected pf n : forall s h s' h',
  pins_are_mapped pf -> Connected s h ->
  present pf n s h = Some (s', h') -> Connected s' h'.
Proof.
  induction n as [|n IH]; intros s h s' h' Hpf Hc; cbn [present].
  - by intros [= <- <-].
  - destruct (swapBuffers pf s h) as [[[[]|] s1] h1] eqn:Hs; try discriminate.
    intros Hp. apply (IH s1 h1 s' h' Hpf); [|done].
    by apply (swapBuffers_connected pf s h).
Qed.

(** C4.  On a platform whose successful pins yield an address, over
    [connect()], [n] successful [swapBuffers()] and [disconnect()] on a
    surface that held no buffer: at the end every buffer has as many
    [decRef] as [incRef] calls, no [decRef] was ever made without a
    reference outstanding (so the previous buffer's reference is given
    back before the pointer is overwritten and never twice), every
    buffer handed to [queueBuffer] was unpinned at that moment, nothing
    stays pinned, and the surface holds no buffer. *)
Theorem refcount_balance pf n s0 s h :
  pins_are_mapped pf ->
  buffer s0 = None -> previousBuffer s0 = None ->
  session pf n s0 = Some (s, h) ->
  (forall b, acquired b h = released b h) /\
  release_ok h /\ queue_ok h /\ (forall b, pinned b h = 0) /\
  buffer s = None /\ previousBuffer s = None.
Proof.
  intros Hpf Hb Hp. unfold session, connected.
  destruct (connect pf s0 []) as [[[[]|] s1] h1] eqn:Hc; try discriminate.
  destruct (present pf n s1 h1) as [[s2 h2]|] eqn:Hn; try discriminate.
  assert (Connected s2 h2) as Hc2.
  { apply (present_connected pf n s1 h1); [done| |done].
    apply (connect_connected pf s0 []); [done| |done]. by repeat split. }
  destruct (disconnect_disconnected pf s2 h2 Hc2) as (s3 & h3 & -> & Hd).
  intros [= <- <-]. destruct Hd as (Ho & Hpi & Hrel & Hq & ? & ?).
  split_and!; auto. intros b. specialize (Ho b). unfold outstanding in Ho. lia.
Qed.

Lemma double_buffered_pins : pins_are_mapped double_buffered.
Proof.
  split.
  - intros h b usage old _. cbn. discriminate.
  - intros h old b base. cbn. intros [= <-]. unfold frame. cbn.
    intros [= <-]. destruct (Nat.even (length h)); discriminate.
Qed.

Lemma refcount_balance_witness :
  exists s h, session double_buffered 3 fresh = Some (s, h) /\
    (forall b, acquired b h = released b h) /\
    release_ok h /\ queue_ok h /\ (forall b, pinned b h = 0) /\
    buffer s = None /\ previousBuffer s = None.
Proof.
  eexists _, _. split; [vm_compute; reflexivity|].
  apply (refcount_balance double_buffered 3 fresh);
    [apply double_buffered_pins | reflexivity | reflexivity | vm_compute; reflexivity].
Defined.

(* ---------------------------------------------------------------- *)
(** ** Runs that cannot fail *)

Lemma lock_answer_cooperative pf h b usage old :
  cooperative pf -> ((lock_answer pf h b usage old).1 =? FGL_NO_ERROR) = true.
Proof.
  intros (_ & Hl & _). unfold lock_answer. apply Z.eqb_eq.
  destruct (Buf.handle b); [apply Hl | reflexivity].
Qed.

Ltac cooperate Hco :=
  repeat match goal with
         | H : dequeueBuffer_answer ?pf ?h ?o = _ |- _ =>
             let b := fresh "b" in
             let E := fresh in
             destruct (proj1 Hco h o) as [b E]; rewrite E in H;
             injection H as ? ?; subst
         | H : context [(lock_answer ?pf ?h ?b ?u ?o).1 =? FGL_NO_ERROR] |- _ =>
             rewrite (lock_answer_cooperative pf h b u o Hco) in H
         | H : (fimgAllocMemory_answer ?pf ?h ?n =? 0) = true |- _ =>
             apply Z.eqb_eq in H; destruct (proj2 (proj2 Hco) h n H)
         end;
  try discriminate; try congruence.

Lemma flip_succeeds pf b s h :
  cooperative pf ->
  exists s' h', flip pf b s h = (Returns EGL_TRUE, s', h') /\ is_Some (buffer s').
Proof.
  intros Hco. destruct s as [mg dp cf cx de nw bu pb mo bl wi he bi dr od].
  unfold flip, reallocate_depth. repeat step.
  all: cooperate Hco.
  all: eexists _, _; (split; [reflexivity|]); fields; eauto.
Qed.

Lemma swapBuffers_succeeds pf s h :
  cooperative pf -> is_Some (buffer s) ->
  exists s' h', swapBuffers pf s h = (Returns EGL_TRUE, s', h') /\ is_Some (buffer s').
Proof.
  intros Hco [b Hb]. rewrite (swapBuffers_unfold _ _ _ b Hb).
  destruct (copy_back_effect pf b s h) as (h1 & cb & -> & _).
  by apply flip_succeeds.
Qed.

Lemma connect_succeeds pf s h :
  cooperative pf ->
  exists s' h', connect pf s h = (Returns EGL_TRUE, s', h') /\ is_Some (buffer s').
Proof.
  intros Hco. destruct s as [mg dp cf cx de nw bu pb mo bl wi he bi dr od].
  unfold connect. repeat step.
  all: cooperate Hco.
  all: eexists _, _; (split; [reflexivity|]); fields; eauto.
Qed.

Lemma present_succeeds pf n : forall s h,
  cooperative pf -> is_Some (buffer s) ->
  exists s' h', present pf n s h = Some (s', h') /\ is_Some (buffer s').
Proof.
  induction n as [|n IH]; intros s h Hco Hb; cbn [present]; [by eauto|].
  destruct (swapBuffers_succeeds pf s h Hco Hb) as (s1 & h1 & -> & Hb1).
  by apply IH.
Qed.

(** On a cooperative platform the whole life of a surface runs through,
    whatever the number of frames. *)
Lemma session_runs pf n s :
  cooperative pf -> is_Some (session pf n s).
Proof.
  intros Hco. unfold session, connected.
  destruct (connect_succeeds pf s [] Hco) as (s1 & h1 & -> & Hb1).
  destruct (present_succeeds pf n s1 h1 Hco Hb1) as (s2 & h2 & -> & Hb2).
  destruct (disconnect pf s2 h2) as [[[] s3] h3] eqn:Hd; [by eauto|].
  exfalso. revert Hd. destruct s2 as [mg dp cf cx de nw bu pb mo bl wi he bi dr od].
  unfold disconnect. repeat step. all: discriminate.
Qed.

(* ---------------------------------------------------------------- *)
(** ** Partial updates, missing buffers and resizes *)

(** Intersecting with [Rect(W, H)] clamps each edge to the image. *)
Lemma andSelf_clips d W H :
  andSelf d (Rect_wh W H)
  = mkRect (Z.max (left d) 0) (Z.max (top d) 0) (Z.min (right d) W) (Z.min (bottom d) H).
Proof. unfold andSelf, Rect_wh. cbn [left top right bottom]. by rewrite !max_Zmax, !min_Zmin. Qed.

(** C3.  When [swapBuffers] runs with a current buffer [b] and a
    non-empty [dirtyRegion]: the region is first clipped to the bounds
    of [b], that is, its left and top edges are raised to 0 and its
    right and bottom edges lowered to [b->width] and [b->height], so
    that its pixels are the pixels of the requested region that lie in
    the image; only if there is a previous buffer is
    [subtract(oldDirtyRegion, dirtyRegion)] used, and [copyBlt] is called
    (once, from the previous buffer into [b], with that region) only when
    the region is not empty and the previous buffer could be locked;
    whatever happens afterwards, the clipped region ends up in both
    [dirtyRegion] and [oldDirtyRegion].  For the regions
    [(0,0,100,100)] and [(0,0,50,100)] the copy-back region is exactly
    [(50,0,100,100)]. *)
Theorem swapBuffers_copy_back pf s h b :
  buffer s = Some b -> Rect_isEmpty (dirtyRegion s) = false ->
  let clipped :=
    mkRect (Z.max (left (dirtyRegion s)) 0) (Z.max (top (dirtyRegion s)) 0)
           (Z.min (right (dirtyRegion s)) (Buf.width b))
           (Z.min (bottom (dirtyRegion s)) (Buf.height b)) in
  (forall x y, inside x y clipped <->
     inside x y (dirtyRegion s) /\ 0 <= x < Buf.width b /\ 0 <= y < Buf.height b) /\
  exists out s' h' copyBack,
    swapBuffers pf s h = (out, s', h') /\
    dirtyRegion s' = clipped /\ oldDirtyRegion s' = clipped /\
    subtract (oldDirtyRegion s) clipped = Some copyBack /\
    copyBlts h' =
      match previousBuffer s with
      | Some p =>
          if Region_isEmpty copyBack then []
          else
            let r := lock_answer pf h p (GRALLOC_USAGE_SW_READ_OFTEN pf) NULL in
            if r.1 =? FGL_NO_ERROR then [(b, bits s, p, r.2, copyBack)] else []
      | None => []
      end ++ copyBlts h /\
    (r ← subtract (mkRect 0 0 100 100) (mkRect 0 0 50 100); Region_rects r)
      = Some [mkRect 50 0 100 100].
Proof.
  intros Hb He clipped. split.
  { intros x y. unfold clipped, inside. cbn [left top right bottom]. lia. }
  rewrite (swapBuffers_unfold _ _ _ b Hb).
  destruct (copy_back_effect pf b s h) as (h1 & cb & -> & _ & Hcb & Hcopies).
  rewrite He in *. rewrite andSelf_clips in *. fold clipped in Hcb, Hcopies |- *.
  destruct (flip pf b (set_oldDirtyRegion clipped (set_dirtyRegion clipped s)) h1)
    as [[out s'] h'] eqn:Hf.
  apply flip_keeps_regions in Hf as (Hd & Ho & Hc).
  exists out, s', h', cb. split_and!; try done.
  by rewrite Hc, Hcopies.
Qed.

Lemma swapBuffers_copy_back_witness :
  exists s0 out s' h' copyBack,
    setSwapRectangle (-20) (-20) 70 320 mid_frame [] = (Returns EGL_TRUE, s0, []) /\
    dirtyRegion s0 = mkRect (-20) (-20) 50 300 /\
    oldDirtyRegion s0 = mkRect 0 0 100 100 /\
    swapBuffers double_buffered s0 [] = (out, s', h') /\
    dirtyRegion s' = mkRect 0 0 50 100 /\
    oldDirtyRegion s' = mkRect 0 0 50 100 /\
    Region_rects copyBack = Some [mkRect 50 0 100 100] /\
    copyBlts h' =
      [(frame 0 100 100, 0x100000, frame 1 100 100, 0x200000, copyBack)].
Proof.
  set (s0 := set_dirtyRegion (mkRect (-20) (-20) 50 300) mid_frame).
  destruct (swapBuffers_copy_back double_buffered s0 [] (frame 0 100 100)
              eq_refl eq_refl)
    as (_ & out & s' & h' & cb & Hs & Hd & Ho & Hcb & Hc & _).
  exists s0, out, s', h', cb. vm_compute in Hcb. injection Hcb as <-.
  split_and!; [reflexivity | reflexivity | reflexivity | exact Hs | exact Hd | exact Ho
              | reflexivity | exact Hc].
Defined.

(** [swapBuffers] on a surface whose [buffer] is null returns
    [EGL_FALSE], records [EGL_BAD_ACCESS] as the error and nothing else,
    and leaves the surface exactly as it was. *)
Lemma swapBuffers_without_buffer pf s h :
  buffer s = None ->
  exists h', swapBuffers pf s h = (Returns EGL_FALSE, s, h') /\
    h' = EvSetError EGL_BAD_ACCESS :: h /\ last_error h' = EGL_BAD_ACCESS.
Proof.
  intros H. eexists. split; [|split; reflexivity].
  unfold swapBuffers. run. by rewrite H.
Qed.

Lemma swapBuffers_fresh_or_disconnected :
  (exists h', swapBuffers double_buffered fresh [] = (Returns EGL_FALSE, fresh, h') /\
     h' = [EvSetError EGL_BAD_ACCESS] /\ last_error h' = EGL_BAD_ACCESS) /\
  (exists s h h', session double_buffered 1 fresh = Some (s, h) /\
     swapBuffers double_buffered s h = (Returns EGL_FALSE, s, h') /\
     h' = EvSetError EGL_BAD_ACCESS :: h /\ last_error h' = EGL_BAD_ACCESS).
Proof.
  split.
  - exact (swapBuffers_without_buffer double_buffered fresh [] eq_refl).
  - destruct (session double_buffered 1 fresh) as [[s h]|] eqn:Hs;
      [|vm_compute in Hs; discriminate Hs].
    assert (buffer s = None) as Hb by (vm_compute in Hs; by injection Hs as <- <-).
    destruct (swapBuffers_without_buffer double_buffered s h Hb) as (h' & H1 & H2 & H3).
    by exists s, h, h'.
Qed.

(** C10.  [swapBuffers] on a surface whose [connect()] has failed, so
    that no buffer is pinned.  With the allocator of this repository and
    a depth format, [connect()] fails with [EGL_BAD_ALLOC] after it has
    dequeued a buffer; with a gralloc module that refuses the lock it
    fails with [EGL_BAD_ACCESS].  Either way it leaves the dequeued
    buffer in [buffer], no buffer is pinned and [bits] is null.
    [swapBuffers()] called then does not take the [!buffer] exit: it
    returns [EGL_TRUE], sets no error ([eglGetError] would still read
    the error of [connect()]), hands the buffer to [queueBuffer], and
    changes [previousBuffer] and [bits]. *)
Theorem swapBuffers_after_failed_connect :
  (exists s1 h1 b s2 h2,
     connect resized fresh_with_depth [] = (Returns EGL_FALSE, s1, h1) /\
     last_error h1 = EGL_BAD_ALLOC /\
     buffer s1 = Some b /\ bits s1 = NULL /\ (forall b', pinned b' h1 = 0) /\
     swapBuffers resized s1 h1 = (Returns EGL_TRUE, s2, h2) /\
     last_error h2 = EGL_BAD_ALLOC /\
     previousBuffer s1 = None /\ previousBuffer s2 = Some b /\
     bits s2 <> bits s1 /\ queued h2 = [Some b]) /\
  (exists s1 h1 b s2 h2,
     connect lock_refused_once fresh [] = (Returns EGL_FALSE, s1, h1) /\
     last_error h1 = EGL_BAD_ACCESS /\
     buffer s1 = Some b /\ bits s1 = NULL /\ (forall b', pinned b' h1 = 0) /\
     swapBuffers lock_refused_once s1 h1 = (Returns EGL_TRUE, s2, h2) /\
     last_error h2 = EGL_BAD_ACCESS /\
     previousBuffer s1 = None /\ previousBuffer s2 = Some b /\
     bits s2 <> bits s1 /\ queued h2 = [Some b]).
Proof.
  split.
  - eexists _, _, _, _, _. split; [vm_compute; reflexivity|].
    split_and!; try reflexivity; try done.
  - eexists _, _, _, _, _. split; [vm_compute; reflexivity|].
    split_and!; try reflexivity; try done.
Qed.

Lemma flip_resize pf b s h out s' h' nb :
  flip pf b s h = (out, s', h') -> buffer s' = Some nb ->
  width s <> Buf.width nb \/ height s <> Buf.height nb ->
  width s' = Buf.width nb /\ height s' = Buf.height nb /\
  ((Plane.data (depth s) = NULL /\ depth s' = depth s /\
    heap_calls h' = heap_calls h) \/
   (Plane.data (depth s) <> NULL /\
    exists p,
      heap_calls h' =
        EvAlloc (size_t (uint32 (uint32 (Buf.stride nb) * uint32 (Buf.height nb) * 4))) p
          :: EvFree (Plane.data (depth s)) :: heap_calls h /\
      depth s' = Plane.mk (Plane.version (depth s)) (uint32 (Buf.width nb))
                   (uint32 (Buf.height nb)) (uint32 (Buf.stride nb)) p
                   (Plane.format (depth s)) /\
      (p <> NULL \/ (out = Returns EGL_FALSE /\ last_error h' = EGL_BAD_ALLOC)))).
Proof.
  destruct s as [mg dp cf cx de nw bu pb mo bl wi he bi dr od].
  unfold flip, reallocate_depth. repeat step.
  all: intros [= <- <- <-]; fields; cbn [heap_calls last_error].
  all: try discriminate.
  all: intros [= ->] Hdim.
  all: repeat match goal with
         | H : (_ || _) = false |- _ => apply orb_false_iff in H as [? ?]
         | H : negb _ = false |- _ => apply negb_false_iff in H
         | H : negb _ = true |- _ => apply negb_true_iff in H
         | H : (_ =? _) = true |- _ => apply Z.eqb_eq in H
         | H : (_ =? _) = false |- _ => apply Z.eqb_neq in H
         end.
  all: try (exfalso; lia).
  all: split_and!; try done.
  all: first [ by left | right; split; [done|]; eexists; split_and!; try reflexivity ].
  all: destruct de; fields; try done; try (right; done); try (by left).
Qed.

(** C7, amended.  When [swapBuffers] on a surface with a current buffer
    leaves [nb] as the new current buffer and [nb]'s width or height
    differs from the recorded ones: the recorded width and height become
    those of [nb]; if the depth plane holds no memory it is left alone
    and the allocator is not called; otherwise the old block is freed
    first, a block of [stride * height * 4] bytes is requested, the plane
    takes [nb]'s width, height and stride and whatever the allocator
    returned, and when that is [NULL] the call returns [EGL_FALSE] with
    [EGL_BAD_ALLOC] as the error. *)
Theorem swapBuffers_resize pf s h b out s' h' nb :
  buffer s = Some b ->
  swapBuffers pf s h = (out, s', h') -> buffer s' = Some nb ->
  width s <> Buf.width nb \/ height s <> Buf.height nb ->
  width s' = Buf.width nb /\ height s' = Buf.height nb /\
  ((Plane.data (depth s) = NULL /\ depth s' = depth s /\
    heap_calls h' = heap_calls h) \/
   (Plane.data (depth s) <> NULL /\
    exists p,
      heap_calls h' =
        EvAlloc (size_t (uint32 (uint32 (Buf.stride nb) * uint32 (Buf.height nb) * 4))) p
          :: EvFree (Plane.data (depth s)) :: heap_calls h /\
      depth s' = Plane.mk (Plane.version (depth s)) (uint32 (Buf.width nb))
                   (uint32 (Buf.height nb)) (uint32 (Buf.stride nb)) p
                   (Plane.format (depth s)) /\
      (p <> NULL \/ (out = Returns EGL_FALSE /\ last_error h' = EGL_BAD_ALLOC)))).
Proof.
  intros Hb. rewrite (swapBuffers_unfold _ _ _ b Hb).
  destruct (copy_back_effect pf b s h) as (h1 & cb & -> & Hq & _ & _).
  destruct Hq as (_ & _ & _ & _ & _ & Hheap & _).
  intros Hf Hnb Hdim. rewrite <- Hheap.
  set (s1 := if Rect_isEmpty (dirtyRegion s) then s else _) in Hf.
  assert (width s1 = width s /\ height s1 = height s /\ depth s1 = depth s)
    as (Hw & Hh & Hd) by (subst s1; by destruct (Rect_isEmpty (dirtyRegion s))).
  rewrite <- Hw, <- Hh, <- Hd in *.
  by apply (flip_resize pf b s1 h1 out s' h' nb).
Qed.

Lemma swapBuffers_resize_witness :
  exists out s' h',
    swapBuffers resized mid_frame [] = (out, s', h') /\
    width s' = 200 /\ height s' = 100 /\
    heap_calls h' = [EvAlloc 80000 NULL; EvFree 0x5000] /\
    depth s' = Plane.mk 24 200 100 200 NULL 1 /\
    out = Returns EGL_FALSE /\ last_error h' = EGL_BAD_ALLOC.
Proof.
  destruct (swapBuffers resized mid_frame []) as [[out s'] h'] eqn:Hs.
  pose proof (swapBuffers_resize resized mid_frame [] (frame 0 100 100) out s' h'
                (frame 1 200 100) eq_refl Hs) as H.
  vm_compute in Hs. injection Hs as <- <- <-.
  destruct H as (Hw & Hh & [(Hn & _)|(_ & p & Hheap & Hd & Hp)]);
    [reflexivity | left; cbn; lia | discriminate Hn |].
  eexists _, _, _. split; [reflexivity|].
  split_and!; try reflexivity.
Defined.

(** C7, as stated, fails: the window was resized to 200 x 100 and the
    allocator has no memory; [swapBuffers] reports [EGL_BAD_ALLOC], but
    the surface is not what it was: the depth plane it held is gone, the
    recorded width is the new one, and both buffer pointers moved. *)
Lemma resize_failure_loses_state :
  exists s' h',
    swapBuffers resized mid_frame [] = (Returns EGL_FALSE, s', h') /\
    last_error h' = EGL_BAD_ALLOC /\
    Plane.data (depth mid_frame) <> NULL /\ Plane.data (depth s') = NULL /\
    width mid_frame = 100 /\ width s' = 200 /\
    buffer s' <> buffer mid_frame /\ previousBuffer s' <> previousBuffer mid_frame /\
    s' <> mid_frame.
Proof.
  eexists _, _. split; [vm_compute; reflexivity|].
  split_and!; try reflexivity; discriminate.
Qed.

(* ---------------------------------------------------------------- *)
(** ** Pbuffers *)

Ltac pfields :=
  cbn [Pbuffer.magic Pbuffer.dpy Pbuffer.config Pbuffer.ctx Pbuffer.depth
       Pbuffer.pbuffer Pbuffer.set_depth Pbuffer.set_pbuffer Pbuffer.set_version
       Pbuffer.set_format
       set_plane_width set_plane_height set_plane_stride set_plane_data
       Plane.version Plane.width Plane.height Plane.stride Plane.data Plane.format
       fst snd negb] in *.

(** Whatever the format, the colour plane ends up holding what the
    allocator returned for the size computed before the [switch]. *)
Lemma pbuffer_data_is_allocation pf raw h dpy_ config_ depthFormat w h0 f :
  exists s h',
    Pbuffer.FGLPbufferSurface_new pf dpy_ config_ depthFormat w h0 f raw h
      = (Returns tt, s, h') /\
    (Pbuffer.recognized pf f = true \/
     (Plane.data (Pbuffer.pbuffer s)
        = fimgAllocMemory_answer pf h (size_t (int32 (w * h0))) /\
      Pbuffer.initCheck s
        = negb (fimgAllocMemory_answer pf h (size_t (int32 (w * h0))) =? 0))).
Proof.
  destruct raw as [mg dp cf cx de pb].
  unfold Pbuffer.FGLPbufferSurface_new, Pbuffer.FGLSurface_new, Pbuffer.recognized,
    Pbuffer.initCheck.
  repeat first [ progress run | progress pfields
               | match goal with
                 | |- context [if ?x then _ else _] => destruct x eqn:?
                 end ].
  all: eexists _, _; (split; [reflexivity|]); pfields; cbn [orb]; auto.
Qed.

(** The store of 0 in the default case of the [switch] does not last:
    with an allocator that finds memory, a pbuffer of the format 99 ends
    with the block the allocator returned for [4 * 4] bytes. *)
Lemma pbuffer_allocation_not_guarded :
  let raw := Pbuffer.mk 0 0 0 0 (Plane.mk 0 0 0 0 0 0) (Plane.mk 0 0 0 0 0 0) in
  Pbuffer.recognized double_buffered 99 = false /\
  exists s h,
    Pbuffer.FGLPbufferSurface_new double_buffered 1 0 0 4 4 99 raw []
      = (Returns tt, s, h) /\
    h = [EvAlloc 16 0x5000] /\
    Plane.data (Pbuffer.pbuffer s) = 0x5000 /\
    Pbuffer.initCheck s = true.
Proof.
  cbn zeta. split; [reflexivity|].
  eexists _, _. split; [vm_compute; reflexivity|]. by split_and!.
Qed.

(** C8.  With [fimgAllocMemory] as this repository has it, constructing
    a pbuffer with a format that is none of [A_8], [RGB_565],
    [RGBA_8888], [RGBX_8888] returns (nothing is thrown, no crash), the
    data pointer of the colour plane is null and [initCheck()] answers
    [false]; whatever the storage held before, the display, the
    configuration, the depth format and the size. *)
Theorem pbuffer_unsupported_format pf raw h dpy_ config_ depthFormat w h0 f :
  fimgAllocMemory_answer pf = placeholder_alloc ->
  Pbuffer.recognized pf f = false ->
  exists s h',
    Pbuffer.FGLPbufferSurface_new pf dpy_ config_ depthFormat w h0 f raw h
      = (Returns tt, s, h') /\
    Plane.data (Pbuffer.pbuffer s) = NULL /\
    Pbuffer.initCheck s = false.
Proof.
  intros Ha Hf.
  destruct (pbuffer_data_is_allocation pf raw h dpy_ config_ depthFormat w h0 f)
    as (s & h' & Hrun & [Hr|[Hd Hi]]); [congruence|].
  exists s, h'. rewrite Hd, Hi, Ha. by split_and!.
Qed.

Lemma pbuffer_unsupported_format_witness :
  let raw := Pbuffer.mk 0 0 0 0 (Plane.mk 0 0 0 0 0 0) (Plane.mk 0 0 0 0 0 0) in
  exists s h',
    Pbuffer.FGLPbufferSurface_new resized 1 0 0 4 4 99 raw [] = (Returns tt, s, h') /\
    Plane.data (Pbuffer.pbuffer s) = NULL /\
    Pbuffer.initCheck s = false.
Proof.
  intros raw.
  exact (pbuffer_unsupported_format resized raw [] 1 0 0 4 4 99 eq_refl eq_refl).
Defined.

(** With the allocator as shipped, no pbuffer passes [initCheck], whatever
    its format. *)
Lemma pbuffer_placeholder_alloc pf raw h dpy_ config_ depthFormat w h0 f s h' :
  fimgAllocMemory_answer pf = placeholder_alloc ->
  Pbuffer.FGLPbufferSurface_new pf dpy_ config_ depthFormat w h0 f raw h
    = (Returns tt, s, h') ->
  Pbuffer.initCheck s = false.
Proof.
  intros Ha. destruct raw as [mg dp cf cx de pb].
  unfold Pbuffer.FGLPbufferSurface_new, Pbuffer.FGLSurface_new, Pbuffer.initCheck.
  repeat first [ progress run | progress pfields
               | match goal with
                 | |- context [if ?x then _ else _] => destruct x eqn:?
                 end ].
  all: intros [= <- <-]; pfields; by rewrite Ha.
Qed.

(* ---------------------------------------------------------------- *)
(** ** The manual copy *)

Lemma int32_small z : in_int32 z -> int32 z = z.
Proof. unfold in_int32, int32. intros H. rewrite Z.mod_small; lia. Qed.

Lemma size_t_small z : 0 <= z < 2 ^ 32 -> size_t z = z.
Proof. unfold size_t. intros H. by rewrite Z.mod_small. Qed.

Lemma size_t_nonneg z : 0 <= size_t z < 2 ^ 32.
Proof. unfold size_t. apply Z.mod_pos_bound. lia. Qed.

Lemma triple_eq (a a' b b' c c' : Z) :
  a = a' -> b = b' -> c = c' -> (a, b, c) = (a', b', c').
Proof. by intros -> -> ->. Qed.

Lemma copy_rows_one mem c d s size dbpr sbpr :
  copy_rows 1 mem c d s size dbpr sbpr 1 = Some (memcpy mem c d s size).
Proof. reflexivity. Qed.

(** The loop runs [h] times, and what it touches is one slice per row. *)
Lemma copy_rows_spec mem size dbpr sbpr k : forall c d s,
  exists c',
    copy_rows (S k) mem c d s size dbpr sbpr (Z.of_nat (S k)) = Some c' /\
    (forall e, In e (accesses c') <->
       In e (accesses c) \/
       exists i, 0 <= i < Z.of_nat (S k) /\ e = (d + i * dbpr, s + i * sbpr, size)) /\
    (forall a, pixels c' a <> pixels c a ->
       exists i, 0 <= i < Z.of_nat (S k) /\ d + i * dbpr <= a < d + i * dbpr + size).
Proof.
  induction k as [|k IH]; intros c d s.
  - eexists. split; [reflexivity|]. split.
    + intros e. cbn. split.
      * intros [<-|H]; [|by left]. right. exists 0. split; [lia|]. apply triple_eq; lia.
      * intros [H|(i & Hi & ->)]; [by right|]. left.
        assert (i = 0) as -> by lia. apply triple_eq; lia.
    + intros a. cbn.
      destruct ((d <=? a) && (a <? d + size)) eqn:E; [|done].
      intros _. exists 0. apply andb_true_iff in E as [?%Z.leb_le ?%Z.ltb_lt]. lia.
  - specialize (IH (memcpy mem c d s size) (d + dbpr) (s + sbpr)).
    destruct IH as (c' & Hrun & Hacc & Hpix).
    exists c'. split; [|split].
    + change (copy_rows (S (S k)) mem c d s size dbpr sbpr (Z.of_nat (S (S k))))
        with (let h' := Z.of_nat (S (S k)) - 1 in
              if h' >? 0
              then copy_rows (S k) mem (memcpy mem c d s size) (d + dbpr) (s + sbpr)
                     size dbpr sbpr h'
              else Some (memcpy mem c d s size)).
      cbn zeta. replace (Z.of_nat (S (S k)) - 1) with (Z.of_nat (S k)) by lia.
      destruct (Z.gtb_spec (Z.of_nat (S k)) 0); [done|lia].
    + intros e. rewrite Hacc. cbn [accesses memcpy In]. split.
      * intros [[<-|H]|(i & Hi & ->)].
        -- right. exists 0. split; [lia|]. apply triple_eq; lia.
        -- by left.
        -- right. exists (i + 1). split; [lia|]. apply triple_eq; lia.
      * intros [H|(i & Hi & ->)]; [left; by right|].
        destruct (decide (i = 0)) as [->|Hne].
        -- left. left. apply triple_eq; lia.
        -- right. exists (i - 1). split; [lia|]. apply triple_eq; lia.
    + intros a Hne.
      destruct (Byte.byte_eq_dec (pixels c' a) (pixels (memcpy mem c d s size) a)) as [Heq|Hd].
      * rewrite Heq in Hne. cbn in Hne.
        destruct ((d <=? a) && (a <? d + size)) eqn:E; [|done].
        exists 0. apply andb_true_iff in E as [?%Z.leb_le ?%Z.ltb_lt]. lia.
      * destruct (Hpix a Hd) as (i & Hi & Ha). exists (i + 1). lia.
Qed.

(** With rows that follow one another without gap, the loop copies one
    contiguous block. *)
Lemma copy_rows_contiguous mem size k : forall c d s,
  0 <= size ->
  exists c',
    copy_rows (S k) mem c d s size size size (Z.of_nat (S k)) = Some c' /\
    forall a, pixels c' a =
      if (d <=? a) && (a <? d + size * Z.of_nat (S k))
      then mem (s + (a - d)) else pixels c a.
Proof.
  induction k as [|k IH]; intros c d s Hsize.
  - eexists. split; [reflexivity|]. intros a. cbn [pixels memcpy].
    by replace (size * Z.of_nat 1) with size by lia.
  - specialize (IH (memcpy mem c d s size) (d + size) (s + size) Hsize).
    destruct IH as (c' & Hrun & Hpix).
    exists c'. split.
    + change (copy_rows (S (S k)) mem c d s size size size (Z.of_nat (S (S k))))
        with (let h' := Z.of_nat (S (S k)) - 1 in
              if h' >? 0
              then copy_rows (S k) mem (memcpy mem c d s size) (d + size) (s + size)
                     size size size h'
              else Some (memcpy mem c d s size)).
      cbn zeta. replace (Z.of_nat (S (S k)) - 1) with (Z.of_nat (S k)) by lia.
      destruct (Z.gtb_spec (Z.of_nat (S k)) 0); [done|lia].
    + intros a. rewrite Hpix. cbn [pixels memcpy].
      repeat match goal with
             | |- context [?x <=? ?y] => destruct (Z.leb_spec x y)
             | |- context [?x <? ?y] => destruct (Z.ltb_spec x y)
             end; cbn [andb]; try reflexivity; try (f_equal; lia); try nia.
Qed.

Lemma to_nat_succ h : 0 < h -> exists k, Z.to_nat h = S k /\ h = Z.of_nat (S k).
Proof. intros H. exists (Z.to_nat (h - 1)). lia. Qed.

Lemma copy_row_memcpy mem c d s size a :
  pixels (memcpy mem c d s size) a = copy_row mem (pixels c) d s size a.
Proof.
  unfold copy_row. cbn [pixels memcpy].
  destruct (Z.leb_spec d a), (Z.ltb_spec a (d + size)); cbn [andb];
    case_decide; first [reflexivity | lia].
Qed.

Lemma copy_row_ext mem m m' d s size a :
  m a = m' a -> copy_row mem m d s size a = copy_row mem m' d s size a.
Proof. unfold copy_row. intros ->. done. Qed.

Section Rows.

Context (mem : Memory) (dstride sstride bpp l r : Z).


Lemma rows_ext ys : forall m m' a,
  m a = m' a -> foldl (copy_pixel_row mem dstride sstride bpp l r) m ys a = foldl (copy_pixel_row mem dstride sstride bpp l r) m' ys a.
Proof.
  induction ys as [|y ys IH]; intros m m' a H; [done|]. cbn [foldl].
  apply IH. unfold copy_pixel_row. by apply copy_row_ext.
Qed.

(** What the rows from [t] on, [n] of them, leave at [a]: the source
    byte of the last row that holds [a], or what was there. *)
Lemma rows_spec (n : nat) : forall t m a,
  (forall y, t <= y < t + Z.of_nat n -> in_pixel_row dstride bpp l r y a ->
     (forall y', y < y' < t + Z.of_nat n -> ~ in_pixel_row dstride bpp l r y' a) ->
     foldl (copy_pixel_row mem dstride sstride bpp l r) m (seqZ t (Z.of_nat n)) a
       = mem ((l + sstride * y) * bpp + (a - (l + dstride * y) * bpp))) /\
  ((forall y, t <= y < t + Z.of_nat n -> ~ in_pixel_row dstride bpp l r y a) ->
   foldl (copy_pixel_row mem dstride sstride bpp l r) m (seqZ t (Z.of_nat n)) a = m a).
Proof.
  induction n as [|n IH]; intros t m a.
  { split; [intros y Hy; lia | done]. }
  replace (Z.of_nat (S n)) with (Z.of_nat n + 1) by lia.
  rewrite seqZ_app by lia. rewrite foldl_app.
  change (seqZ (t + Z.of_nat n) 1) with [t + Z.of_nat n]. cbn [foldl].
  destruct (IH t m a) as [IH1 IH2].
  unfold copy_pixel_row at 1 3. unfold copy_row, in_pixel_row in *.
  split.
  - intros y Hy Hin Hlast. case_decide as Hrow.
    + destruct (decide (y = t + Z.of_nat n)) as [->|Hne]; [done|].
      exfalso. apply (Hlast (t + Z.of_nat n)); [lia|done].
    + apply (IH1 y); [|done|].
      * destruct (decide (y = t + Z.of_nat n)) as [->|Hne]; [done|lia].
      * intros y' Hy'. apply Hlast. lia.
  - intros Hnone. case_decide as Hrow.
    + exfalso. apply (Hnone (t + Z.of_nat n)); [lia|done].
    + apply IH2. intros y Hy. apply Hnone. lia.
Qed.

End Rows.

Lemma copy_rows_rows mem dstride sstride bpp l r k : forall c t,
  exists c',
    copy_rows (S k) mem c ((l + dstride * t) * bpp) ((l + sstride * t) * bpp)
      ((r - l) * bpp) (dstride * bpp) (sstride * bpp) (Z.of_nat (S k)) = Some c' /\
    forall a, pixels c' a
      = foldl (copy_pixel_row mem dstride sstride bpp l r) (pixels c)
          (seqZ t (Z.of_nat (S k))) a.
Proof.
  induction k as [|k IH]; intros c t.
  - eexists. split; [reflexivity|]. intros a.
    change (seqZ t (Z.of_nat 1)) with [t]. cbn [foldl].
    apply copy_row_memcpy.
  - set (c1 := memcpy mem c ((l + dstride * t) * bpp) ((l + sstride * t) * bpp)
                 ((r - l) * bpp)).
    destruct (IH c1 (t + 1)) as (c' & Hrun & Hpix).
    exists c'. split.
    + change (copy_rows (S (S k)) mem c ((l + dstride * t) * bpp)
                ((l + sstride * t) * bpp) ((r - l) * bpp) (dstride * bpp)
                (sstride * bpp) (Z.of_nat (S (S k))))
        with (let h' := Z.of_nat (S (S k)) - 1 in
              if h' >? 0
              then copy_rows (S k) mem c1 ((l + dstride * t) * bpp + dstride * bpp)
                     ((l + sstride * t) * bpp + sstride * bpp)
                     ((r - l) * bpp) (dstride * bpp) (sstride * bpp) h'
              else Some c1).
      cbn zeta. replace (Z.of_nat (S (S k)) - 1) with (Z.of_nat (S k)) by lia.
      destruct (Z.gtb_spec (Z.of_nat (S k)) 0); [|lia].
      replace ((l + dstride * t) * bpp + dstride * bpp)
        with ((l + dstride * (t + 1)) * bpp) by lia.
      replace ((l + sstride * t) * bpp + sstride * bpp)
        with ((l + sstride * (t + 1)) * bpp) by lia.
      exact Hrun.
    + intros a. rewrite Hpix.
      replace (Z.of_nat (S (S k))) with (Z.succ (Z.of_nat (S k))) by lia.
      rewrite (seqZ_cons t) by lia. rewrite Z.pred_succ.
      replace (Z.succ t) with (t + 1) by lia. cbn [foldl].
      apply rows_ext. apply copy_row_memcpy.
Qed.

Lemma in_pixel_row_rect_byte stride bpp r y a :
  0 < bpp -> top r <= y < bottom r ->
  in_pixel_row stride bpp (left r) (right r) y a -> rect_byte stride bpp r a.
Proof.
  unfold in_pixel_row. intros Hb Hy Ha.
  set (j := a - (left r + stride * y) * bpp).
  exists (left r + j / bpp), y, (j mod bpp).
  pose proof (Z.div_mod j bpp ltac:(lia)).
  pose proof (Z.mod_pos_bound j bpp ltac:(lia)).
  assert (0 <= j / bpp) by (apply Z.div_pos; lia).
  assert (j / bpp < right r - left r) by (apply Z.div_lt_upper_bound; lia).
  split_and!; try lia.
Qed.

(** Row by row, every byte of every pixel of a rectangle that is not
    wider than the destination rows comes from the same pixel of the
    source, and no other byte changes. *)
Lemma row_by_row_pixels bpp dst src mem m r :
  0 <= bpp -> left r <= right r -> right r - left r <= Buf.stride dst ->
  (forall x y k, left r <= x < right r -> top r <= y < bottom r -> 0 <= k < bpp ->
     row_by_row bpp dst src mem m r ((x + Buf.stride dst * y) * bpp + k)
     = mem ((x + Buf.stride src * y) * bpp + k)) /\
  (forall a, ~ rect_byte (Buf.stride dst) bpp r a ->
     row_by_row bpp dst src mem m r a = m a).
Proof.
  intros Hbpp Hlr Hw. unfold row_by_row.
  destruct (decide (bottom r - top r <= 0)) as [Hz|Hpos].
  { rewrite seqZ_nil by lia. split; [intros; lia | done]. }
  replace (bottom r - top r) with (Z.of_nat (Z.to_nat (bottom r - top r))) by lia.
  split.
  - intros x y k Hx Hy Hk.
    destruct (rows_spec mem (Buf.stride dst) (Buf.stride src) bpp (left r) (right r)
                (Z.to_nat (bottom r - top r)) (top r) m
                ((x + Buf.stride dst * y) * bpp + k)) as [H1 _].
    rewrite (H1 y).
    + f_equal. lia.
    + lia.
    + unfold in_pixel_row. nia.
    + intros y' Hy'. unfold in_pixel_row. intros [Hlo _].
      assert (Buf.stride dst <= Buf.stride dst * (y' - y)) by nia.
      assert (1 <= left r + Buf.stride dst * y' - (x + Buf.stride dst * y)) by lia.
      assert (bpp <= (left r + Buf.stride dst * y' - (x + Buf.stride dst * y)) * bpp)
        by nia.
      lia.
  - intros a Ha.
    destruct (rows_spec mem (Buf.stride dst) (Buf.stride src) bpp (left r) (right r)
                (Z.to_nat (bottom r - top r)) (top r) m a) as [_ H2].
    apply H2. intros y Hy Hin. apply Ha.
    assert (0 < bpp) by (unfold in_pixel_row in Hin; nia).
    apply (in_pixel_row_rect_byte _ _ _ y); [done|lia|done].
Qed.

Section ManualCopy.

Context (pf : Platform) (dst src : Buf.t) (mem : Memory).

Lemma copy_rect_skips c r :
  int32 (right r - left r) <= 0 \/ int32 (bottom r - top r) <= 0 ->
  copy_rect pf dst src mem c r = Some c.
Proof.
  intros H. unfold copy_rect. cbn zeta.
  destruct (Z.leb_spec (int32 (right r - left r)) 0),
    (Z.leb_spec (int32 (bottom r - top r)) 0); cbn [orb]; try reflexivity. lia.
Qed.

(** Inside both images the loop body does what the copy row by row
    does, with one [memcpy] when the rows follow one another. *)
Lemma copy_rect_rows c r :
  let bpp := size_t (getBpp pf (Buf.format src)) in
  fits bpp dst r -> fits bpp src r ->
  exists c',
    copy_rect pf dst src mem c r = Some c' /\
    (forall a, pixels c' a = row_by_row bpp dst src mem (pixels c) r a) /\
    (Buf.stride dst * bpp = Buf.stride src * bpp ->
     (right r - left r) * bpp = Buf.stride src * bpp ->
     0 < right r - left r -> 0 < bottom r - top r ->
     accesses c' =
       ((left r + Buf.stride dst * top r) * bpp,
        (left r + Buf.stride src * top r) * bpp,
        (right r - left r) * bpp * (bottom r - top r)) :: accesses c).
Proof.
  intros bpp (Hl & Hr & Ht & Hb & Hbpp & Hbytes & Hpix)
         (_ & Hr' & _ & Hb' & _ & Hbytes' & Hpix').
  set (W := right r - left r). set (H := bottom r - top r).
  destruct (decide (H <= 0)) as [Hz|Hpos].
  { exists c. split_and!.
    - apply copy_rect_skips. right.
      replace (bottom r - top r) with 0 by (unfold H in *; lia). done.
    - intros a. unfold row_by_row. fold H. by rewrite seqZ_nil by lia.
    - intros; lia. }
  destruct (decide (W <= 0)) as [Hz|Hwpos].
  { exists c. split_and!.
    - apply copy_rect_skips. left.
      replace (right r - left r) with 0 by (unfold W in *; lia). done.
    - intros a. symmetry.
      apply (row_by_row_pixels bpp dst src mem (pixels c) r); [lia|lia|unfold W in *; lia|].
      intros (x & y & k & Hx & _). unfold W in *. lia.
    - intros; lia. }
  assert (1 <= Buf.height dst /\ 1 <= Buf.height src) as [Hhd Hhs] by (unfold H in *; lia).
  assert (1 <= Buf.stride dst /\ 1 <= Buf.stride src) as [Hsd Hss] by (unfold W in *; lia).
  assert (Buf.stride dst < 2 ^ 31 /\ Buf.stride src < 2 ^ 31) as [Hsd' Hss'] by nia.
  assert (Buf.height dst < 2 ^ 31 /\ Buf.height src < 2 ^ 31) as [Hhd' Hhs'] by nia.
  assert (int32 (right r - left r) = W) as EW
    by (apply int32_small; unfold in_int32, W; lia).
  assert (int32 (bottom r - top r) = H) as EH
    by (apply int32_small; unfold in_int32, H; lia).
  assert (0 <= Buf.stride src * top r < 2 ^ 31) by (unfold H in *; nia).
  assert (0 <= Buf.stride dst * top r < 2 ^ 31) by (unfold H in *; nia).
  assert (0 <= left r + Buf.stride src * top r < Buf.stride src * Buf.height src)
    by (unfold H, W in *; nia).
  assert (0 <= left r + Buf.stride dst * top r < Buf.stride dst * Buf.height dst)
    by (unfold H, W in *; nia).
  assert (0 <= Buf.stride src * bpp <= Buf.stride src * Buf.height src * bpp) by nia.
  assert (0 <= Buf.stride dst * bpp <= Buf.stride dst * Buf.height dst * bpp) by nia.
  assert (0 <= W * bpp <= Buf.stride src * bpp) by (unfold W in *; nia).
  assert (0 <= W * bpp * H <= Buf.stride src * Buf.height src * bpp)
    by (unfold H, W in *; nia).
  assert (0 <= (left r + Buf.stride src * top r) * bpp
          <= Buf.stride src * Buf.height src * bpp) by nia.
  assert (0 <= (left r + Buf.stride dst * top r) * bpp
          <= Buf.stride dst * Buf.height dst * bpp) by nia.
  unfold copy_rect. cbn zeta. fold bpp. rewrite EW, EH.
  destruct (Z.leb_spec W 0); [lia|]. destruct (Z.leb_spec H 0); [lia|]. cbn [orb andb].
  rewrite (int32_small (Buf.stride src * top r)) by (unfold in_int32; lia).
  rewrite (int32_small (Buf.stride dst * top r)) by (unfold in_int32; lia).
  rewrite (int32_small (left r + Buf.stride src * top r)) by (unfold in_int32; lia).
  rewrite (int32_small (left r + Buf.stride dst * top r)) by (unfold in_int32; lia).
  rewrite (size_t_small (Buf.stride src * bpp)) by lia.
  rewrite (size_t_small (Buf.stride dst * bpp)) by lia.
  rewrite (size_t_small (W * bpp)) by lia.
  rewrite (size_t_small ((left r + Buf.stride src * top r) * bpp)) by lia.
  rewrite (size_t_small ((left r + Buf.stride dst * top r) * bpp)) by lia.
  set (s := (left r + Buf.stride src * top r) * bpp).
  set (d := (left r + Buf.stride dst * top r) * bpp).
  destruct (to_nat_succ H ltac:(lia)) as (k & Hnat & Hk).
  destruct (copy_rows_rows mem (Buf.stride dst) (Buf.stride src) bpp (left r) (right r)
              k c (top r)) as (c2 & Hrows & Hfold).
  fold W s d in Hrows. rewrite <- Hk in Hrows, Hfold.
  assert (forall a, pixels c2 a = row_by_row bpp dst src mem (pixels c) r a) as Href
    by (intros a; by rewrite Hfold).
  destruct ((Buf.stride dst * bpp =? Buf.stride src * bpp) &&
            (W * bpp =? Buf.stride src * bpp)) eqn:Hc.
  - apply andb_true_iff in Hc as [Hp%Z.eqb_eq Hf%Z.eqb_eq].
    rewrite (size_t_small (W * bpp * H)) by lia.
    change (Z.to_nat 1) with 1%nat. rewrite copy_rows_one.
    eexists. split_and!; [reflexivity| |intros; reflexivity].
    intros a. rewrite <- Href.
    destruct (copy_rows_contiguous mem (W * bpp) k c d s) as (c3 & Hrun3 & Hpix3); [lia|].
    rewrite Hp, <- Hf, Hk in Hrows. rewrite Hrun3 in Hrows. injection Hrows as ->.
    rewrite Hpix3. cbn [pixels memcpy]. by rewrite <- Hk.
  - rewrite Hnat, Hk. rewrite Hk in Hrows. rewrite Hrows.
    exists c2. split_and!; [reflexivity | exact Href |].
    intros Hp Hf. apply andb_false_iff in Hc as [Hc|Hc]; apply Z.eqb_neq in Hc;
      unfold W in *; lia.
Qed.

End ManualCopy.

Lemma rect_byte_row stride bpp r i j :
  0 < bpp -> 0 <= i < bottom r - top r -> 0 <= j < (right r - left r) * bpp ->
  rect_byte stride bpp r ((left r + stride * top r) * bpp + i * (stride * bpp) + j).
Proof.
  intros Hb Hi Hj. exists (left r + j / bpp), (top r + i), (j mod bpp).
  pose proof (Z.div_mod j bpp ltac:(lia)).
  pose proof (Z.mod_pos_bound j bpp ltac:(lia)).
  assert (0 <= j / bpp) by (apply Z.div_pos; lia).
  assert (j / bpp < right r - left r) by (apply Z.div_lt_upper_bound; lia).
  split_and!; try lia.
Qed.

Section InBounds.

Context (pf : Platform) (dst src : Buf.t) (mem : Memory).

Lemma copy_rect_in_bounds c r :
  let bpp := size_t (getBpp pf (Buf.format src)) in
  fits bpp dst r -> fits bpp src r ->
  exists c',
    copy_rect pf dst src mem c r = Some c' /\
    (forall d0 s0 n, In (d0, s0, n) (accesses c') ->
       In (d0, s0, n) (accesses c) \/
       forall k, 0 <= k < n ->
         rect_byte (Buf.stride dst) bpp r (d0 + k) /\
         rect_byte (Buf.stride src) bpp r (s0 + k)) /\
    (forall a, pixels c' a <> pixels c a -> rect_byte (Buf.stride dst) bpp r a).
Proof.
  intros bpp (Hl & Hr & Ht & Hb & Hbpp & Hbytes & Hpix)
         (_ & Hr' & _ & Hb' & _ & Hbytes' & Hpix').
  set (W := right r - left r). set (H := bottom r - top r).
  destruct (decide (H <= 0)) as [Hz|Hpos].
  { exists c. split; [|split; [by left | done]].
    apply copy_rect_skips. right.
    replace (bottom r - top r) with 0 by (unfold H in *; lia). done. }
  destruct (decide (W <= 0)) as [Hz|Hwpos].
  { exists c. split; [|split; [by left | done]].
    apply copy_rect_skips. left.
    replace (right r - left r) with 0 by (unfold W in *; lia). done. }
  assert (1 <= Buf.height dst /\ 1 <= Buf.height src) as [Hhd Hhs] by (unfold H in *; lia).
  assert (1 <= Buf.stride dst /\ 1 <= Buf.stride src) as [Hsd Hss] by (unfold W in *; lia).
  assert (Buf.stride dst < 2 ^ 31 /\ Buf.stride src < 2 ^ 31) as [Hsd' Hss'] by nia.
  assert (Buf.height dst < 2 ^ 31 /\ Buf.height src < 2 ^ 31) as [Hhd' Hhs'] by nia.
  assert (int32 (right r - left r) = W) as EW
    by (apply int32_small; unfold in_int32, W; lia).
  assert (int32 (bottom r - top r) = H) as EH
    by (apply int32_small; unfold in_int32, H; lia).
  assert (0 <= Buf.stride src * top r < 2 ^ 31) by (unfold H in *; nia).
  assert (0 <= Buf.stride dst * top r < 2 ^ 31) by (unfold H in *; nia).
  assert (0 <= left r + Buf.stride src * top r < Buf.stride src * Buf.height src)
    by (unfold H, W in *; nia).
  assert (0 <= left r + Buf.stride dst * top r < Buf.stride dst * Buf.height dst)
    by (unfold H, W in *; nia).
  assert (0 <= Buf.stride src * bpp <= Buf.stride src * Buf.height src * bpp) by nia.
  assert (0 <= Buf.stride dst * bpp <= Buf.stride dst * Buf.height dst * bpp) by nia.
  assert (0 <= W * bpp <= Buf.stride src * bpp) by (unfold W in *; nia).
  assert (0 <= W * bpp * H <= Buf.stride src * Buf.height src * bpp)
    by (unfold H, W in *; nia).
  assert (0 <= (left r + Buf.stride src * top r) * bpp
          <= Buf.stride src * Buf.height src * bpp) by nia.
  assert (0 <= (left r + Buf.stride dst * top r) * bpp
          <= Buf.stride dst * Buf.height dst * bpp) by nia.
  unfold copy_rect. cbn zeta. fold bpp. rewrite EW, EH.
  destruct (Z.leb_spec W 0); [lia|]. destruct (Z.leb_spec H 0); [lia|]. cbn [orb andb].
  rewrite (int32_small (Buf.stride src * top r)) by (unfold in_int32; lia).
  rewrite (int32_small (Buf.stride dst * top r)) by (unfold in_int32; lia).
  rewrite (int32_small (left r + Buf.stride src * top r)) by (unfold in_int32; lia).
  rewrite (int32_small (left r + Buf.stride dst * top r)) by (unfold in_int32; lia).
  rewrite (size_t_small (Buf.stride src * bpp)) by lia.
  rewrite (size_t_small (Buf.stride dst * bpp)) by lia.
  rewrite (size_t_small (W * bpp)) by lia.
  rewrite (size_t_small ((left r + Buf.stride src * top r) * bpp)) by lia.
  rewrite (size_t_small ((left r + Buf.stride dst * top r) * bpp)) by lia.
  set (s := (left r + Buf.stride src * top r) * bpp).
  set (d := (left r + Buf.stride dst * top r) * bpp).
  destruct ((Buf.stride dst * bpp =? Buf.stride src * bpp) &&
            (W * bpp =? Buf.stride src * bpp)) eqn:Hc.
  - apply andb_true_iff in Hc as [Hp%Z.eqb_eq Hf%Z.eqb_eq].
    rewrite (size_t_small (W * bpp * H)) by lia.
    change (Z.to_nat 1) with 1%nat. rewrite copy_rows_one.
    eexists. split; [reflexivity|].
    assert (forall k, 0 <= k < W * bpp * H ->
              rect_byte (Buf.stride dst) bpp r (d + k) /\
              rect_byte (Buf.stride src) bpp r (s + k)) as Hin.
    { intros k Hk. assert (0 < bpp) by nia. assert (0 < W * bpp) by nia.
      pose proof (Z.div_mod k (W * bpp) ltac:(lia)).
      pose proof (Z.mod_pos_bound k (W * bpp) ltac:(lia)).
      assert (0 <= k / (W * bpp)) by (apply Z.div_pos; lia).
      assert (k / (W * bpp) < H) by (apply Z.div_lt_upper_bound; lia).
      replace (d + k) with (d + k / (W * bpp) * (Buf.stride dst * bpp) + k mod (W * bpp))
        by (rewrite Hp, <- Hf; lia).
      replace (s + k) with (s + k / (W * bpp) * (Buf.stride src * bpp) + k mod (W * bpp))
        by (rewrite <- Hf; lia).
      split; apply rect_byte_row; unfold W, H in *; lia. }
    split.
    + intros d0 s0 n [[= <- <- <-]|Hold]; [right; exact Hin | by left].
    + intros a. cbn [pixels memcpy].
      destruct ((d <=? a) && (a <? d + W * bpp * H)) eqn:E; [|done].
      intros _. apply andb_true_iff in E as [?%Z.leb_le ?%Z.ltb_lt].
      replace a with (d + (a - d)) by lia. apply Hin. lia.
  - destruct (to_nat_succ H ltac:(lia)) as (k & -> & Hk). rewrite Hk.
    destruct (copy_rows_spec mem (W * bpp) (Buf.stride dst * bpp) (Buf.stride src * bpp)
                k c d s) as (c' & -> & Hacc & Hpx).
    exists c'. split; [reflexivity|].
    assert (forall i j, 0 <= i < H -> 0 <= j < W * bpp ->
              rect_byte (Buf.stride dst) bpp r (d + i * (Buf.stride dst * bpp) + j) /\
              rect_byte (Buf.stride src) bpp r (s + i * (Buf.stride src * bpp) + j)) as Hin.
    { intros i j Hi Hj. assert (0 < bpp) by nia.
      split; apply rect_byte_row; unfold W, H in *; lia. }
    split.
    + intros d0 s0 n Hn. apply Hacc in Hn as [Hold|(i & Hi & [= -> -> ->])]; [by left|].
      right. intros j Hj. apply Hin; lia.
    + intros a Ha. destruct (Hpx a Ha) as (i & Hi & Hrange).
      replace a with (d + i * (Buf.stride dst * bpp) + (a - d - i * (Buf.stride dst * bpp)))
        by lia.
      apply Hin; lia.
Qed.

End InBounds.

(** The loop over the region: when every rectangle lies inside both
    images the manual copy completes, and each [memcpy] it makes stays
    within the bytes of one rectangle of the region. *)
Lemma manual_copy_in_bounds pf dst src mem clip rs : forall c,
  let bpp := size_t (getBpp pf (Buf.format src)) in
  Region_rects clip = Some rs ->
  Forall (fits bpp dst) rs -> Forall (fits bpp src) rs ->
  exists c',
    manual_copy pf dst src mem c clip = Some c' /\
    forall d0 s0 n, In (d0, s0, n) (accesses c') ->
      In (d0, s0, n) (accesses c) \/
      exists r, In r rs /\ forall k, 0 <= k < n ->
        rect_byte (Buf.stride dst) bpp r (d0 + k) /\
        rect_byte (Buf.stride src) bpp r (s0 + k).
Proof.
  intros c bpp Hrs. unfold manual_copy. rewrite Hrs. cbn [mbind option_bind].
  clear Hrs. revert c. induction rs as [|r rs IH]; intros c Hd Hs.
  - exists c. split; [reflexivity|]. intros d0 s0 n H. by left.
  - inversion_clear Hd as [|? ? Hd1 Hds]. inversion_clear Hs as [|? ? Hs1 Hss].
    destruct (copy_rect_in_bounds pf dst src mem c r Hd1 Hs1) as (c1 & Hrun & Hacc & _).
    cbn [foldl mbind option_bind]. rewrite Hrun.
    destruct (IH c1 Hds Hss) as (c' & Hrest & Hacc').
    exists c'. split; [exact Hrest|].
    intros d0 s0 n Hin. destruct (Hacc' d0 s0 n Hin) as [Hold|(r' & Hr' & Hk)].
    + destruct (Hacc d0 s0 n Hold) as [|Hk]; [by left|].
      right. exists r. split; [by left | exact Hk].
    + right. exists r'. split; [by right | exact Hk].
Qed.

Lemma row_by_row_no_bytes dst src mem m r a : row_by_row 0 dst src mem m r a = m a.
Proof.
  unfold row_by_row.
  destruct (decide (0 <= bottom r - top r)) as [Hh|Hh]; [|by rewrite seqZ_nil by lia].
  rewrite <- (Z2Nat.id (bottom r - top r)) by lia.
  apply (rows_spec mem (Buf.stride dst) (Buf.stride src) 0 (left r) (right r)).
  intros y _. unfold in_pixel_row. lia.
Qed.

(** With the [getBpp] this repository ships every row is zero bytes
    wide: the loop body calls [memcpy] for no byte. *)
Lemma copy_rect_placeholder_bpp pf dst src mem c r :
  getBpp pf = placeholder_getBpp ->
  exists c', copy_rect pf dst src mem c r = Some c' /\
    (0 < int32 (right r - left r) -> 0 < int32 (bottom r - top r) ->
     accesses c' = (0, 0, 0) :: accesses c) /\
    (forall a, pixels c' a = row_by_row 0 dst src mem (pixels c) r a) /\
    (forall a, pixels c' a = pixels c a) /\
    (forall a, written c' a <-> written c a) /\
    (forall a, read_from c' a <-> read_from c a).
Proof.
  intros Hb. unfold copy_rect. cbn zeta. rewrite Hb. unfold placeholder_getBpp.
  change (size_t 0) with 0. rewrite !Z.mul_0_r. change (size_t 0) with 0.
  destruct ((int32 (right r - left r) <=? 0) || (int32 (bottom r - top r) <=? 0)) eqn:Hs.
  { exists c. split_and!; try done.
    - apply orb_true_iff in Hs as [?%Z.leb_le|?%Z.leb_le]; lia.
    - intros a. by rewrite row_by_row_no_bytes. }
  cbn [andb Z.eqb]. rewrite Z.mul_0_l. change (size_t 0) with 0.
  change (Z.to_nat 1) with 1%nat. rewrite copy_rows_one.
  eexists. split; [reflexivity|].
  assert (forall a, pixels (memcpy mem c 0 0 0) a = pixels c a) as Hsame.
  { intros a. cbn [pixels memcpy].
    destruct (Z.leb_spec 0 a), (Z.ltb_spec a (0 + 0)); cbn [andb]; try reflexivity; lia. }
  split_and!; [done| |exact Hsame| |].
  - intros a. by rewrite row_by_row_no_bytes.
  - intros a. unfold written. cbn [accesses memcpy]. split.
    + intros (d & s & n & [[= <- <- <-]|Hin] & Ha); [lia|]. by exists d, s, n.
    + intros (d & s & n & Hin & Ha). exists d, s, n. split; [by right|done].
  - intros a. unfold read_from. cbn [accesses memcpy]. split.
    + intros (d & s & n & [[= <- <- <-]|Hin] & Ha); [lia|]. by exists d, s, n.
    + intros (d & s & n & Hin & Ha). exists d, s, n. split; [by right|done].
Qed.

(** C9.  For a rectangle of the region in the manual copy of [copyBlt]:
    - when the width or the height the loop computes is not positive, the
      rectangle is skipped: no [memcpy], no byte changed;
    - with the [getBpp] of this repository, which answers 0, for every
      rectangle the loop body completes; a rectangle that is not skipped
      has both pitches and its byte width equal (to 0), so the loop makes
      one [memcpy], of [0 * height] bytes; the destination holds what the
      copy row by row leaves, and no byte is read or written;
    - whatever [getBpp] answers, for a rectangle inside both images the
      destination holds what the copy row by row leaves: every byte of
      every pixel of the rectangle is the byte of that pixel in the
      source, every other byte is as before; when both row pitches are
      equal and the byte width equals that pitch, this is done by one
      [memcpy] of [width_bytes * height] bytes; and every byte a
      [memcpy] reads or writes belongs to a pixel of the rectangle. *)
Theorem manual_copy_rect pf dst src mem c r :
  let bpp := size_t (getBpp pf (Buf.format src)) in
  let w := int32 (right r - left r) in
  let h := int32 (bottom r - top r) in
  (w <= 0 \/ h <= 0 -> copy_rect pf dst src mem c r = Some c) /\
  (getBpp pf = placeholder_getBpp ->
   exists c',
     copy_rect pf dst src mem c r = Some c' /\
     (0 < w -> 0 < h -> accesses c' = (0, 0, 0) :: accesses c) /\
     (forall a, pixels c' a = row_by_row 0 dst src mem (pixels c) r a) /\
     (forall a, pixels c' a = pixels c a) /\
     (forall a, written c' a <-> written c a) /\
     (forall a, read_from c' a <-> read_from c a)) /\
  (fits bpp dst r -> fits bpp src r ->
   exists c',
     copy_rect pf dst src mem c r = Some c' /\
     (forall a, pixels c' a = row_by_row bpp dst src mem (pixels c) r a) /\
     (forall x y k,
        left r <= x < right r -> top r <= y < bottom r -> 0 <= k < bpp ->
        pixels c' ((x + Buf.stride dst * y) * bpp + k) =
        mem ((x + Buf.stride src * y) * bpp + k)) /\
     (forall a, ~ rect_byte (Buf.stride dst) bpp r a -> pixels c' a = pixels c a) /\
     (Buf.stride dst * bpp = Buf.stride src * bpp ->
      (right r - left r) * bpp = Buf.stride src * bpp ->
      0 < right r - left r -> 0 < bottom r - top r ->
      accesses c' =
        ((left r + Buf.stride dst * top r) * bpp,
         (left r + Buf.stride src * top r) * bpp,
         (right r - left r) * bpp * (bottom r - top r)) :: accesses c) /\
     (forall d0 s0 n, In (d0, s0, n) (accesses c') ->
        In (d0, s0, n) (accesses c) \/
        forall k, 0 <= k < n ->
          rect_byte (Buf.stride dst) bpp r (d0 + k) /\
          rect_byte (Buf.stride src) bpp r (s0 + k))).
Proof.
  intros bpp w h. split_and!.
  - apply copy_rect_skips.
  - apply copy_rect_placeholder_bpp.
  - intros Hd Hs.
    destruct (copy_rect_rows pf dst src mem c r Hd Hs) as (c' & Hrun & Href & Hone).
    destruct (copy_rect_in_bounds pf dst src mem c r Hd Hs) as (c2 & Hrun2 & Hacc & _).
    rewrite Hrun in Hrun2. injection Hrun2 as <-.
    destruct Hd as (Hl & Hr & _ & _ & Hbpp & _).
    destruct (row_by_row_pixels bpp dst src mem (pixels c) r) as [Hin Hout]; [lia..|].
    exists c'. split_and!; try done.
    + intros x y k Hx Hy Hk. rewrite Href. by apply Hin.
    + intros a Ha. rewrite Href. by apply Hout.
Qed.

Lemma manual_copy_rect_witness :
  let dst := frame 0 100 100 in
  let src := frame 1 100 100 in
  let c := {| pixels := zeroed; accesses := [] |} in
  copy_rect double_buffered dst src striped c (mkRect 5 5 5 9) = Some c /\
  (exists c',
     copy_rect shipped dst src striped c (mkRect 10 10 20 12) = Some c' /\
     accesses c' = [(0, 0, 0)] /\
     (forall a, pixels c' a = row_by_row 0 dst src striped zeroed (mkRect 10 10 20 12) a) /\
     (forall a, pixels c' a = zeroed a) /\
     (forall a, written c' a <-> written c a) /\
     (forall a, read_from c' a <-> read_from c a)) /\
  (exists c',
     copy_rect double_buffered dst src striped c (mkRect 10 10 20 12) = Some c' /\
     (forall a, pixels c' a = row_by_row 4 dst src striped zeroed (mkRect 10 10 20 12) a) /\
     pixels c' 4040 = "001"%byte /\ pixels c' 4041 = "002"%byte /\
     pixels c' 4479 = "002"%byte /\
     (forall a, ~ rect_byte 100 4 (mkRect 10 10 20 12) a -> pixels c' a = x00%byte) /\
     (forall d0 s0 n, In (d0, s0, n) (accesses c') ->
        forall k, 0 <= k < n ->
          rect_byte 100 4 (mkRect 10 10 20 12) (d0 + k) /\
          rect_byte 100 4 (mkRect 10 10 20 12) (s0 + k))) /\
  (exists c',
     copy_rect double_buffered dst src striped c (mkRect 0 10 100 20) = Some c' /\
     (forall a, pixels c' a = row_by_row 4 dst src striped zeroed (mkRect 0 10 100 20) a) /\
     pixels c' 4000 = "001"%byte /\ pixels c' 7999 = "002"%byte /\
     accesses c' = [(4000, 4000, 4000)]).
Proof.
  intros dst src c. split_and!.
  - apply (manual_copy_rect double_buffered dst src striped c (mkRect 5 5 5 9)).
    left. vm_compute. discriminate.
  - destruct (proj1 (proj2 (manual_copy_rect shipped dst src striped c
                              (mkRect 10 10 20 12))) eq_refl)
      as (c' & Hrun & Hone & Hrest).
    exists c'. split; [exact Hrun|]. split; [|exact Hrest].
    exact (Hone ltac:(done) ltac:(done)).
  - destruct (proj2 (proj2 (manual_copy_rect double_buffered dst src striped c
                              (mkRect 10 10 20 12))))
      as (c' & Hrun & Href & Hin & Hout & _ & Hacc);
      [unfold fits; split_and!; vm_compute; first [reflexivity | discriminate]..|].
    exists c'. split_and!; [exact Hrun | exact Href | | | | exact Hout |].
    + exact (Hin 10 10 0 ltac:(cbn; lia) ltac:(cbn; lia) ltac:(done)).
    + exact (Hin 10 10 1 ltac:(cbn; lia) ltac:(cbn; lia) ltac:(done)).
    + exact (Hin 19 11 3 ltac:(cbn; lia) ltac:(cbn; lia) ltac:(done)).
    + intros d0 s0 n H. by destruct (Hacc d0 s0 n H) as [[]|Hk].
  - destruct (proj2 (proj2 (manual_copy_rect double_buffered dst src striped c
                              (mkRect 0 10 100 20))))
      as (c' & Hrun & Href & Hin & _ & Hone & _);
      [unfold fits; split_and!; vm_compute; first [reflexivity | discriminate]..|].
    exists c'. split_and!; [exact Hrun | exact Href | | |].
    + exact (Hin 0 10 0 ltac:(cbn; lia) ltac:(cbn; lia) ltac:(done)).
    + exact (Hin 99 19 3 ltac:(cbn; lia) ltac:(cbn; lia) ltac:(done)).
    + exact (Hone eq_refl eq_refl ltac:(cbn; lia) ltac:(cbn; lia)).
Defined.

(* ---------------------------------------------------------------- *)
(** ** More on region subtraction *)

(** X1.  The intersection [andSelf] computes is empty, as [isEmpty]
    reads it, exactly when the two rectangles share no pixel. *)
Theorem andSelf_empty_iff_disjoint a b :
  Rect_isEmpty (andSelf a b) = true <-> ~ overlaps a b.
Proof.
  rewrite Rect_isEmpty_true. unfold overlaps. split.
  - intros H (x & y & Ha & Hb). apply (H x y). by apply inside_andSelf.
  - intros H x y Hi. apply inside_andSelf in Hi. apply H. by exists x, y.
Qed.

(** X2.  Whatever the two rectangles, the strips of [subtract a b]
    cover every pixel of [a] that is not in [b], and never a pixel of
    [b]. *)
Theorem subtract_superset a b x y :
  (inside x y a /\ ~ inside x y b -> covered x y (subtract_rects a b)) /\
  (covered x y (subtract_rects a b) -> ~ inside x y b).
Proof.
  split.
  - intros [Ha Hb]. destruct (subtract_covers a b x y Ha) as [|Hi]; [done|].
    apply inside_andSelf in Hi as [_ Hi]. done.
  - apply subtract_avoids.
Qed.

Lemma subtract_superset_witness :
  covered 3 1 (subtract_rects (mkRect 0 0 10 10) (mkRect 0 2 10 30)) /\
  ~ inside 3 1 (mkRect 0 2 10 30).
Proof.
  destruct (subtract_superset (mkRect 0 0 10 10) (mkRect 0 2 10 30) 3 1) as [H1 H2].
  assert (covered 3 1 (subtract_rects (mkRect 0 0 10 10) (mkRect 0 2 10 30))) as Hc.
  { apply H1. unfold inside. cbn. lia. }
  split; [exact Hc | exact (H2 Hc)].
Defined.

(** X3.  When [b] reaches [a] (no gap separates them, along either
    axis), the strips of [subtract a b] cover exactly the pixels of [a]
    that are not in [b]. *)
Theorem subtract_difference a b x y :
  touches a b ->
  covered x y (subtract_rects a b) <-> inside x y a /\ ~ inside x y b.
Proof.
  intros Ht. split.
  - intros Hc. split; [by apply (subtract_within a b) | by apply (subtract_avoids a b)].
  - intros [Ha Hb]. destruct (subtract_covers a b x y Ha) as [|Hi]; [done|].
    apply inside_andSelf in Hi as [_ Hi]. done.
Qed.

Lemma subtract_difference_witness :
  covered 60 50 (subtract_rects (mkRect 0 0 100 100) (mkRect 20 30 50 200)) <->
  inside 60 50 (mkRect 0 0 100 100) /\ ~ inside 60 50 (mkRect 20 30 50 200).
Proof.
  apply subtract_difference. unfold touches. cbn. lia.
Defined.

(** X4.  When [b] is not inverted, no two strips of [subtract a b]
    share a pixel. *)
Theorem subtract_strips_disjoint a b i j r s :
  left b <= right b -> top b <= bottom b ->
  (i < j)%nat ->
  subtract_rects a b !! i = Some r -> subtract_rects a b !! j = Some s ->
  ~ overlaps r s.
Proof.
  intros Hw Hh Hij. rewrite subtract_rects_strips. unfold strips, overlaps, inside.
  destruct a as [l t r0 bo], b as [l' t' r' b']. cbn [left top right bottom] in *.
  guards; cbn [left top right bottom negb orb app] in *; try lia.
  all: destruct i as [|[|[|[|i]]]], j as [|[|[|[|j]]]]; cbn; try lia; try discriminate.
  all: intros [= <-] [= <-] (x & y & Hin1 & Hin2); cbn in *; lia.
Qed.

Lemma subtract_strips_disjoint_witness :
  let a := mkRect 0 0 10 10 in
  let b := mkRect 3 2 7 8 in
  subtract_rects a b !! 0%nat = Some (mkRect 0 0 10 2) /\
  subtract_rects a b !! 1%nat = Some (mkRect 0 2 3 8) /\
  ~ overlaps (mkRect 0 0 10 2) (mkRect 0 2 3 8).
Proof.
  cbn zeta. split_and!; [reflexivity | reflexivity |].
  apply (subtract_strips_disjoint (mkRect 0 0 10 10) (mkRect 3 2 7 8) 0 1);
    [cbn; lia | cbn; lia | lia | reflexivity | reflexivity].
Defined.

Lemma strips_nil_iff a b :
  strips a b = [] <->
  Rect_isEmpty a = true \/
  (left b <= left a /\ top b <= top a /\ right a <= right b /\ bottom a <= bottom b).
Proof.
  unfold strips. destruct a as [l t r0 bo], b as [l' t' r' b'].
  cbn [left top right bottom] in *.
  guards; cbn [left top right bottom negb orb app] in *; try lia.
  all: split; [intros Hn; try discriminate Hn; try (by left); right; lia
              | intros [Hn|Hn]; try discriminate Hn; try reflexivity; lia].
Qed.

(** X5.  The region [subtract a b] builds is empty, as [isEmpty] reads
    it, exactly when [a] has no pixel or [b] covers [a] on all four
    sides. *)
Theorem subtract_empty_iff_covered a b :
  exists reg, subtract a b = Some reg /\
    (Region_isEmpty reg = true <->
     Rect_isEmpty a = true \/
     (left b <= left a /\ top b <= top a /\ right a <= right b /\ bottom a <= bottom b)).
Proof.
  destruct (subtract_strips a b) as (reg & Hs & _ & Hc & _).
  exists reg. split; [done|]. rewrite <- strips_nil_iff.
  unfold Region_isEmpty. rewrite Hc, Z.leb_le.
  destruct (strips a b); cbn; split; intros; try done; lia.
Qed.

(** X6.  The region [swapBuffers] hands to [copyBlt]: when the region
    of the previous frame lies in the buffer of [W] by [H] pixels, and
    the swap rectangle begins before the right and bottom edges of the
    buffer and ends after its left and top edges, every strip of
    [subtract old (dirty clipped to the buffer)] has pixels and lies in
    the buffer. *)
Theorem copy_back_strips_in_buffer old dirty W H r :
  0 <= left old -> right old <= W -> 0 <= top old -> bottom old <= H ->
  left dirty <= W -> 0 <= right dirty -> top dirty <= H -> 0 <= bottom dirty ->
  In r (subtract_rects old (andSelf dirty (Rect_wh W H))) ->
  0 <= left r < right r /\ right r <= W /\ 0 <= top r < bottom r /\ bottom r <= H.
Proof.
  intros Hl Hr Ht Hb Hdl Hdr Hdt Hdb. rewrite subtract_rects_strips.
  unfold strips, andSelf, Rect_wh.
  destruct old as [l t r0 bo], dirty as [l' t' r' b'].
  cbn [left top right bottom] in *.
  guards; cbn [left top right bottom negb orb app In] in *; try lia.
  all: intros Hin; repeat destruct Hin as [<-|Hin]; try done; cbn; lia.
Qed.

Lemma copy_back_strips_in_buffer_witness :
  let r := mkRect 50 0 100 100 in
  0 <= left r < right r /\ right r <= 100 /\ 0 <= top r < bottom r /\ bottom r <= 100.
Proof.
  apply (copy_back_strips_in_buffer (mkRect 0 0 100 100) (mkRect 0 0 50 100) 100 100);
    cbn; try lia. by left.
Defined.

(* ---------------------------------------------------------------- *)
(** ** More on the window surface *)

(** X7.  A call of [swapBuffers] with an empty [dirtyRegion], whatever
    its outcome, copies nothing back and leaves [dirtyRegion] and
    [oldDirtyRegion] as they were. *)
Theorem swapBuffers_clean_frame pf s h out s' h' :
  Rect_isEmpty (dirtyRegion s) = true ->
  swapBuffers pf s h = (out, s', h') ->
  copyBlts h' = copyBlts h /\
  dirtyRegion s' = dirtyRegion s /\ oldDirtyRegion s' = oldDirtyRegion s.
Proof.
  intros He. destruct (buffer s) as [b|] eqn:Hb.
  - rewrite (swapBuffers_unfold _ _ _ b Hb).
    destruct (copy_back_effect pf b s h) as (h1 & cb & -> & _ & _ & Hc).
    rewrite He in *. intros Hf. apply flip_keeps_regions in Hf as (? & ? & Hq).
    split_and!; try done. by rewrite Hq, Hc.
  - unfold swapBuffers. run. rewrite Hb. by intros [= <- <- <-].
Qed.

Lemma swapBuffers_clean_frame_witness :
  exists out s' h',
    swapBuffers double_buffered idle_frame [] = (out, s', h') /\
    copyBlts h' = [] /\
    dirtyRegion s' = mkRect 0 0 0 0 /\ oldDirtyRegion s' = mkRect 0 0 100 100.
Proof.
  destruct (swapBuffers double_buffered idle_frame []) as [[out s'] h'] eqn:Hs.
  exists out, s', h'. split; [reflexivity|].
  exact (swapBuffers_clean_frame double_buffered idle_frame [] out s' h' eq_refl Hs).
Defined.

Lemma setSwapRectangle_run l t w h s hist :
  setSwapRectangle l t w h s hist =
  (Returns EGL_TRUE, set_dirtyRegion (mkRect l t (int32 (l + w)) (int32 (t + h))) s, hist).
Proof. reflexivity. Qed.

(** X8.  [setSwapRectangle(l, t, w, h)] followed by [swapBuffers()],
    for a rectangle with pixels whose part in the buffer contains the
    region of the previous frame: nothing is copied back, and both
    regions end as that part. *)
Theorem update_covering_previous pf l t w h s hist b out s' h' :
  buffer s = Some b ->
  in_int32 (l + w) -> in_int32 (t + h) -> 0 < w -> 0 < h ->
  let clipped :=
    andSelf (mkRect l t (l + w) (t + h)) (Rect_wh (Buf.width b) (Buf.height b)) in
  left clipped <= left (oldDirtyRegion s) ->
  top clipped <= top (oldDirtyRegion s) ->
  right (oldDirtyRegion s) <= right clipped ->
  bottom (oldDirtyRegion s) <= bottom clipped ->
  update pf l t w h s hist = (out, s', h') ->
  copyBlts h' = copyBlts hist /\
  dirtyRegion s' = clipped /\ oldDirtyRegion s' = clipped.
Proof.
  intros Hb Hx Hy Hw Hh clipped Hl Ht Hr Hbo. unfold update.
  unfold mbind, M_bind, bind. rewrite setSwapRectangle_run.
  rewrite !int32_small by done.
  set (s1 := set_dirtyRegion _ s).
  assert (buffer s1 = Some b) as Hb1 by (by destruct s).
  assert (Rect_isEmpty (dirtyRegion s1) = false) as He.
  { destruct s. cbn. unfold Rect_isEmpty. cbn.
    destruct (Z.geb_spec l (l + w)), (Z.geb_spec t (t + h)); first [lia | done]. }
  rewrite (swapBuffers_unfold _ _ _ b Hb1).
  destruct (copy_back_effect pf b s1 hist) as (h1 & cb & -> & _ & Hcb & Hc).
  rewrite He in *.
  assert (dirtyRegion s1 = mkRect l t (l + w) (t + h)) as Hd by (by destruct s).
  assert (oldDirtyRegion s1 = oldDirtyRegion s) as Ho by (by destruct s).
  assert (previousBuffer s1 = previousBuffer s) as Hp by (by destruct s).
  rewrite Hd, Ho in *. fold clipped in Hcb, Hc |- *.
  assert (Region_isEmpty cb = true) as Hempty.
  { destruct (subtract_strips (oldDirtyRegion s) clipped) as (reg & Hs & _ & Hcount & _).
    rewrite Hs in Hcb. injection Hcb as <-.
    unfold Region_isEmpty. rewrite Hcount.
    assert (strips (oldDirtyRegion s) clipped = []) as ->; [|done].
    apply strips_nil_iff. right. done. }
  rewrite Hempty in Hc.
  intros Hf. apply flip_keeps_regions in Hf as (Hd' & Ho' & Hq).
  split_and!.
  - rewrite Hq, Hc. by destruct (previousBuffer s1).
  - rewrite Hd'. by destruct s.
  - rewrite Ho'. by destruct s.
Qed.

Lemma update_covering_previous_witness :
  exists out s' h',
    update double_buffered 0 0 100 100 mid_frame [] = (out, s', h') /\
    copyBlts h' = [] /\
    dirtyRegion s' = mkRect 0 0 100 100 /\ oldDirtyRegion s' = mkRect 0 0 100 100.
Proof.
  destruct (update double_buffered 0 0 100 100 mid_frame []) as [[out s'] h'] eqn:Hs.
  exists out, s', h'. split; [reflexivity|].
  apply (update_covering_previous double_buffered 0 0 100 100 mid_frame []
           (frame 0 100 100) out s' h');
    first [reflexivity | exact Hs | (unfold in_int32; cbn; lia) | (cbn; lia)].
Defined.

Ltac booleans :=
  repeat match goal with
         | H : (_ || _) = false |- _ => apply orb_false_iff in H as [? ?]
         | H : negb _ = false |- _ => apply negb_false_iff in H
         | H : negb _ = true |- _ => apply negb_true_iff in H
         | H : (_ =? _) = true |- _ => apply Z.eqb_eq in H
         | H : (_ =? _) = false |- _ => apply Z.eqb_neq in H
         end.

Lemma connect_sized pf s h s' h' :
  Plane.data (depth s) = NULL ->
  connect pf s h = (Returns EGL_TRUE, s', h') -> sized (Plane.format (depth s)) s'.
Proof.
  destruct s as [mg dp cf cx de nw bu pb mo bl wi he bi dr od].
  destruct de as [dv dw dh ds dd df].
  cbn [depth Plane.data Plane.format]. intros ->.
  unfold connect. repeat step.
  all: intros [= <- <-]; unfold sized; fields; booleans.
  all: eexists; split_and!; try reflexivity; unfold NULL in *; try tauto; try lia.
Qed.

Lemma flip_sized pf b f0 s h s' h' :
  sized f0 s -> flip pf b s h = (Returns EGL_TRUE, s', h') -> sized f0 s'.
Proof.
  intros (b0 & Hb & Hw & Hh & Hf & Hiff & Hd).
  destruct s as [mg dp cf cx de nw bu pb mo bl wi he bi dr od].
  destruct de as [dv dw dh ds dd df].
  cbn [buffer width height depth Plane.data Plane.format Plane.width Plane.height] in *.
  unfold flip, reallocate_depth. repeat step.
  all: intros [= <- <-]; unfold sized; fields; booleans.
  all: eexists; split_and!; try reflexivity; unfold NULL in *; try tauto; try lia.
  all: try (intros _; split; congruence).
  all: try (intros Hne; destruct (Hd Hne) as [-> ->]; split; congruence).
Qed.

Lemma swapBuffers_sized pf f0 s h s' h' :
  sized f0 s -> swapBuffers pf s h = (Returns EGL_TRUE, s', h') -> sized f0 s'.
Proof.
  intros Hs. pose proof Hs as (b & Hb & _).
  rewrite (swapBuffers_unfold _ _ _ b Hb).
  destruct (copy_back_effect pf b s h) as (h1 & cb & -> & _).
  apply flip_sized. destruct (Rect_isEmpty (dirtyRegion s)); [done|].
  destruct Hs as (b0 & ? & ? & ? & ? & ? & ?). exists b0. by destruct s.
Qed.

Lemma present_sized pf f0 n : forall s h s' h',
  sized f0 s -> present pf n s h = Some (s', h') -> sized f0 s'.
Proof.
  induction n as [|n IH]; intros s h s' h' Hs; cbn [present].
  - by intros [= <- <-].
  - destruct (swapBuffers pf s h) as [[[[]|] s1] h1] eqn:Hsw; try discriminate.
    intros Hp. apply (IH s1 h1 s' h'); [|done].
    by apply (swapBuffers_sized pf f0 s h s1 h1).
Qed.

Lemma connected_sized pf n s0 s h :
  Plane.data (depth s0) = NULL ->
  connected pf n s0 = Some (s, h) -> sized (Plane.format (depth s0)) s.
Proof.
  intros H0. unfold connected.
  destruct (connect pf s0 []) as [[[[]|] s1] h1] eqn:Hc; try discriminate.
  intros Hp. apply connect_sized in Hc; [|done].
  exact (present_sized pf _ n s1 h1 s h Hc Hp).
Qed.

(** X9.  After [connect()] and any number of successful
    [swapBuffers()] on a surface constructed without depth plane, there
    is a current buffer, [getWidth()] and [getHeight()] are its width and
    height, a depth plane is allocated exactly when the surface has a
    depth format, and that plane has the size of the buffer. *)
Theorem connected_size_matches_buffer pf n s0 s h :
  Plane.data (depth s0) = NULL ->
  connected pf n s0 = Some (s, h) ->
  exists b, buffer s = Some b /\
    getWidth s = Buf.width b /\ getHeight s = Buf.height b /\
    (Plane.data (depth s) <> NULL <-> Plane.format (depth s0) <> 0) /\
    (Plane.data (depth s) <> NULL ->
     Plane.width (depth s) = uint32 (getWidth s) /\
     Plane.height (depth s) = uint32 (getHeight s)).
Proof.
  intros H0 Hc.
  destruct (connected_sized pf n s0 s h H0 Hc) as (b & ? & ? & ? & ? & ? & ?).
  exists b. unfold getWidth, getHeight. done.
Qed.

Lemma connected_size_matches_buffer_witness :
  exists s h b,
    connected double_buffered 2 fresh_with_depth = Some (s, h) /\
    buffer s = Some b /\
    getWidth s = Buf.width b /\ getHeight s = Buf.height b /\
    Plane.data (depth s) <> NULL /\
    Plane.width (depth s) = uint32 (getWidth s) /\
    Plane.height (depth s) = uint32 (getHeight s).
Proof.
  destruct (connected double_buffered 2 fresh_with_depth) as [[s h]|] eqn:Hc;
    [|vm_compute in Hc; discriminate Hc].
  destruct (connected_size_matches_buffer double_buffered 2 fresh_with_depth s h
              eq_refl Hc) as (b & Hb & Hw & Hh & Hiff & Hd).
  assert (Plane.data (depth s) <> NULL) as Hne by (apply Hiff; discriminate).
  exists s, h, b. split_and!; try done; by apply Hd.
Defined.

Lemma connected_Connected pf n s0 s h :
  pins_are_mapped pf -> buffer s0 = None -> previousBuffer s0 = None ->
  connected pf n s0 = Some (s, h) -> Connected s h.
Proof.
  intros Hpf Hb Hp. unfold connected.
  destruct (connect pf s0 []) as [[[[]|] s1] h1] eqn:Hc; try discriminate.
  intros Hn. apply (present_connected pf n s1 h1); [done| |done].
  apply (connect_connected pf s0 []); [done| |done]. by repeat split.
Qed.

(** X10.  After [connect()] and any number of successful
    [swapBuffers()], on a platform whose pins yield an address,
    [bindDrawSurface] and [bindReadSurface] return [EGL_TRUE] and hand
    the context one colour plane: the mapping of the current buffer,
    which is pinned and not null, with the recorded size and the stride
    and format of that buffer; the draw surface gets the depth plane as
    well. *)
Theorem bind_after_connect pf n s0 s h :
  pins_are_mapped pf -> buffer s0 = None -> previousBuffer s0 = None ->
  Plane.data (depth s0) = NULL ->
  connected pf n s0 = Some (s, h) ->
  exists b c,
    buffer s = Some b /\ pinned b h = 1 /\
    bindDrawSurface pf s = Returns (EGL_TRUE, [SetColorBuffer c; SetDepthBuffer (depth s)]) /\
    bindReadSurface pf s = Returns (EGL_TRUE, [SetReadBuffer c]) /\
    Plane.data c = bits s /\ Plane.data c <> NULL /\
    Plane.width c = uint32 (getWidth s) /\ Plane.height c = uint32 (getHeight s) /\
    Plane.stride c = uint32 (Buf.stride b) /\ Plane.format c = Buf.format b.
Proof.
  intros Hpf Hb Hp Hd Hc.
  destruct (connected_sized pf n s0 s h Hd Hc) as (b & Hbs & Hw & Hh & _).
  destruct (connected_Connected pf n s0 s h Hpf Hb Hp Hc) as (_ & Hpin & _ & _ & _ & Hbits).
  exists b, (color_plane pf s b). unfold bindDrawSurface, bindReadSurface.
  rewrite Hbs. split_and!; try done.
  - rewrite Hpin, Hbs. cbn. apply tick_self.
  - unfold getWidth. by rewrite Hw.
  - unfold getHeight. by rewrite Hh.
Qed.

Lemma bind_after_connect_witness :
  exists s h b c,
    connected double_buffered 1 fresh = Some (s, h) /\
    buffer s = Some b /\ pinned b h = 1 /\
    bindDrawSurface double_buffered s
      = Returns (EGL_TRUE, [SetColorBuffer c; SetDepthBuffer (depth s)]) /\
    Plane.data c <> NULL /\ Plane.width c = uint32 (getWidth s).
Proof.
  destruct (connected double_buffered 1 fresh) as [[s h]|] eqn:Hc;
    [|vm_compute in Hc; discriminate Hc].
  destruct (bind_after_connect double_buffered 1 fresh s h double_buffered_pins
              eq_refl eq_refl eq_refl Hc)
    as (b & c & ? & ? & ? & ? & ? & ? & ? & ?).
  by exists s, h, b, c.
Defined.

(** X11.  [disconnect()] on any surface returns, queues the current
    buffer to the window (a null pointer when there is none), releases
    one reference on the current and one on the previous buffer, takes
    none, and leaves both pointers null; a second [disconnect()] only
    queues a null pointer. *)
Theorem disconnect_clears pf s h :
  exists s' h',
    disconnect pf s h = (Returns tt, s', h') /\
    buffer s' = None /\ previousBuffer s' = None /\
    queued h' = buffer s :: queued h /\
    (forall b, released b h' = released b h + held s b) /\
    (forall b, acquired b h' = acquired b h) /\
    disconnect pf s' h' = (Returns tt, s', EvQueueBuffer None :: h').
Proof.
  destruct s as [mg dp cf cx de nw bu pb mo bl wi he bi dr od].
  unfold disconnect. run. fields.
  destruct bu as [b|], pb as [p|], (bi =? NULL) eqn:Hz; cbn [bool_decide andb negb].
  all: rewrite ?bool_decide_eq_true_2 by eauto.
  all: rewrite ?bool_decide_eq_false_2 by (by intros [? ?]).
  all: cbn [andb]; repeat step.
  all: eexists _, _; split; [reflexivity|]; fields.
  all: split_and!; try reflexivity; try (intros b0; unfold held, points_to; cbn; lia).
Qed.

Lemma connect_failure_cases pf s h s' h' :
  connect pf s h = (Returns EGL_FALSE, s', h') ->
  (forall b, released b h' = released b h) /\
  (forall b, pinned b h' = pinned b h) /\
  queued h' = queued h /\
  ((last_error h' = EGL_BAD_ALLOC /\ forall b, acquired b h' = acquired b h) \/
   (last_error h' = EGL_BAD_ACCESS /\
    exists b, buffer s' = Some b /\
      forall b', acquired b' h' = acquired b' h + tick b' b)).
Proof.
  destruct s as [mg dp cf cx de nw bu pb mo bl wi he bi dr od].
  unfold connect. repeat step.
  all: intros [= <- <-]; fields; cbn [last_error released pinned queued acquired].
  all: booleans.
  all: repeat match goal with
         | H : ?x <> FGL_NO_ERROR |- context [?x =? FGL_NO_ERROR] =>
             rewrite (proj2 (Z.eqb_neq x FGL_NO_ERROR) H)
         end.
  all: split_and!; try done; try (intros; lia).
  all: first [ left; split; [reflexivity | intros; lia]
             | right; split; [reflexivity|]; eexists; split; [reflexivity|]; intros; lia ].
Qed.

(** X12.  When [connect()] fails it has released nothing, pinned
    nothing and queued nothing.  Either the error is [EGL_BAD_ALLOC] and
    no reference was taken, or it is [EGL_BAD_ACCESS] and the surface
    keeps the buffer with the one reference taken on it. *)
Theorem connect_failure pf s h s' h' :
  connect pf s h = (Returns EGL_FALSE, s', h') ->
  (forall b, released b h' = released b h) /\
  (forall b, pinned b h' = pinned b h) /\
  queued h' = queued h /\
  ((last_error h' = EGL_BAD_ALLOC /\ forall b, acquired b h' = acquired b h) \/
   (last_error h' = EGL_BAD_ACCESS /\
    exists b, buffer s' = Some b /\
      forall b', acquired b' h' = acquired b' h + tick b' b)).
Proof. apply connect_failure_cases. Qed.

Lemma connect_failure_witness :
  exists s' h',
    connect resized fresh_with_depth [] = (Returns EGL_FALSE, s', h') /\
    last_error h' = EGL_BAD_ALLOC /\
    (forall b, acquired b h' = 0) /\ buffer s' = Some (frame 1 200 100).
Proof.
  destruct (connect resized fresh_with_depth []) as [[out s'] h'] eqn:Hc.
  assert (out = Returns EGL_FALSE) as -> by (vm_compute in Hc; congruence).
  destruct (connect_failure resized fresh_with_depth [] s' h' Hc)
    as (_ & _ & _ & [[He Ha]|[He _]]).
  - exists s', h'. split_and!; [reflexivity | exact He | exact Ha |].
    vm_compute in Hc. by injection Hc as <- <-.
  - exfalso. vm_compute in Hc. injection Hc as <- <-. discriminate He.
Defined.

Lemma delete_run s h :
  exists h',
    FGLWindowSurface_delete s h = (Returns tt, set_magic 0 s, h') /\
    (forall b, released b h' = released b h + held s b) /\
    (forall b, acquired b h' = acquired b h) /\
    (forall b, pinned b h' = pinned b h) /\
    queued h' = queued h /\
    heap_calls h' = EvFree (Plane.data (depth s)) :: heap_calls h /\
    (release_ok h -> (forall b, held s b <= outstanding b h) -> release_ok h').
Proof.
  destruct s as [mg dp cf cx de nw bu pb mo bl wi he bi dr od].
  unfold FGLWindowSurface_delete. run. fields.
  destruct bu as [b|], pb as [p|]; repeat step.
  all: eexists; split; [reflexivity|]; fields.
  all: split_and!; try reflexivity; try (intros b0; unfold held, points_to; cbn; lia).
  all: intros Hrel Hheld; cbn [release_ok]; try done.
  all: unfold held, points_to, outstanding in *; cbn [acquired released] in *.
  all: try (pose proof (Hheld b)); try (pose proof (Hheld p)).
  all: fields; unfold tick in *; repeat case_decide; subst; split_and!;
       try done; try lia.
Qed.

Lemma delete_queue_ok s h s' h' :
  FGLWindowSurface_delete s h = (Returns tt, s', h') ->
  queue_ok h -> queue_ok h'.
Proof.
  destruct s as [mg dp cf cx de nw bu pb mo bl wi he bi dr od].
  unfold FGLWindowSurface_delete. run. fields.
  destruct bu as [b|], pb as [p|]; repeat step.
  all: by intros [= <- <-].
Qed.

(** X13.  Destroying a surface whose [connect()] failed with
    [EGL_BAD_ALLOC] while a buffer had been dequeued: the destructor
    releases a reference on that buffer although none was taken, so that
    the buffer ends with one release more than acquisitions. *)
Theorem delete_after_failed_connect pf s h s1 h1 b :
  Disconnected s h ->
  connect pf s h = (Returns EGL_FALSE, s1, h1) ->
  last_error h1 = EGL_BAD_ALLOC -> buffer s1 = Some b ->
  exists s2 h2,
    FGLWindowSurface_delete s1 h1 = (Returns tt, s2, h2) /\
    released b h2 = acquired b h2 + 1 /\ ~ release_ok h2.
Proof.
  intros (Ho & _ & _ & _ & Hb & Hp) Hc He Hb1.
  destruct (connect_failure_cases pf s h s1 h1 Hc) as (Hr & _ & _ & [[_ Ha]|[He' _]]);
    [|congruence].
  assert (previousBuffer s1 = None) as Hp1.
  { revert Hc. destruct s as [mg dp cf cx de nw bu pb mo bl wi he bi dr od].
    cbn [previousBuffer] in Hp. subst pb.
    unfold connect. repeat step. all: by intros [= <- <-]. }
  pose proof (Ha b) as Hab. pose proof (Hr b) as Hrb. pose proof (Ho b) as Hob.
  unfold outstanding in Hob.
  destruct s1 as [mg dp cf cx de nw bu pb mo bl wi he bi dr od].
  cbn [buffer previousBuffer] in Hb1, Hp1. subst bu pb.
  unfold FGLWindowSurface_delete. run. fields.
  eexists _, _. split; [reflexivity|].
  cbn [acquired released release_ok]. rewrite tick_self.
  split; [lia|]. intros [Hcontra _]. unfold outstanding in Hcontra. lia.
Qed.

Lemma delete_after_failed_connect_witness :
  exists s1 h1 s2 h2,
    connect resized fresh_with_depth [] = (Returns EGL_FALSE, s1, h1) /\
    FGLWindowSurface_delete s1 h1 = (Returns tt, s2, h2) /\
    released (frame 1 200 100) h2 = acquired (frame 1 200 100) h2 + 1 /\
    ~ release_ok h2.
Proof.
  destruct (connect resized fresh_with_depth []) as [[out s1] h1] eqn:Hc.
  assert (out = Returns EGL_FALSE /\ last_error h1 = EGL_BAD_ALLOC /\
          buffer s1 = Some (frame 1 200 100)) as (-> & He & Hb).
  { vm_compute in Hc. by injection Hc as <- <- <-. }
  destruct (delete_after_failed_connect resized fresh_with_depth [] s1 h1
              (frame 1 200 100)) as (s2 & h2 & Hd & H);
    [by repeat split | exact Hc | exact He | exact Hb |].
  by exists s1, h1, s2, h2.
Defined.

(** X14.  Destroying a connected surface without [disconnect()]: the
    destructor returns, gives back every reference, queues nothing, and
    leaves the surface invalid; the current buffer is still pinned
    ([unlock] is not called). *)
Theorem delete_connected s h :
  Connected s h ->
  exists b s' h',
    FGLWindowSurface_delete s h = (Returns tt, s', h') /\
    buffer s = Some b /\ pinned b h' = 1 /\ queued h' = queued h /\
    (forall b', acquired b' h' = released b' h') /\ release_ok h' /\
    isValid s' = false.
Proof.
  intros (Ho & Hpi & Hrel & Hq & [b Hb] & Hbits).
  destruct (delete_run s h) as (h' & Hrun & Hr & Ha & Hp & Hqu & _ & Hok).
  exists b, (set_magic 0 s), h'. split_and!; try done.
  - rewrite Hp, Hpi, Hb. cbn. apply tick_self.
  - intros b'. rewrite Hr, Ha. specialize (Ho b'). unfold outstanding in Ho. lia.
  - apply Hok; [done|]. intros b'. rewrite Ho. lia.
Qed.

Lemma delete_connected_witness :
  exists s h b s' h',
    connected double_buffered 2 fresh = Some (s, h) /\
    FGLWindowSurface_delete s h = (Returns tt, s', h') /\
    buffer s = Some b /\ pinned b h' = 1 /\
    (forall b', acquired b' h' = released b' h') /\ release_ok h'.
Proof.
  destruct (connected double_buffered 2 fresh) as [[s h]|] eqn:Hc;
    [|vm_compute in Hc; discriminate Hc].
  destruct (delete_connected s h) as (b & s' & h' & ? & ? & ? & ? & ? & ? & ?).
  { apply (connected_Connected double_buffered 2 fresh);
      [apply double_buffered_pins | reflexivity | reflexivity | exact Hc]. }
  by exists s, h, b, s', h'.
Defined.

Lemma live_block_heap_calls h : live_block h = live_block (heap_calls h).
Proof.
  induction h as [|e h IH]; [done|].
  destruct e; cbn [live_block heap_calls]; by rewrite ?IH.
Qed.

Lemma live_block_same h h' :
  heap_calls h' = heap_calls h -> live_block h' = live_block h.
Proof. intros H. by rewrite (live_block_heap_calls h'), H, <- live_block_heap_calls. Qed.

Lemma connect_heap pf s h out s' h' :
  live_block h = Some NULL -> Plane.data (depth s) = NULL ->
  connect pf s h = (out, s', h') ->
  live_block h' = Some (Plane.data (depth s')).
Proof.
  intros Hl. destruct s as [mg dp cf cx de nw bu pb mo bl wi he bi dr od].
  destruct de as [dv dw dh ds dd df]. cbn [depth Plane.data]. intros ->.
  unfold connect. repeat step.
  all: intros [= <- <- <-]; fields; cbn [live_block]; rewrite ?Hl; done.
Qed.

Lemma flip_heap pf b s h out s' h' :
  live_block h = Some (Plane.data (depth s)) ->
  flip pf b s h = (out, s', h') ->
  live_block h' = Some (Plane.data (depth s')).
Proof.
  intros Hl. destruct s as [mg dp cf cx de nw bu pb mo bl wi he bi dr od].
  destruct de as [dv dw dh ds dd df]. cbn [depth Plane.data] in Hl.
  unfold flip, reallocate_depth. repeat step.
  all: intros [= <- <- <-]; fields; cbn [live_block mbind option_bind]; rewrite ?Hl.
  all: cbn [mbind option_bind]; rewrite ?Z.eqb_refl; try done.
Qed.

Lemma swapBuffers_heap pf s h out s' h' :
  live_block h = Some (Plane.data (depth s)) ->
  swapBuffers pf s h = (out, s', h') ->
  live_block h' = Some (Plane.data (depth s')).
Proof.
  intros Hl. destruct (buffer s) as [b|] eqn:Hb.
  - rewrite (swapBuffers_unfold _ _ _ b Hb).
    destruct (copy_back_effect pf b s h) as (h1 & cb & -> & Hq & _).
    destruct Hq as (_ & _ & _ & _ & _ & Hheap & _).
    apply flip_heap. rewrite (live_block_same _ _ Hheap), Hl.
    by destruct (Rect_isEmpty (dirtyRegion s)), s.
  - unfold swapBuffers. run. rewrite Hb. by intros [= <- <- <-].
Qed.

Lemma present_heap pf n : forall s h s' h',
  live_block h = Some (Plane.data (depth s)) ->
  present pf n s h = Some (s', h') ->
  live_block h' = Some (Plane.data (depth s')).
Proof.
  induction n as [|n IH]; intros s h s' h' Hl; cbn [present].
  - by intros [= <- <-].
  - destruct (swapBuffers pf s h) as [[[[]|] s1] h1] eqn:Hsw; try discriminate.
    intros Hp. apply (IH s1 h1 s' h'); [|done].
    by apply (swapBuffers_heap pf s h (Returns EGL_TRUE) s1 h1).
Qed.

Lemma disconnect_heap pf s h out s' h' :
  disconnect pf s h = (out, s', h') ->
  heap_calls h' = heap_calls h /\ depth s' = depth s.
Proof.
  destruct s as [mg dp cf cx de nw bu pb mo bl wi he bi dr od].
  unfold disconnect. run. fields.
  destruct bu as [b|], pb as [p|], (bi =? NULL) eqn:Hz; cbn [bool_decide andb negb].
  all: rewrite ?bool_decide_eq_true_2 by eauto.
  all: rewrite ?bool_decide_eq_false_2 by (by intros [? ?]).
  all: cbn [andb]; repeat step.
  all: by intros [= <- <- <-].
Qed.

(** X15.  A whole life of a surface constructed without buffer and
    without depth plane: [connect()], any number of successful
    [swapBuffers()], [disconnect()] and the destructors, on a platform
    whose pins yield an address.  At the end every reference taken has
    been given back and none was given back early, no buffer is pinned,
    no buffer was queued while pinned, every depth block the allocator
    handed out has been freed (one at a time, each before the next was
    requested), and the surface is invalid. *)
Theorem life_is_balanced pf n s0 s h :
  pins_are_mapped pf ->
  buffer s0 = None -> previousBuffer s0 = None -> Plane.data (depth s0) = NULL ->
  life pf n s0 = Some (s, h) ->
  (forall b, acquired b h = released b h) /\ release_ok h /\
  (forall b, pinned b h = 0) /\ queue_ok h /\
  live_block h = Some NULL /\ isValid s = false.
Proof.
  intros Hpf Hb Hp Hd. unfold life, session.
  destruct (connected pf n s0) as [[s1 h1]|] eqn:Hc; [|discriminate].
  pose proof (connected_Connected pf n s0 s1 h1 Hpf Hb Hp Hc) as HC.
  assert (live_block h1 = Some (Plane.data (depth s1))) as Hl1.
  { revert Hc. unfold connected.
    destruct (connect pf s0 []) as [[[[]|] sc] hc] eqn:Hcon; try discriminate.
    apply present_heap. by apply (connect_heap pf s0 [] (Returns EGL_TRUE) sc hc). }
  destruct (disconnect_disconnected pf s1 h1 HC) as (s2 & h2 & Hdis & HD).
  rewrite Hdis. destruct (disconnect_heap pf s1 h1 _ s2 h2 Hdis) as [Hheap Hdep].
  destruct (delete_run s2 h2) as (h3 & Hdel & Hr & Ha & Hpin & _ & Hfree & Hok).
  rewrite Hdel. intros [= <- <-].
  destruct HD as (Ho & Hpi & Hrel & Hq & Hb2 & Hp2).
  assert (forall b, held s2 b = 0) as Hheld.
  { intros b. unfold held. by rewrite Hb2, Hp2. }
  split_and!.
  - intros b. rewrite Hr, Ha, Hheld. specialize (Ho b). unfold outstanding in Ho. lia.
  - apply Hok; [done|]. intros b. rewrite Hheld, Ho. lia.
  - intros b. by rewrite Hpin.
  - by apply (delete_queue_ok s2 h2 _ h3 Hdel).
  - rewrite (live_block_heap_calls h3), Hfree. cbn [live_block].
    rewrite <- live_block_heap_calls, (live_block_same _ _ Hheap), Hl1.
    cbn [mbind option_bind]. by rewrite Hdep, Z.eqb_refl.
  - by destruct s2.
Qed.

Lemma copy_back_queued pf b s h out s1 h1 :
  copy_back pf b s h = (out, s1, h1) ->
  queued h1 = queued h /\ previousBuffer s1 = previousBuffer s /\
  (forall x, released x h1 = released x h).
Proof.
  destruct (copy_back_effect pf b s h) as (h0 & cb & Hrun & Hq & _).
  rewrite Hrun. intros [= <- <- <-]. split_and!.
  - revert Hrun. unfold copy_back. run.
    destruct (Rect_isEmpty (dirtyRegion s)); cbn [negb]; [by intros [= <-]|].
    destruct s as [mg dp cf cx de nw bu pb mo bl wi he bi dr od]. fields.
    destruct pb as [p|]; fields; [|by intros [= <-]].
    destruct (subtract od _) as [reg|]; [|discriminate].
    destruct (Region_isEmpty reg); cbn [negb]; [by intros [= <-]|].
    rewrite lock_run. cbn [fst snd].
    destruct (_ =? FGL_NO_ERROR); [rewrite unlock_run|]; by intros [= <-].
  - by destruct (Rect_isEmpty (dirtyRegion s)), s.
  - apply Hq.
Qed.

Lemma flip_hands_over pf b s h r s' h' :
  flip pf b s h = (Returns r, s', h') ->
  previousBuffer s' = Some b /\ queued h' = Some b :: queued h /\
  (forall x, released x h' = released x h + points_to (previousBuffer s) x) /\
  buffer s' <> None.
Proof.
  destruct s as [mg dp cf cx de nw bu pb mo bl wi he bi dr od].
  destruct de as [dv dw dh ds dd df].
  unfold flip, reallocate_depth. repeat step.
  all: intros [= <- <- <-]; fields; cbn [queued released points_to].
  all: split_and!; try done; intros; lia.
Qed.

(** X16.  A call of [swapBuffers] that returns, with [EGL_TRUE] or
    with [EGL_FALSE]: the buffer that was current has been queued to the
    window once and is now the previous buffer, the buffer that was the
    previous one has lost its reference, no other reference was released,
    and there is a current buffer. *)
Theorem swapBuffers_hands_over pf s h b r s' h' :
  buffer s = Some b ->
  swapBuffers pf s h = (Returns r, s', h') ->
  previousBuffer s' = Some b /\ queued h' = Some b :: queued h /\
  (forall x, released x h' = released x h + points_to (previousBuffer s) x) /\
  buffer s' <> None.
Proof.
  intros Hb. rewrite (swapBuffers_unfold _ _ _ b Hb).
  destruct (copy_back pf b s h) as [[out s1] h1] eqn:Hcb.
  destruct (copy_back_queued pf b s h out s1 h1 Hcb) as (Hq & Hp & Hr).
  destruct (copy_back_effect pf b s h) as (h0 & cb & Hrun & _).
  rewrite Hrun in Hcb. injection Hcb as <- <- <-.
  intros Hf. apply flip_hands_over in Hf as (? & Hq' & Hr' & ?).
  split_and!; try done.
  - by rewrite Hq', Hq.
  - intros x. by rewrite Hr', Hr, Hp.
Qed.

Lemma swapBuffers_hands_over_witness :
  exists r s' h',
    swapBuffers double_buffered mid_frame [] = (Returns r, s', h') /\
    previousBuffer s' = buffer mid_frame /\
    queued h' = [buffer mid_frame] /\ buffer s' <> None.
Proof.
  destruct (swapBuffers double_buffered mid_frame []) as [[[r|] s'] h'] eqn:Hs;
    [|vm_compute in Hs; discriminate Hs].
  destruct (swapBuffers_hands_over double_buffered mid_frame [] (frame 0 100 100)
              r s' h' eq_refl Hs) as (? & ? & _ & ?).
  by exists r, s', h'.
Defined.

Lemma life_is_balanced_witness :
  exists s h,
    life double_buffered 2 fresh_with_depth = Some (s, h) /\
    (forall b, acquired b h = released b h) /\ release_ok h /\
    (forall b, pinned b h = 0) /\ queue_ok h /\
    live_block h = Some NULL /\ isValid s = false.
Proof.
  destruct (life double_buffered 2 fresh_with_depth) as [[s h]|] eqn:Hl;
    [|vm_compute in Hl; discriminate Hl].
  exists s, h. split; [reflexivity|].
  apply (life_is_balanced double_buffered 2 fresh_with_depth s h);
    [apply double_buffered_pins | reflexivity | reflexivity | reflexivity | exact Hl].
Defined.

(* ---------------------------------------------------------------- *)
(** ** The life of a pbuffer *)

Lemma pbuffer_life_run pf raw h dpy_ config_ depthFormat w h0 f :
  exists s h1 s2 h2 size,
    Pbuffer.FGLPbufferSurface_new pf dpy_ config_ depthFormat w h0 f raw h
      = (Returns tt, s, h1) /\
    FGLPbufferSurface_delete s h1 = (Returns tt, s2, h2) /\
    heap_calls h1 =
      (if depthFormat =? 0 then []
       else [EvAlloc (size_t (uint32 (uint32 w * uint32 h0 * 4)))
               (Plane.data (Pbuffer.depth s))])
      ++ EvAlloc size (Plane.data (Pbuffer.pbuffer s)) :: heap_calls h /\
    heap_calls h2 =
      EvFree (Plane.data (Pbuffer.depth s))
        :: EvFree (Plane.data (Pbuffer.pbuffer s)) :: heap_calls h1 /\
    (depthFormat = 0 -> Plane.data (Pbuffer.depth s) = NULL) /\
    (depthFormat <> 0 -> Plane.data (Pbuffer.depth s) = NULL ->
     last_error h1 = EGL_BAD_ALLOC) /\
    Pbuffer.magic s = MAGIC /\ Pbuffer.magic s2 = 0.
Proof.
  destruct raw as [mg dp cf cx de pb].
  unfold Pbuffer.FGLPbufferSurface_new, Pbuffer.FGLSurface_new, FGLPbufferSurface_delete.
  repeat first [ progress run | progress pfields
               | match goal with
                 | |- context [if ?x then _ else _] => destruct x eqn:?
                 end ].
  all: eexists _, _, _, _, _; (split; [reflexivity|]); pfields.
  all: booleans; subst.
  all: split_and!; try reflexivity; try done.
  Unshelve. all: exact 0.
Qed.

(** X17.  A pbuffer, from its constructor to the end of its
    destructors, whatever the platform, the sizes and the formats: the
    constructor asks the allocator for the colour plane and, when a depth
    format is given, for a depth plane of [width * height * 4] bytes
    (modulo 2^32), and keeps what it is handed; the destructors free the
    colour plane and then the depth plane, which is [NULL] when no depth
    format was given, and free nothing else.  When the depth plane could
    not be had, the constructor leaves [EGL_BAD_ALLOC] in the error
    slot. *)
Theorem pbuffer_life pf raw h dpy_ config_ depthFormat w h0 f :
  exists s h1 s2 h2 size,
    Pbuffer.FGLPbufferSurface_new pf dpy_ config_ depthFormat w h0 f raw h
      = (Returns tt, s, h1) /\
    FGLPbufferSurface_delete s h1 = (Returns tt, s2, h2) /\
    heap_calls h1 =
      (if depthFormat =? 0 then []
       else [EvAlloc (size_t (uint32 (uint32 w * uint32 h0 * 4)))
               (Plane.data (Pbuffer.depth s))])
      ++ EvAlloc size (Plane.data (Pbuffer.pbuffer s)) :: heap_calls h /\
    heap_calls h2 =
      EvFree (Plane.data (Pbuffer.depth s))
        :: EvFree (Plane.data (Pbuffer.pbuffer s)) :: heap_calls h1 /\
    (depthFormat = 0 -> Plane.data (Pbuffer.depth s) = NULL) /\
    (depthFormat <> 0 -> Plane.data (Pbuffer.depth s) = NULL ->
     last_error h1 = EGL_BAD_ALLOC) /\
    Pbuffer.magic s = MAGIC /\ Pbuffer.magic s2 = 0.
Proof. apply pbuffer_life_run. Qed.

(** On a platform whose allocator finds one block only, a pbuffer with a
    depth format is left without depth plane, with [EGL_BAD_ALLOC]
    pending, and passes [initCheck], which looks at the colour plane. *)
Example pbuffer_without_depth_passes_initCheck :
  let raw := Pbuffer.mk 0 0 0 0 (Plane.mk 0 0 0 0 0 0) (Plane.mk 0 0 0 0 0 0) in
  exists s h,
    Pbuffer.FGLPbufferSurface_new one_block 1 0 1 4 4 1 raw [] = (Returns tt, s, h) /\
    Pbuffer.initCheck s = true /\
    Plane.format (Pbuffer.depth s) = 1 /\ Plane.data (Pbuffer.depth s) = NULL /\
    last_error h = EGL_BAD_ALLOC.
Proof.
  cbn zeta. eexists _, _. split; [vm_compute; reflexivity|]. by split_and!.
Qed.

(* ---------------------------------------------------------------- *)
(** ** Pixmap surfaces *)

Ltac xfields :=
  cbn [Pixmap.magic Pixmap.dpy Pixmap.config Pixmap.ctx Pixmap.depth
       Pixmap.nativePixmap Pixmap.set_depth Pixmap.width Pixmap.height
       set_plane_width set_plane_height set_plane_stride set_plane_data
       Plane.version Plane.width Plane.height Plane.stride Plane.data Plane.format
       last_error heap_calls fst snd negb orb] in *.

Lemma pixmap_construction pf raw h dpy_ config_ depthFormat px :
  exists s h',
    Pixmap.FGLPixmapSurface_new pf dpy_ config_ depthFormat (Some px) raw h
      = (Returns tt, s, h') /\
    Pixmap.getWidth s = Pixmap.width px /\ Pixmap.getHeight s = Pixmap.height px /\
    Plane.format (Pixmap.depth s) = depthFormat /\
    ((Pixmap.initCheck s = true /\ last_error h' = last_error h /\
      (depthFormat = 0 ->
       heap_calls h' = heap_calls h /\ Plane.data (Pixmap.depth s) = NULL) /\
      (depthFormat <> 0 ->
       Plane.data (Pixmap.depth s) <> NULL /\
       Plane.width (Pixmap.depth s) = uint32 (Pixmap.width px) /\
       Plane.height (Pixmap.depth s) = uint32 (Pixmap.height px))) \/
     (Pixmap.initCheck s = false /\ depthFormat <> 0 /\
      Plane.data (Pixmap.depth s) = NULL /\ last_error h' = EGL_BAD_ALLOC)).
Proof.
  destruct raw as [mg dp cf cx de np].
  unfold Pixmap.FGLPixmapSurface_new, Pixmap.initCheck, Pixmap.getWidth, Pixmap.getHeight.
  repeat first [ progress run | progress xfields
               | match goal with
                 | |- context [if ?x then _ else _] => destruct x eqn:?
                 end ].
  all: eexists _, _; (split; [reflexivity|]); xfields.
  all: booleans; subst; unfold NULL in *.
  all: split_and!; try reflexivity.
  all: first [ left; split_and!; try done;
               first [ apply orb_true_iff; right; apply negb_true_iff; by apply Z.eqb_neq
                     | by apply orb_true_iff; left; apply Z.eqb_eq
                     | intros; done ]
             | right; split_and!; try done;
               apply orb_false_iff; split;
               [by apply Z.eqb_neq | apply negb_false_iff; by apply Z.eqb_eq] ].
Qed.

(** X18.  The constructor of a pixmap surface, given a pixmap, returns
    a surface with the width and height of the pixmap.  Either
    [initCheck()] holds and the constructor has set no error: without
    depth format it has not called the allocator, with one the depth
    plane is allocated with the size of the pixmap.  Or [initCheck()]
    fails: a depth format was asked for, the allocation failed, and
    [EGL_BAD_ALLOC] is pending. *)
Theorem pixmap_initCheck pf raw h dpy_ config_ depthFormat px :
  exists s h',
    Pixmap.FGLPixmapSurface_new pf dpy_ config_ depthFormat (Some px) raw h
      = (Returns tt, s, h') /\
    Pixmap.getWidth s = Pixmap.width px /\ Pixmap.getHeight s = Pixmap.height px /\
    Plane.format (Pixmap.depth s) = depthFormat /\
    ((Pixmap.initCheck s = true /\ last_error h' = last_error h /\
      (depthFormat = 0 ->
       heap_calls h' = heap_calls h /\ Plane.data (Pixmap.depth s) = NULL) /\
      (depthFormat <> 0 ->
       Plane.data (Pixmap.depth s) <> NULL /\
       Plane.width (Pixmap.depth s) = uint32 (Pixmap.width px) /\
       Plane.height (Pixmap.depth s) = uint32 (Pixmap.height px))) \/
     (Pixmap.initCheck s = false /\ depthFormat <> 0 /\
      Plane.data (Pixmap.depth s) = NULL /\ last_error h' = EGL_BAD_ALLOC)).
Proof. apply pixmap_construction. Qed.

(* ---------------------------------------------------------------- *)
(** ** The error slot *)

Lemma next_key_fresh : ErrorSlot.fresh_keys ErrorSlot.next_key.
Proof.
  intros ks k [= <-].
  assert (forall x, x ∈ ks -> x <= foldr Z.max 0 ks) as Hmax.
  { induction ks as [|y ks IH]; intros x Hx; [by apply elem_of_nil in Hx|].
    cbn [foldr]. apply elem_of_cons in Hx as [->|Hx]; [lia|].
    specialize (IH x Hx). lia. }
  assert (0 <= foldr Z.max 0 ks) as H0.
  { clear. induction ks as [|y ks IH]; cbn [foldr]; lia. }
  split; [|lia]. intros Hin. specialize (Hmax _ Hin). lia.
Qed.

Ltac slot :=
  unfold ErrorSlot.setError, ErrorSlot.eglGetError, ErrorSlot.eglGetDisplay,
    ErrorSlot.pthread_getspecific, ErrorSlot.pthread_setspecific,
    ErrorSlot.pthread_key_create_eglErrorKey, ErrorSlot.well_formed in *;
  cbn [ErrorSlot.eglContextKey ErrorSlot.eglErrorKey ErrorSlot.keys
       ErrorSlot.specific] in *.

Lemma setError_stores create error s :
  ErrorSlot.fresh_keys create -> ErrorSlot.well_formed s ->
  (ErrorSlot.eglErrorKey s = (-1) -> is_Some (create (ErrorSlot.keys s))) ->
  exists s1,
    ErrorSlot.setError create error s = Returns s1 /\
    ErrorSlot.well_formed s1 /\ ErrorSlot.eglErrorKey s1 <> (-1) /\
    ErrorSlot.eglErrorKey s1 ∈ ErrorSlot.keys s1 /\
    ErrorSlot.specific s1 (ErrorSlot.eglErrorKey s1) = error /\
    ErrorSlot.eglContextKey s1 = ErrorSlot.eglContextKey s /\
    (ErrorSlot.eglErrorKey s <> (-1) ->
     ErrorSlot.eglErrorKey s1 = ErrorSlot.eglErrorKey s /\
     ErrorSlot.keys s1 = ErrorSlot.keys s).
Proof.
  intros Hf Hwf Hc. destruct s as [ck ek ks sp]. slot.
  destruct (Z.eqb_spec ek (-1)) as [->|Hne].
  - destruct (Hc eq_refl) as [k Hk]. rewrite Hk.
    destruct (Hf _ _ Hk) as [Hnot Hk1].
    cbn [ErrorSlot.eglContextKey ErrorSlot.eglErrorKey ErrorSlot.keys ErrorSlot.specific].
    rewrite decide_True by (apply elem_of_cons; by left).
    eexists. split; [reflexivity|]. slot.
    rewrite decide_True by done.
    split_and!; try done; try (right; apply elem_of_cons; by left);
      apply elem_of_cons; by left.
  - destruct Hwf as [|Hin]; [done|]. rewrite decide_True by done.
    eexists. split; [reflexivity|]. slot.
    rewrite decide_True by done. split_and!; try done. by right.
Qed.

Lemma eglGetError_reads hd s :
  ErrorSlot.eglErrorKey s <> (-1) -> ErrorSlot.eglErrorKey s ∈ ErrorSlot.keys s ->
  exists s1,
    ErrorSlot.eglGetError hd s
      = Returns (ErrorSlot.specific s (ErrorSlot.eglErrorKey s), s1) /\
    ErrorSlot.eglErrorKey s1 = ErrorSlot.eglErrorKey s /\
    ErrorSlot.keys s1 = ErrorSlot.keys s /\
    ErrorSlot.eglContextKey s1 = ErrorSlot.eglContextKey s /\
    ErrorSlot.specific s1 (ErrorSlot.eglErrorKey s1) = ErrorSlot.EGL_SUCCESS hd.
Proof.
  intros Hne Hin. destruct s as [ck ek ks sp]. slot.
  rewrite (proj2 (Z.eqb_neq ek (-1)) Hne). rewrite !decide_True by done.
  eexists. split; [reflexivity|]. slot. by rewrite decide_True.
Qed.

(** X19.  An error handed to [setError] is what the next [eglGetError]
    of the thread returns, and the one after that returns [EGL_SUCCESS]:
    reading the slot clears it.  This holds once the key exists, or when
    [pthread_key_create] succeeds with a key that is new and is not -1. *)
Theorem setError_eglGetError hd create error s :
  ErrorSlot.fresh_keys create -> ErrorSlot.well_formed s ->
  (ErrorSlot.eglErrorKey s = (-1) -> is_Some (create (ErrorSlot.keys s))) ->
  exists s1 s2 s3,
    ErrorSlot.setError create error s = Returns s1 /\
    ErrorSlot.eglGetError hd s1 = Returns (error, s2) /\
    ErrorSlot.eglGetError hd s2 = Returns (ErrorSlot.EGL_SUCCESS hd, s3).
Proof.
  intros Hf Hwf Hc.
  destruct (setError_stores create error s Hf Hwf Hc)
    as (s1 & H1 & _ & Hne & Hin & Hv & _).
  destruct (eglGetError_reads hd s1 Hne Hin) as (s2 & H2 & Hk & Hks & _ & Hv2).
  destruct (eglGetError_reads hd s2) as (s3 & H3 & _); [congruence..|].
  exists s1, s2, s3. split_and!; [done | by rewrite H2, Hv | by rewrite H3, Hv2].
Qed.

Lemma setError_eglGetError_witness :
  exists s1 s2 s3,
    ErrorSlot.setError ErrorSlot.next_key 0x3003 ErrorSlot.initial = Returns s1 /\
    ErrorSlot.eglGetError ErrorSlot.khronos s1 = Returns (0x3003, s2) /\
    ErrorSlot.eglGetError ErrorSlot.khronos s2 = Returns (0x3000, s3).
Proof.
  apply (setError_eglGetError ErrorSlot.khronos ErrorSlot.next_key 0x3003
           ErrorSlot.initial next_key_fresh).
  - by left.
  - intros _. by eexists.
Defined.

(** X20.  [eglGetDisplay] creates [eglErrorKey] anew on every call,
    since nothing sets the [eglContextKey] it tests.  When
    [pthread_key_create] succeeds with a new key, whatever error the
    thread had pending is out of reach: the key is another one, and the
    next [eglGetError] returns the [NULL] a new key starts with. *)
Theorem eglGetDisplay_drops_error hd create display_id s k :
  ErrorSlot.fresh_keys create -> ErrorSlot.well_formed s ->
  ErrorSlot.eglContextKey s = (-1) ->
  create (ErrorSlot.keys s) = Some k ->
  exists dpy s1 s2,
    ErrorSlot.eglGetDisplay hd create display_id s = (dpy, s1) /\
    ErrorSlot.eglContextKey s1 = (-1) /\
    ErrorSlot.eglErrorKey s1 = k /\ k <> ErrorSlot.eglErrorKey s /\
    ErrorSlot.eglGetError hd s1 = Returns (NULL, s2).
Proof.
  intros Hf Hwf Hck Hk. destruct (Hf _ _ Hk) as [Hnot Hk1].
  destruct s as [ck ek ks sp]. slot. subst ck. cbn [Z.eqb Pos.eqb]. rewrite Hk.
  assert (k <> ek) as Hne.
  { destruct Hwf as [->|Hin]; [done|]. intros ->. done. }
  assert (k ∈ k :: ks) as Hin by (apply elem_of_cons; by left).
  destruct (negb _); eexists _, _, _; (split; [reflexivity|]); slot;
    rewrite (proj2 (Z.eqb_neq k (-1)) Hk1), !decide_True by done; done.
Qed.

Lemma eglGetDisplay_drops_error_witness :
  exists s0 dpy s1 s2,
    ErrorSlot.setError ErrorSlot.next_key 0x3003 ErrorSlot.initial = Returns s0 /\
    ErrorSlot.eglGetDisplay ErrorSlot.khronos ErrorSlot.next_key 0 s0 = (dpy, s1) /\
    ErrorSlot.eglGetError ErrorSlot.khronos s1 = Returns (NULL, s2).
Proof.
  destruct (ErrorSlot.setError ErrorSlot.next_key 0x3003 ErrorSlot.initial)
    as [s0|] eqn:Hs; [|discriminate Hs].
  assert (ErrorSlot.well_formed s0 /\ ErrorSlot.eglContextKey s0 = (-1)) as [Hwf Hck].
  { injection Hs as <-. split; [right; apply elem_of_cons; by left | reflexivity]. }
  destruct (eglGetDisplay_drops_error ErrorSlot.khronos ErrorSlot.next_key 0 s0
              (1 + foldr Z.max 0 (ErrorSlot.keys s0)) next_key_fresh Hwf Hck eq_refl)
    as (dpy & s1 & s2 & H1 & _ & _ & _ & H2).
  by exists s0, dpy, s1, s2.
Defined.

(* ---------------------------------------------------------------- *)
(** ** Configurations *)

Import Config.

Ltac run_config :=
  repeat (progress (unfold mbind, mret, Run_mbind, Run_ret, Run_bind;
                    cbn beta iota zeta)).

Lemma at_index_inside {T} (a : list T) i :
  0 <= i < NELEM a -> exists e, at_index a i = Done e /\ a !! Z.to_nat i = Some e.
Proof.
  unfold NELEM, at_index. intros H.
  destruct (Z.ltb_spec i 0); [lia|].
  destruct (lookup_lt_is_Some_2 a (Z.to_nat i)) as [e He]; [lia|].
  exists e. by rewrite He.
Qed.

Lemma at_index_Done {T} (a : list T) i e :
  at_index a i = Done e -> 0 <= i < NELEM a /\ a !! Z.to_nat i = Some e.
Proof.
  unfold NELEM, at_index. destruct (Z.ltb_spec i 0); [done|].
  destruct (a !! Z.to_nat i) eqn:He; [|done]. intros [= ->].
  apply lookup_lt_Some in He. split; [lia | done].
Qed.

Lemma middle first last :
  0 <= first <= last -> last < 2 ^ 30 ->
  int32 (first + last) = first + last /\
  first <= Z.quot (first + last) 2 <= last /\
  int32 (Z.quot (first + last) 2 + 1) = Z.quot (first + last) 2 + 1 /\
  int32 (Z.quot (first + last) 2 - 1) = Z.quot (first + last) 2 - 1.
Proof.
  intros H1 H2. rewrite Z.quot_div_nonneg by lia.
  assert (first <= (first + last) / 2 <= last) as Hm.
  { split; [apply Z.div_le_lower_bound | apply Z.div_le_upper_bound]; lia. }
  split; [apply int32_small; unfold in_int32; lia|].
  split; [done|].
  split; apply int32_small; unfold in_int32; lia.
Qed.

Section Search.

Context {T : Type} (key_of : T -> Z) (a : list T) (k : Z).

Lemma binarySearch_loop_in_range : forall fuel first last,
  0 <= first -> last < NELEM a -> NELEM a <= 2 ^ 30 ->
  (Z.to_nat (last - first + 1) < fuel)%nat ->
  exists r, binarySearch_loop key_of fuel a first last k = Done r /\
    (r = -1 \/ (first <= r <= last /\
                exists e, at_index a r = Done e /\ key_of e = k)).
Proof.
  induction fuel as [|fuel IH]; intros first last H0 Hl Hn Hf; [lia|].
  cbn [binarySearch_loop]. destruct (Z.leb_spec first last) as [Hle|]; [|eauto].
  destruct (middle first last) as (-> & Hm & Hp & Hq); [lia..|].
  set (mid := Z.quot (first + last) 2) in *.
  destruct (at_index_inside a mid) as (e & He & _); [lia|].
  run_config. rewrite He.
  destruct (Z.gtb_spec k (key_of e)); [|destruct (Z.ltb_spec k (key_of e))].
  - rewrite Hp. destruct (IH (mid + 1) last) as (r & -> & Hr); [lia..|].
    exists r. split; [done|]. destruct Hr as [|[? ?]]; [by left|right]. split; [lia|done].
  - rewrite Hq. destruct (IH first (mid - 1)) as (r & -> & Hr); [lia..|].
    exists r. split; [done|]. destruct Hr as [|[? ?]]; [by left|right]. split; [lia|done].
  - exists mid. split; [done|]. right. split; [lia|]. exists e. split; [done|lia].
Qed.

Lemma binarySearch_loop_sorted : forall fuel first last i e,
  0 <= first -> last < NELEM a -> NELEM a <= 2 ^ 30 ->
  (Z.to_nat (last - first + 1) < fuel)%nat ->
  (forall i j ei ej, first <= i -> i < j -> j <= last ->
     at_index a i = Done ei -> at_index a j = Done ej -> key_of ei < key_of ej) ->
  first <= i <= last -> at_index a i = Done e -> key_of e = k ->
  binarySearch_loop key_of fuel a first last k = Done i.
Proof.
  induction fuel as [|fuel IH]; intros first last i e H0 Hl Hn Hf Hs Hi Hai Hk; [lia|].
  cbn [binarySearch_loop]. destruct (Z.leb_spec first last) as [Hle|]; [|lia].
  destruct (middle first last) as (-> & Hm & Hp & Hq); [lia..|].
  set (mid := Z.quot (first + last) 2) in *.
  destruct (at_index_inside a mid) as (em & He & _); [lia|].
  run_config. rewrite He.
  assert (i < mid -> key_of e < key_of em) as Hlt.
  { intros ?. apply (Hs i mid); first [lia | done]. }
  assert (mid < i -> key_of em < key_of e) as Hgt.
  { intros ?. apply (Hs mid i); first [lia | done]. }
  assert (i = mid -> key_of e = key_of em) as Heq.
  { intros ->. rewrite He in Hai. by injection Hai as ->. }
  destruct (Z.gtb_spec k (key_of em)); [|destruct (Z.ltb_spec k (key_of em))].
  - rewrite Hp. apply (IH _ _ i e); try done; try lia.
    intros i' j' ? ? ? ? ?. apply Hs; lia.
  - rewrite Hq. apply (IH _ _ i e); try done; try lia.
    intros i' j' ? ? ? ? ?. apply Hs; lia.
  - f_equal. lia.
Qed.

End Search.

Lemma binarySearch_range {T} (key_of : T -> Z) (a : list T) first last k :
  0 <= first -> last < NELEM a -> NELEM a <= 2 ^ 30 ->
  exists r, binarySearch key_of a first last k = Done r /\
    (r = -1 \/ (first <= r <= last /\
                exists e, at_index a r = Done e /\ key_of e = k)).
Proof.
  intros H0 Hl Hn. unfold binarySearch.
  apply binarySearch_loop_in_range; [done | done | done |].
  generalize (Z.to_nat (last - first + 1)). intros n. apply Nat.lt_succ_diag_r.
Qed.

(** X21.  Called on a range of indices that lies in the array,
    [binarySearch] reads inside the range only and returns: either -1, or
    an index of the range whose entry has the key looked for.  The array
    need not be sorted for this. *)
Theorem binarySearch_in_range {T} (key_of : T -> Z) (a : list T) first last k :
  0 <= first -> last < NELEM a -> NELEM a <= 2 ^ 30 ->
  exists r, binarySearch key_of a first last k = Done r /\
    (r = -1 \/ (first <= r <= last /\
                exists e, at_index a r = Done e /\ key_of e = k)).
Proof. apply binarySearch_range. Qed.

Lemma binarySearch_in_range_witness :
  exists r, binarySearch FGLConfigPair.key (configAttributes0 khronos) 0 8
              (EGL_CONFIG_ID khronos) = Done r /\
    (r = -1 \/ (0 <= r <= 8 /\
                exists e, at_index (configAttributes0 khronos) r = Done e /\
                          FGLConfigPair.key e = EGL_CONFIG_ID khronos)).
Proof.
  apply (binarySearch_in_range FGLConfigPair.key (configAttributes0 khronos) 0 8
           (EGL_CONFIG_ID khronos)); [lia | reflexivity | by vm_compute].
Defined.

(** X22.  When the keys between [first] and [last] ascend strictly,
    [binarySearch] returns the index of the key looked for if some entry
    of the range has it, and -1 only if none has. *)
Theorem binarySearch_sorted {T} (key_of : T -> Z) (a : list T) first last k :
  0 <= first -> last < NELEM a -> NELEM a <= 2 ^ 30 ->
  (forall i j ei ej, first <= i -> i < j -> j <= last ->
     at_index a i = Done ei -> at_index a j = Done ej -> key_of ei < key_of ej) ->
  (forall i e, first <= i <= last -> at_index a i = Done e -> key_of e = k ->
     binarySearch key_of a first last k = Done i) /\
  (binarySearch key_of a first last k = Done (-1) ->
   forall i e, first <= i <= last -> at_index a i = Done e -> key_of e <> k).
Proof.
  intros H0 Hl Hn Hs.
  assert (forall i e, first <= i <= last -> at_index a i = Done e -> key_of e = k ->
            binarySearch key_of a first last k = Done i) as Hfind.
  { intros i e Hi He Hk. unfold binarySearch.
    apply (binarySearch_loop_sorted key_of a k _ first last i e); try done.
    generalize (Z.to_nat (last - first + 1)). intros n. apply Nat.lt_succ_diag_r. }
  split; [done|].
  intros Hm i e Hi He Hk. rewrite (Hfind i e Hi He Hk) in Hm.
  injection Hm as ->. lia.
Qed.

Lemma binarySearch_sorted_witness :
  binarySearch FGLConfigPair.key (configAttributes0 khronos) 0 5
    (EGL_GREEN_SIZE khronos) = Done 3.
Proof.
  apply (binarySearch_sorted FGLConfigPair.key (configAttributes0 khronos) 0 5
           (EGL_GREEN_SIZE khronos)) with (e := FGLConfigPair.mk (EGL_GREEN_SIZE khronos) 6);
    [lia | reflexivity | by vm_compute | | lia | reflexivity | reflexivity].
  intros i j ei ej Hi Hij Hj.
  assert (i = 0 \/ i = 1 \/ i = 2 \/ i = 3 \/ i = 4) as Hci by lia.
  assert (j = 1 \/ j = 2 \/ j = 3 \/ j = 4 \/ j = 5) as Hcj by lia.
  destruct Hci as [->|[->|[->|[->| ->]]]], Hcj as [->|[->|[->|[->| ->]]]];
    try lia; intros [= <-] [= <-]; cbn; lia.
Defined.

Lemma uint32_int32_index c :
  (uint32 (int32 c) >=? 8) = false <-> 0 <= int32 c < 8.
Proof.
  assert (- 2 ^ 31 <= int32 c < 2 ^ 31) as Hr.
  { unfold int32. pose proof (Z.mod_pos_bound (c + 2 ^ 31) (2 ^ 32)). lia. }
  unfold uint32. destruct (Z.geb_spec (int32 c `mod` 2 ^ 32) 8) as [Hge|Hlt].
  - split; [done|]. intros Hi. rewrite Z.mod_small in Hge; lia.
  - split; [|done]. intros _.
    destruct (Z.lt_ge_cases (int32 c) 0) as [Hneg|Hpos].
    + rewrite <- (Z.mod_add _ 1) in Hlt by lia. rewrite Z.mod_small in Hlt; lia.
    + rewrite Z.mod_small in Hlt; lia.
Qed.

Lemma gConfigs_entry hd i :
  0 <= i < 8 ->
  exists bs al bl gr re de id st,
    at_index (gConfigs hd) i = Done (configAttributes hd bs al bl gr re de id st).
Proof.
  intros Hi.
  assert (i = 0 \/ i = 1 \/ i = 2 \/ i = 3 \/ i = 4 \/ i = 5 \/ i = 6 \/ i = 7)
    as [->|[->|[->|[->|[->|[->|[->| ->]]]]]]] by lia;
    repeat eexists; reflexivity.
Qed.

Lemma at_index_elem {T} (a : list T) i e : at_index a i = Done e -> e ∈ a.
Proof. intros H. apply at_index_Done in H as [_ H]. by eapply list_elem_of_lookup_2. Qed.

Lemma search_config hd bs al bl gr re de id st k :
  let array := configAttributes hd bs al bl gr re de id st in
  exists r, binarySearch FGLConfigPair.key array 0 (NELEM array - 1) k = Done r /\
    (r = -1 \/ (0 <= r /\ exists e, at_index array r = Done e /\ FGLConfigPair.key e = k)).
Proof.
  intros array.
  destruct (binarySearch_range FGLConfigPair.key array 0 (NELEM array - 1) k)
    as (r & Hr & Hc); [lia | lia | by vm_compute |].
  exists r. split; [done|]. destruct Hc as [|[? ?]]; [by left|right]. split; [lia|done].
Qed.

Lemma search_base hd k :
  let array := baseConfigAttributes hd in
  exists r, binarySearch FGLConfigPair.key array 0 (NELEM array - 1) k = Done r /\
    (r = -1 \/ (0 <= r /\ exists e, at_index array r = Done e /\ FGLConfigPair.key e = k)).
Proof.
  intros array.
  destruct (binarySearch_range FGLConfigPair.key array 0 (NELEM array - 1) k)
    as (r & Hr & Hc); [lia | lia | by vm_compute |].
  exists r. split; [done|]. destruct Hc as [|[? ?]]; [by left|right]. split; [lia|done].
Qed.

Lemma search_management hd k :
  let array := gConfigManagement hd in
  exists r, binarySearch FGLConfigMatcher.key array 0 (NELEM array - 1) k = Done r /\
    (r = -1 \/ (0 <= r /\ exists e, at_index array r = Done e /\ FGLConfigMatcher.key e = k)).
Proof.
  intros array.
  destruct (binarySearch_range FGLConfigMatcher.key array 0 (NELEM array - 1) k)
    as (r & Hr & Hc); [lia | lia | by vm_compute |].
  exists r. split; [done|]. destruct Hc as [|[? ?]]; [by left|right]. split; [lia|done].
Qed.

Lemma getConfigAttrib_cases hd dpy config attribute :
  exists a, getConfigAttrib hd dpy config attribute = Done a /\
    (attrib_error a = Some EGL_BAD_CONFIG <-> ~ (0 <= int32 config < 8)) /\
    (attrib_result a = EGL_TRUE <-> attrib_error a = None) /\
    (attrib_result a = EGL_TRUE <-> value_out a <> None) /\
    (forall v, value_out a = Some v ->
       exists array e,
         at_index (gConfigs hd) (int32 config) = Done array /\
         (e ∈ array \/ e ∈ baseConfigAttributes hd) /\
         FGLConfigPair.key e = attribute /\ FGLConfigPair.value e = v).
Proof.
  unfold getConfigAttrib.
  change (size_t (NELEM (gConfigs hd))) with 8.
  destruct (uint32 (int32 config) >=? 8) eqn:Hu.
  { eexists. split; [reflexivity|]. cbn. split_and!; try done.
    split; [|done]. intros _ Hi. apply uint32_int32_index in Hi. congruence. }
  apply uint32_int32_index in Hu.
  destruct (gConfigs_entry hd _ Hu) as (bs & al & bl & gr & re & de & id & st & Ha).
  run_config. rewrite Ha.
  destruct (search_config hd bs al bl gr re de id st attribute) as (r & -> & Hr).
  destruct (Z.geb_spec r 0) as [Hge|Hlt].
  - destruct Hr as [->|(_ & e & He & Hk)]; [lia|]. rewrite He.
    eexists. split; [reflexivity|]. cbn. split_and!; try done.
    intros v [= <-]. eexists _, e. split_and!; try done. left. by eapply at_index_elem.
  - destruct (search_base hd attribute) as (r' & -> & Hr').
    destruct (Z.geb_spec r' 0) as [Hge'|Hlt'].
    + destruct Hr' as [->|(_ & e & He & Hk)]; [lia|]. rewrite He.
      eexists. split; [reflexivity|]. cbn. split_and!; try done.
      intros v [= <-]. eexists _, e. split_and!; try done. right. by eapply at_index_elem.
    + eexists. split; [reflexivity|]. cbn. split_and!; try done.
Qed.

(** X23.  [getConfigAttrib] always returns.  It reports
    [EGL_BAD_CONFIG] exactly for the handles that are not an index of
    [gConfigs], negative ones included; it succeeds exactly when it sets
    no error and stores a value, and a value it stores is the value of an
    entry with the attribute asked for, in the table of that
    configuration or in [baseConfigAttributes]. *)
Theorem getConfigAttrib_answers hd dpy config attribute :
  exists a, getConfigAttrib hd dpy config attribute = Done a /\
    (attrib_error a = Some EGL_BAD_CONFIG <-> ~ (0 <= int32 config < 8)) /\
    (attrib_result a = EGL_TRUE <-> attrib_error a = None) /\
    (attrib_result a = EGL_TRUE <-> value_out a <> None) /\
    (forall v, value_out a = Some v ->
       exists array e,
         at_index (gConfigs hd) (int32 config) = Done array /\
         (e ∈ array \/ e ∈ baseConfigAttributes hd) /\
         FGLConfigPair.key e = attribute /\ FGLConfigPair.value e = v).
Proof. apply getConfigAttrib_cases. Qed.

Lemma isAttributeMatching_done hd i attr val :
  0 <= i < 8 -> exists r, isAttributeMatching hd i attr val = Done r.
Proof.
  intros Hi. unfold isAttributeMatching.
  destruct (gConfigs_entry hd i Hi) as (bs & al & bl & gr & re & de & id & st & Ha).
  run_config. rewrite Ha.
  destruct (search_config hd bs al bl gr re de id st attr) as (r & -> & Hr).
  destruct (search_management hd attr) as (m & Hm & Hmr).
  destruct (Z.ltb_spec r 0) as [Hlt|Hge].
  - destruct (search_base hd attr) as (r' & -> & Hr').
    destruct (Z.geb_spec r' 0); [|eauto].
    rewrite Hm. destruct (Z.geb_spec m 0); [|eauto].
    destruct Hmr as [->|(_ & em & -> & _)]; [lia|].
    destruct Hr' as [->|(_ & e & -> & _)]; [lia|].
    destruct (FGLConfigMatcher.match_ em val (FGLConfigPair.value e)); eauto.
  - destruct (Z.geb_spec r 0); [|lia].
    rewrite Hm. destruct (Z.geb_spec m 0); [|eauto].
    destruct Hmr as [->|(_ & em & -> & _)]; [lia|].
    destruct Hr as [->|(_ & e & -> & _)]; [lia|].
    destruct (FGLConfigMatcher.match_ em val (FGLConfigPair.value e)); eauto.
Qed.

(** ** Bits of [possibleMatch] *)

Lemma bit_test pm i :
  0 <= i -> (Z.land pm (Z.shiftl 1 i) =? 0) = negb (Z.testbit pm i).
Proof.
  intros Hi. rewrite Z.shiftl_1_l.
  destruct (Z.testbit pm i) eqn:Hb; cbn [negb].
  - apply Z.eqb_neq. intros H0.
    assert (Z.testbit (Z.land pm (2 ^ i)) i = true) as Ht.
    { rewrite Z.land_spec, Hb, Z.pow2_bits_true; done. }
    rewrite H0, Z.bits_0 in Ht. done.
  - apply Z.eqb_eq. apply Z.bits_inj'. intros n Hn.
    rewrite Z.land_spec, Z.bits_0, Z.pow2_bits_eqb by done.
    destruct (Z.eqb_spec i n) as [->|]; [by rewrite Hb|apply andb_false_r].
Qed.

Lemma bit_clear pm i n :
  0 <= i < 32 -> 0 <= n < 32 ->
  Z.testbit (Z.land pm (uint32 (Z.lnot (Z.shiftl 1 i)))) n
  = Z.testbit pm n && negb (n =? i).
Proof.
  intros Hi Hn. unfold uint32.
  rewrite Z.land_spec. change (2 ^ 32) with (2 ^ 32).
  rewrite Z.mod_pow2_bits_low by lia.
  rewrite Z.lnot_spec, Z.shiftl_1_l, Z.pow2_bits_eqb by lia.
  by rewrite (Z.eqb_sym i n).
Qed.

Lemma narrow_clear pm i : 0 <= i < 32 -> narrow pm ->
  narrow (Z.land pm (uint32 (Z.lnot (Z.shiftl 1 i)))).
Proof.
  intros Hi [H0 Hn]. split.
  - apply Z.land_nonneg. by left.
  - intros n H8. rewrite Z.land_spec, (Hn n H8). done.
Qed.

Lemma narrow_zero pm :
  narrow pm -> (forall n, 0 <= n < 8 -> Z.testbit pm n = false) -> pm = 0.
Proof.
  intros [H0 Hn] Hb. apply Z.bits_inj'. intros n Hn0. rewrite Z.bits_0.
  destruct (Z.lt_ge_cases n 8); [apply Hb; lia | apply Hn; lia].
Qed.

Ltac members :=
  repeat case_decide;
  repeat match goal with
         | H : ¬ (_ ∈ _ :: _) |- _ => apply not_elem_of_cons in H as [? ?]
         | H : _ ∈ _ :: _ |- _ => apply elem_of_cons in H as [?|?]
         end;
  subst; try done.

Section Choose.

Context (hd : Header).

Lemma prune_bits attr val : forall indices pm,
  narrow pm -> (forall i, i ∈ indices -> 0 <= i < 8) ->
  exists pm', prune hd indices attr val pm = Done pm' /\ narrow pm' /\
    forall n, 0 <= n < 8 ->
      Z.testbit pm' n
      = Z.testbit pm n && (if decide (n ∈ indices) then passes hd n attr val else true).
Proof.
  induction indices as [|i rest IH]; intros pm Hpm Hin; cbn [prune].
  { exists pm. split_and!; try done. intros n Hn.
    case_decide as Hm; [by apply elem_of_nil in Hm | by rewrite andb_true_r]. }
  assert (0 <= i < 8) as Hi by (apply Hin; apply elem_of_cons; by left).
  assert (forall j, j ∈ rest -> 0 <= j < 8) as Hrest
    by (intros j Hj; apply Hin; apply elem_of_cons; by right).
  destruct (Z.eqb_spec pm 0) as [->|Hnz].
  { exists 0. split_and!; try done. intros n Hn. by rewrite Z.bits_0. }
  rewrite bit_test by lia.
  destruct (Z.testbit pm i) eqn:Hb; cbn [negb].
  - destruct (isAttributeMatching_done hd i attr val Hi) as (r & Hr).
    run_config. rewrite Hr.
    assert (passes hd i attr val = negb (r =? 0)) as Hp by (unfold passes; by rewrite Hr).
    destruct (r =? 0); cbn [negb] in Hp.
    + destruct (IH (Z.land pm (uint32 (Z.lnot (Z.shiftl 1 i)))))
        as (pm' & -> & Hn' & Hbits); [apply narrow_clear; [lia|done] | done |].
      exists pm'. split_and!; try done. intros n Hn.
      rewrite (Hbits n Hn), bit_clear by lia.
      destruct (Z.eqb_spec n i) as [Heq|Hne]; cbn [negb]; members;
        rewrite ?Hp, ?andb_true_r, ?andb_false_r; done.
    + destruct (IH pm) as (pm' & -> & Hn' & Hbits); [done..|].
      exists pm'. split_and!; try done. intros n Hn. rewrite (Hbits n Hn).
      members; rewrite ?Hp, ?andb_true_r, ?andb_false_r; done.
  - destruct (IH pm) as (pm' & -> & Hn' & Hbits); [done..|].
    exists pm'. split_and!; try done. intros n Hn. rewrite (Hbits n Hn).
    members; rewrite ?Hb, ?andb_true_r, ?andb_false_r; done.
Qed.

Lemma accepts_cons i a v pairs :
  accepts hd i ((a, v) :: pairs) = passes hd i a v && accepts hd i pairs.
Proof. reflexivity. Qed.

Lemma attribs_cons a v pairs behind :
  attribs hd ((a, v) :: pairs) behind = a :: v :: attribs hd pairs behind.
Proof. reflexivity. Qed.

Lemma elem_of_seqZ_8 n : 0 <= n < 8 -> n ∈ seqZ 0 8.
Proof. intros Hn. apply elem_of_seqZ. lia. Qed.

Lemma scan_bits behind : forall pairs count pm,
  narrow pm -> Forall (fun p => p.1 <> EGL_NONE hd) pairs ->
  exists count' pm',
    scan hd 8 (attribs hd pairs behind) count pm = Done (count', pm') /\
    narrow pm' /\
    forall n, 0 <= n < 8 -> Z.testbit pm' n = Z.testbit pm n && accepts hd n pairs.
Proof.
  induction pairs as [|[a v] pairs IH]; intros count pm Hpm Hwf.
  { exists count, pm. split_and!; try done.
    - unfold attribs. cbn [map concat app scan].
      destruct (pm =? 0); [done|]. by rewrite Z.eqb_refl.
    - intros n Hn. cbn. by rewrite andb_true_r. }
  rewrite attribs_cons. cbn [scan].
  apply Forall_cons_1 in Hwf as [Ha Hwf]. cbn [fst] in Ha.
  destruct (Z.eqb_spec pm 0) as [->|Hnz].
  { exists count, 0. split_and!; try done. intros n Hn. by rewrite Z.bits_0. }
  destruct (Z.eqb_spec a (EGL_NONE hd)) as [Heq|Hne]; [done|].
  destruct (prune_bits a v (seqZ 0 8) pm Hpm) as (pm1 & Hp & Hn1 & Hb1).
  { intros i Hi. apply elem_of_seqZ in Hi. lia. }
  run_config. rewrite Hp.
  destruct (IH (int32 (count + 1)) pm1 Hn1 Hwf) as (count' & pm' & -> & Hn' & Hb').
  exists count', pm'. split_and!; try done. intros n Hn.
  rewrite (Hb' n Hn), (Hb1 n Hn), accepts_cons.
  rewrite decide_True by (by apply elem_of_seqZ_8). by rewrite andb_assoc.
Qed.

Lemma store_configs_take pm : forall indices config_size,
  (forall i, i ∈ indices -> 0 <= i) -> 0 <= config_size < 2 ^ 31 ->
  store_configs indices pm config_size
  = take (Z.to_nat config_size) (List.filter (Z.testbit pm) indices).
Proof.
  induction indices as [|i rest IH]; intros cs Hin Hcs; cbn [store_configs List.filter].
  { by rewrite take_nil. }
  assert (0 <= i) as Hi by (apply Hin; apply elem_of_cons; by left).
  assert (forall j, j ∈ rest -> 0 <= j) as Hrest
    by (intros j Hj; apply Hin; apply elem_of_cons; by right).
  destruct (Z.eqb_spec cs 0) as [->|Hnz]; [done|].
  rewrite bit_test by done.
  destruct (Z.testbit pm i); cbn [negb].
  - rewrite int32_small by (unfold in_int32; lia).
    rewrite IH by first [done | lia].
    replace (Z.to_nat cs) with (S (Z.to_nat (cs - 1))) by lia. done.
  - by apply IH.
Qed.

Lemma count_configs_length pm : forall indices n,
  (forall i, i ∈ indices -> 0 <= i) -> 0 <= n -> n + NELEM indices < 2 ^ 31 ->
  count_configs indices pm n = n + NELEM (List.filter (Z.testbit pm) indices).
Proof.
  unfold NELEM.
  induction indices as [|i rest IH]; intros n Hin Hn Hlen;
    cbn [count_configs List.filter length] in *.
  { lia. }
  assert (0 <= i) as Hi by (apply Hin; apply elem_of_cons; by left).
  assert (forall j, j ∈ rest -> 0 <= j) as Hrest
    by (intros j Hj; apply Hin; apply elem_of_cons; by right).
  rewrite bit_test by done.
  destruct (Z.testbit pm i); cbn [negb length].
  - rewrite int32_small by (unfold in_int32; lia).
    rewrite IH by first [done | lia]. lia.
  - apply IH; first [done | lia].
Qed.

Lemma filter_bits pm pairs :
  (forall n, 0 <= n < 8 -> Z.testbit pm n = accepts hd n pairs) ->
  List.filter (Z.testbit pm) (seqZ 0 8) = chosen hd pairs.
Proof.
  intros Hb. unfold chosen. change (NELEM (gConfigs hd)) with 8.
  apply List.filter_ext_in. intros n Hn.
  apply Hb. apply list_elem_of_In, elem_of_seqZ in Hn. lia.
Qed.

Lemma narrow_255 : narrow (uint32 (Z.shiftl 1 8 - 1)) /\
  forall n, 0 <= n < 8 -> Z.testbit (uint32 (Z.shiftl 1 8 - 1)) n = true.
Proof.
  change (uint32 (Z.shiftl 1 8 - 1)) with (Z.ones 8). split; [split|].
  - done.
  - intros n Hn. apply Z.ones_spec_high. lia.
  - intros n Hn. apply Z.ones_spec_low. lia.
Qed.

Lemma eglChooseConfig_filter attrib_list pairs configs config_size :
  (attrib_list = None /\ pairs = [] \/
   exists behind, attrib_list = Some (attribs hd pairs behind)) ->
  Forall (fun p => p.1 <> EGL_NONE hd) pairs ->
  0 <= config_size < 2 ^ 31 ->
  eglChooseConfig hd 1 attrib_list configs config_size true =
  Done (if configs then
          let stored := take (Z.to_nat config_size) (chosen hd pairs) in
          mkAnswer EGL_TRUE None stored (Some (NELEM stored))
        else mkAnswer EGL_TRUE None [] (Some (NELEM (chosen hd pairs)))).
Proof.
  intros Hlist Hwf Hcs. unfold eglChooseConfig.
  change (NELEM (gConfigs hd)) with 8. cbn [isDisplayValid Z.eqb negb].
  rewrite decide_False by done. cbn [negb].
  destruct narrow_255 as [Hn255 Hb255].
  set (all := uint32 (Z.shiftl 1 8 - 1)) in *.
  assert (exists count pm,
            match attrib_list with
            | Some l => scan hd 8 l 0 all
            | None => Done (0, all)
            end = Done (count, pm) /\ narrow pm /\
            forall n, 0 <= n < 8 -> Z.testbit pm n = accepts hd n pairs)
    as (count & pm & -> & Hn & Hb).
  { destruct Hlist as [[-> ->]|[behind ->]].
    - exists 0, all. split_and!; try done.
    - destruct (scan_bits behind pairs 0 all Hn255 Hwf) as (c & pm & Hs & Hn & Hb).
      exists c, pm. split_and!; try done. intros n Hi.
      by rewrite (Hb n Hi), (Hb255 n Hi). }
  run_config. cbn [snd].
  pose proof (filter_bits pm pairs Hb) as Hf.
  destruct (Z.eqb_spec pm 0) as [->|Hnz].
  - assert (chosen hd pairs = []) as ->.
    { rewrite <- Hf. reflexivity. }
    rewrite take_nil. by destruct configs.
  - destruct configs.
    + rewrite store_configs_take, Hf; [done| |done].
      intros i Hi. apply elem_of_seqZ in Hi. lia.
    + rewrite count_configs_length, Hf; [done| |done|by vm_compute].
      intros i Hi. apply elem_of_seqZ in Hi. lia.
Qed.

End Choose.

(** ** An attribute the tables hold out of order *)

Lemma binarySearch_loop_turn {T} (key_of : T -> Z) fuel a first last k mid e :
  (first <=? last) = true ->
  Z.quot (int32 (first + last)) 2 = mid ->
  at_index a mid = Done e ->
  binarySearch_loop key_of (S fuel) a first last k =
  if k >? key_of e then binarySearch_loop key_of fuel a (int32 (mid + 1)) last k
  else if k <? key_of e then binarySearch_loop key_of fuel a first (int32 (mid - 1)) k
  else Done mid.
Proof. intros Hle <- He. cbn [binarySearch_loop]. rewrite Hle. run_config. by rewrite He. Qed.

Lemma binarySearch_loop_exit {T} (key_of : T -> Z) fuel a first last k :
  (first <=? last) = false ->
  binarySearch_loop key_of (S fuel) a first last k = Done (-1).
Proof. intros Hle. cbn [binarySearch_loop]. by rewrite Hle. Qed.

Ltac search_turn :=
  first
    [ rewrite binarySearch_loop_exit by reflexivity
    | erewrite binarySearch_loop_turn by reflexivity;
      cbn [FGLConfigPair.key FGLConfigMatcher.key];
      repeat match goal with
             | |- context [int32 ?z] =>
                 let v := eval vm_compute in (int32 z) in change (int32 z) with v
             end ].

Ltac compare_keys :=
  match goal with
  | |- context [?a >? ?b] => destruct (Z.gtb_spec a b); try lia
  | |- context [?a <? ?b] => destruct (Z.ltb_spec a b); try lia
  end.

Lemma stencil_search hd bs al bl gr re de id st :
  EGL_RED_SIZE hd < EGL_STENCIL_SIZE hd ->
  EGL_DEPTH_SIZE hd < EGL_STENCIL_SIZE hd ->
  EGL_STENCIL_SIZE hd < EGL_CONFIG_ID hd ->
  let array := configAttributes hd bs al bl gr re de id st in
  binarySearch FGLConfigPair.key array 0 (NELEM array - 1) (EGL_STENCIL_SIZE hd)
  = Done (-1).
Proof.
  intros H1 H2 H3 array. subst array. unfold binarySearch.
  change (NELEM (configAttributes hd bs al bl gr re de id st) - 1) with 8.
  change (Z.to_nat (8 - 0 + 1)) with 9%nat.
  search_turn. compare_keys.
  search_turn. repeat compare_keys.
  search_turn. repeat compare_keys.
  search_turn. reflexivity.
Qed.

Lemma stencil_base hd :
  EGL_STENCIL_SIZE hd ∉ map FGLConfigPair.key (baseConfigAttributes hd) ->
  let array := baseConfigAttributes hd in
  binarySearch FGLConfigPair.key array 0 (NELEM array - 1) (EGL_STENCIL_SIZE hd)
  = Done (-1).
Proof.
  intros Hnot array.
  destruct (search_base hd (EGL_STENCIL_SIZE hd)) as (r & Hr & [->|(_ & e & He & Hk)]);
    [done|].
  exfalso. apply Hnot. rewrite <- Hk. apply list_elem_of_fmap_2.
  by eapply at_index_elem.
Qed.

Lemma stencil_getConfigAttrib hd dpy config :
  EGL_RED_SIZE hd < EGL_STENCIL_SIZE hd ->
  EGL_DEPTH_SIZE hd < EGL_STENCIL_SIZE hd ->
  EGL_STENCIL_SIZE hd < EGL_CONFIG_ID hd ->
  EGL_STENCIL_SIZE hd ∉ map FGLConfigPair.key (baseConfigAttributes hd) ->
  0 <= int32 config < 8 ->
  getConfigAttrib hd dpy config (EGL_STENCIL_SIZE hd)
  = Done (mkAttrib EGL_FALSE (Some EGL_BAD_ATTRIBUTE) None).
Proof.
  intros H1 H2 H3 Hb Hi. unfold getConfigAttrib.
  change (size_t (NELEM (gConfigs hd))) with 8.
  rewrite (proj2 (uint32_int32_index config) Hi).
  destruct (gConfigs_entry hd _ Hi) as (bs & al & bl & gr & re & de & id & st & Ha).
  run_config. rewrite Ha.
  rewrite (stencil_search hd bs al bl gr re de id st H1 H2 H3).
  change (-1 >=? 0) with false. cbn iota.
  by rewrite (stencil_base hd Hb).
Qed.

Lemma stencil_passes hd i val :
  EGL_RED_SIZE hd < EGL_STENCIL_SIZE hd ->
  EGL_DEPTH_SIZE hd < EGL_STENCIL_SIZE hd ->
  EGL_STENCIL_SIZE hd < EGL_CONFIG_ID hd ->
  EGL_STENCIL_SIZE hd ∉ map FGLConfigPair.key (baseConfigAttributes hd) ->
  0 <= i < 8 ->
  isAttributeMatching hd i (EGL_STENCIL_SIZE hd) val = Done 0.
Proof.
  intros H1 H2 H3 Hb Hi. unfold isAttributeMatching.
  destruct (gConfigs_entry hd _ Hi) as (bs & al & bl & gr & re & de & id & st & Ha).
  run_config. rewrite Ha.
  rewrite (stencil_search hd bs al bl gr re de id st H1 H2 H3).
  change (-1 <? 0) with true. cbn iota.
  by rewrite (stencil_base hd Hb).
Qed.

Lemma khronos_stencil :
  EGL_RED_SIZE khronos < EGL_STENCIL_SIZE khronos /\
  EGL_DEPTH_SIZE khronos < EGL_STENCIL_SIZE khronos /\
  EGL_STENCIL_SIZE khronos < EGL_CONFIG_ID khronos /\
  EGL_STENCIL_SIZE khronos ∉ map FGLConfigPair.key (baseConfigAttributes khronos).
Proof.
  split_and!; try reflexivity.
  intros H. repeat (apply elem_of_cons in H as [H|H]; [discriminate H|]).
  by apply elem_of_nil in H.
Qed.

(** X24.  For a display that is valid and an attribute list that is null
    or made of name and value pairs closed by [EGL_NONE],
    [eglChooseConfig] succeeds, sets no error and selects exactly the
    indices of [gConfigs] for which [isAttributeMatching] holds of every
    pair: with [configs] it stores them in ascending order, at most
    [config_size] of them, and reports how many it stored; without, it
    reports how many there are. *)
Theorem eglChooseConfig_chooses hd attrib_list pairs configs config_size :
  (attrib_list = None /\ pairs = [] \/
   exists behind, attrib_list = Some (attribs hd pairs behind)) ->
  Forall (fun p => p.1 <> EGL_NONE hd) pairs ->
  0 <= config_size < 2 ^ 31 ->
  eglChooseConfig hd 1 attrib_list configs config_size true =
  Done (if configs then
          let stored := take (Z.to_nat config_size) (chosen hd pairs) in
          mkAnswer EGL_TRUE None stored (Some (NELEM stored))
        else mkAnswer EGL_TRUE None [] (Some (NELEM (chosen hd pairs)))).
Proof. apply eglChooseConfig_filter. Qed.

Lemma eglChooseConfig_chooses_witness :
  eglChooseConfig khronos 1
    (Some [EGL_DEPTH_SIZE khronos; 16; EGL_ALPHA_SIZE khronos; 8; EGL_NONE khronos])
    true 10 true
  = Done (mkAnswer EGL_TRUE None [5; 7] (Some 2)).
Proof.
  apply (eglChooseConfig_chooses khronos
           (Some [EGL_DEPTH_SIZE khronos; 16; EGL_ALPHA_SIZE khronos; 8; EGL_NONE khronos])
           [(EGL_DEPTH_SIZE khronos, 16); (EGL_ALPHA_SIZE khronos, 8)] true 10).
  - right. by exists [].
  - repeat constructor; discriminate.
  - lia.
Defined.

(** X25.  When the header puts [EGL_STENCIL_SIZE] above
    [EGL_RED_SIZE] and [EGL_DEPTH_SIZE] and below [EGL_CONFIG_ID], as the
    Khronos header does, and [baseConfigAttributes] does not list it,
    [getConfigAttrib] does not find the stencil size of any
    configuration: it stores nothing and reports [EGL_BAD_ATTRIBUTE],
    although every [configAttributes<n>] has the entry. *)
Theorem getConfigAttrib_stencil_size hd dpy config :
  EGL_RED_SIZE hd < EGL_STENCIL_SIZE hd ->
  EGL_DEPTH_SIZE hd < EGL_STENCIL_SIZE hd ->
  EGL_STENCIL_SIZE hd < EGL_CONFIG_ID hd ->
  EGL_STENCIL_SIZE hd ∉ map FGLConfigPair.key (baseConfigAttributes hd) ->
  0 <= int32 config < 8 ->
  getConfigAttrib hd dpy config (EGL_STENCIL_SIZE hd)
    = Done (mkAttrib EGL_FALSE (Some EGL_BAD_ATTRIBUTE) None) /\
  exists array e,
    at_index (gConfigs hd) (int32 config) = Done array /\ e ∈ array /\
    FGLConfigPair.key e = EGL_STENCIL_SIZE hd.
Proof.
  intros H1 H2 H3 Hb Hi. split; [by apply stencil_getConfigAttrib|].
  destruct (gConfigs_entry hd _ Hi) as (bs & al & bl & gr & re & de & id & st & Ha).
  eexists _, (FGLConfigPair.mk (EGL_STENCIL_SIZE hd) st). split; [exact Ha|].
  split; [|done]. unfold configAttributes.
  do 7 (apply elem_of_cons; right). apply elem_of_cons. by left.
Qed.

Lemma getConfigAttrib_stencil_size_witness :
  getConfigAttrib khronos 1 3 (EGL_STENCIL_SIZE khronos)
  = Done (mkAttrib EGL_FALSE (Some EGL_BAD_ATTRIBUTE) None).
Proof.
  destruct khronos_stencil as (H1 & H2 & H3 & Hb).
  apply (getConfigAttrib_stencil_size khronos 1 3 H1 H2 H3 Hb). by vm_compute.
Defined.

Lemma filter_none {A} (f : A -> bool) (l : list A) :
  (forall x, x ∈ l -> f x = false) -> List.filter f l = [].
Proof.
  induction l as [|x l IH]; intros H; [done|]. cbn [List.filter].
  rewrite (H x) by (apply elem_of_cons; by left).
  apply IH. intros y Hy. apply H. apply elem_of_cons. by right.
Qed.

(** X26.  When the header puts [EGL_STENCIL_SIZE] above
    [EGL_RED_SIZE] and [EGL_DEPTH_SIZE] and below [EGL_CONFIG_ID], and
    [baseConfigAttributes] does not list it, an attribute list that names
    [EGL_STENCIL_SIZE], with whatever value, makes [eglChooseConfig]
    select no configuration: it succeeds, stores nothing and reports
    0. *)
Theorem eglChooseConfig_stencil_size hd pairs behind val configs config_size :
  EGL_RED_SIZE hd < EGL_STENCIL_SIZE hd ->
  EGL_DEPTH_SIZE hd < EGL_STENCIL_SIZE hd ->
  EGL_STENCIL_SIZE hd < EGL_CONFIG_ID hd ->
  EGL_STENCIL_SIZE hd ∉ map FGLConfigPair.key (baseConfigAttributes hd) ->
  Forall (fun p => p.1 <> EGL_NONE hd) pairs ->
  (EGL_STENCIL_SIZE hd, val) ∈ pairs ->
  0 <= config_size < 2 ^ 31 ->
  eglChooseConfig hd 1 (Some (attribs hd pairs behind)) configs config_size true
  = Done (mkAnswer EGL_TRUE None [] (Some 0)).
Proof.
  intros H1 H2 H3 Hb Hwf Hin Hcs.
  rewrite (eglChooseConfig_filter hd _ pairs) by eauto.
  assert (chosen hd pairs = []) as ->; [|rewrite take_nil; by destruct configs].
  apply filter_none. intros i Hi.
  change (NELEM (gConfigs hd)) with 8 in Hi. apply elem_of_seqZ in Hi.
  unfold accepts. apply not_true_is_false. intros Hall.
  rewrite forallb_forall in Hall.
  specialize (Hall _ (proj1 (list_elem_of_In _ _) Hin)).
  unfold passes in Hall. cbn [fst snd] in Hall.
  rewrite (stencil_passes hd i val H1 H2 H3 Hb) in Hall by lia. done.
Qed.

Lemma eglChooseConfig_stencil_size_witness :
  eglChooseConfig khronos 1
    (Some [EGL_DEPTH_SIZE khronos; 16; EGL_STENCIL_SIZE khronos; 0; EGL_NONE khronos])
    true 10 true
  = Done (mkAnswer EGL_TRUE None [] (Some 0)).
Proof.
  destruct khronos_stencil as (H1 & H2 & H3 & Hb).
  apply (eglChooseConfig_stencil_size khronos
           [(EGL_DEPTH_SIZE khronos, 16); (EGL_STENCIL_SIZE khronos, 0)] [] 0 true 10
           H1 H2 H3 Hb).
  - repeat constructor; discriminate.
  - apply elem_of_cons. right. apply elem_of_cons. by left.
  - lia.
Defined.
